(** * Emergency call optimizer: nearest-neighbour search, network graph,
      Dijkstra and path reconstruction (main.go)

    A shallow embedding of [main.go].  The Go program computes with
    [float64]; the embedding is written once over an interface
    [Float64] that lists the float operations the program uses, and is
    instantiated twice:
    - with Rocq's primitive binary64 floats ([prim_float64]), to run
      the program on concrete inputs exactly as Go does;
    - with any carrier satisfying [Float64Laws], the facts of IEEE-754
      comparison and addition on values that are not NaN, to prove
      properties for every input. *)

From Stdlib Require Import ZArith Floats.PrimFloat.
From stdpp Require Import gmap strings list fin_maps sorting.

Local Open Scope Z_scope.

(** ** Results

    A Go function returning [(T, error)] is embedded as a [result T].
    [Panic] is a run-time panic (assignment to an entry of a nil map). *)

Inductive result (A : Type) : Type :=
| Ok (a : A)
| Err (e : string)
| Panic.
Arguments Ok {A} a.
Arguments Err {A} e.
Arguments Panic {A}.

#[global] Instance result_ret : MRet result := @Ok.
#[global] Instance result_bind : MBind result := fun A B k r =>
  match r with
  | Ok a => k a
  | Err e => Err e
  | Panic => Panic
  end.

(** [for _, x := range xs { s, err = body(s, x); if err ... return }] *)
Fixpoint foldR {A S} (body : S → A → result S) (xs : list A) (s : S) : result S :=
  match xs with
  | [] => Ok s
  | x :: xs' => s' ← body s x; foldR body xs' s'
  end.

(** ** The float64 operations used by the program *)

Class Float64 (F : Type) := {
  f_add : F → F → F;          (* x + y *)
  f_sub : F → F → F;          (* x - y *)
  f_pow2 : F → F;             (* math.Pow(x, 2) *)
  f_sqrt : F → F;             (* math.Sqrt(x) *)
  f_ltb : F → F → bool;       (* x < y *)
  f_eqb : F → F → bool;       (* x == y *)
  f_zero : F;                 (* the literal 0 and the zero value *)
  f_inf : F;                  (* math.Inf(1) *)
  f_max : F                   (* math.MaxFloat64 *)
}.

(** IEEE-754 binary64.  For the exponent 2, [math.Pow] returns the
    correctly rounded product [x * x]; the two can differ only where that
    product is subnormal. *)
#[global] Instance prim_float64 : Float64 float := {|
  f_add := PrimFloat.add;
  f_sub := PrimFloat.sub;
  f_pow2 := fun x => PrimFloat.mul x x;
  f_sqrt := PrimFloat.sqrt;
  f_ltb := PrimFloat.ltb;
  f_eqb := PrimFloat.eqb;
  f_zero := PrimFloat.zero;
  f_inf := PrimFloat.infinity;
  f_max := 0x1.fffffffffffffp+1023%float
|}.

(** ** Data structures and nearest-neighbour search *)

Section Model.
Context {F : Type} `{Float64 F}.

Record Point := { X : F; Y : F }.

Record TelecomSite := { site_ID : string; site_Location : Point }.
Record Hub := { hub_ID : string; hub_Location : Point }.
Record EmergencyCenter := { ec_ID : string; ec_Location : Point }.

(** [Point{}], [EmergencyCenter{}]: the zero values. *)
Definition Point_zero : Point := {| X := f_zero; Y := f_zero |}.
Definition EmergencyCenter_zero : EmergencyCenter :=
  {| ec_ID := ""; ec_Location := Point_zero |}.

(** Go's [==] on the struct [Point]: field-wise [==]. *)
Definition Point_eqb (a b : Point) : bool :=
  f_eqb (X a) (X b) && f_eqb (Y a) (Y b).

(** [Validate] returns [nil] ([None]) or an error. *)
Definition site_Validate (site : TelecomSite) : option string :=
  if String.eqb (site_ID site) "" || Point_eqb (site_Location site) Point_zero
  then Some "invalid TelecomSite data" else None.

Definition hub_Validate (hub : Hub) : option string :=
  if String.eqb (hub_ID hub) "" || Point_eqb (hub_Location hub) Point_zero
  then Some "invalid Hub data" else None.

Definition ec_Validate (ec : EmergencyCenter) : option string :=
  if String.eqb (ec_ID ec) "" || Point_eqb (ec_Location ec) Point_zero
  then Some "invalid EmergencyCenter data" else None.

Definition CalculateDistance (a b : Point) : F :=
  f_sqrt (f_add (f_pow2 (f_sub (X a) (X b))) (f_pow2 (f_sub (Y a) (Y b)))).

(** One iteration of the loop of [FindNearestEmergencyCenter]; the state
    is [(nearestCenter, minDistance)]. *)
Definition nearest_step (site : TelecomSite)
    (st : EmergencyCenter * F) (center : EmergencyCenter) : EmergencyCenter * F :=
  let dist := CalculateDistance (site_Location site) (ec_Location center) in
  if f_ltb dist (snd st) then (center, dist) else st.

Definition FindNearestEmergencyCenter (site : TelecomSite)
    (centers : list EmergencyCenter) : result EmergencyCenter :=
  match site_Validate site with
  | Some err => Err err
  | None =>
      Ok (fst (fold_left (nearest_step site) centers (EmergencyCenter_zero, f_max)))
  end.

(** *** FindNearestHubs *)

Record hubDistance := { hub : Hub; distance : F }.

(** [if distances[j].distance < distances[i].distance { swap i j }];
    both indices are in range whenever the loops reach this line. *)
Definition swap_if_less (i j : nat) (ds : list hubDistance) : list hubDistance :=
  match ds !! i, ds !! j with
  | Some di, Some dj =>
      if f_ltb (distance dj) (distance di) then <[i := dj]> (<[j := di]> ds) else ds
  | _, _ => ds
  end.

(** [for j := ...; j < len(distances); j++], with [k] iterations left. *)
Fixpoint sort_inner (i j k : nat) (ds : list hubDistance) : list hubDistance :=
  match k with
  | O => ds
  | S k' => sort_inner i (S j) k' (swap_if_less i j ds)
  end.

(** [for i := ...; i < len(distances)-1; i++], with [k] iterations left. *)
Fixpoint sort_outer (i k : nat) (ds : list hubDistance) : list hubDistance :=
  match k with
  | O => ds
  | S k' => sort_outer (S i) k' (sort_inner i (S i) (length ds - S i) ds)
  end.

Definition sort_distances (ds : list hubDistance) : list hubDistance :=
  sort_outer 0 (length ds - 1) ds.

Definition hub_distances (point : Point) (hubs : list Hub) : list hubDistance :=
  map (fun h => {| hub := h; distance := CalculateDistance point (hub_Location h) |}) hubs.

Definition FindNearestHubs (point : Point) (hubs : list Hub) (N : Z) : result (list Hub) :=
  if N <=? 0 then Err "N must be greater than 0"
  else if Z.of_nat (length hubs) <? N then Err "not enough hubs to find the nearest N hubs"
  else Ok (map hub (take (Z.to_nat N) (sort_distances (hub_distances point hubs)))).

(** ** Graph *)

Record Graph := {
  Nodes : gmap string bool;
  Neighbors : gmap string (gmap string F)
}.

Definition NewGraph : Graph := {| Nodes := ∅; Neighbors := ∅ |}.

Definition AddNode (node : string) (g : Graph) : Graph :=
  match Nodes g !! node with
  | Some _ => g
  | None => {| Nodes := <[node := true]> (Nodes g);
               Neighbors := <[node := ∅]> (Neighbors g) |}
  end.

(** [g.Neighbors[from][to] = cost].  Go panics when [g.Neighbors[from]]
    is the nil map, that is when [from] has no entry in [Neighbors]. *)
Definition set_neighbor (from to : string) (cost : F) (g : Graph) : result Graph :=
  match Neighbors g !! from with
  | Some m => Ok {| Nodes := Nodes g;
                    Neighbors := <[from := <[to := cost]> m]> (Neighbors g) |}
  | None => Panic
  end.

Definition AddEdge (from to : string) (cost : F) (g : Graph) : result Graph :=
  let g1 := AddNode from g in
  let g2 := AddNode to g1 in
  g3 ← set_neighbor from to cost g2;
  set_neighbor to from cost g3.

(** A method call on the graph. *)
Inductive graph_op :=
| OpAddNode (node : string)
| OpAddEdge (from to : string) (cost : F).

Definition apply_op (g : Graph) (op : graph_op) : result Graph :=
  match op with
  | OpAddNode node => Ok (AddNode node g)
  | OpAddEdge from to cost => AddEdge from to cost g
  end.

(** The graph after the calls [ops], in order, on [NewGraph()]. *)
Definition run_ops (ops : list graph_op) : result Graph := foldR apply_op ops NewGraph.

(** ** BuildNetworkGraph *)

Definition connect_site (hubs : list Hub) (graph : Graph) (site : TelecomSite)
    : result Graph :=
  match FindNearestHubs (site_Location site) hubs 1 with
  | Ok nearestHubs =>
      foldR (fun g hub =>
               AddEdge (site_ID site) (hub_ID hub)
                 (CalculateDistance (site_Location site) (hub_Location hub)) g)
            nearestHubs graph
  | Err err => Err ("error finding nearest hub for " +:+ site_ID site +:+ ": " +:+ err)
  | Panic => Panic
  end.

(** [for i := 1; i < len(nearestHubs) && i <= 2; i++] visits the elements
    at positions 1 and 2: [take 2 (drop 1 nearestHubs)]. *)
Definition connect_hub (hubs : list Hub) (graph : Graph) (hub : Hub) : result Graph :=
  match FindNearestHubs (hub_Location hub) hubs 3 with
  | Ok nearestHubs =>
      foldR (fun g neighborHub =>
               AddEdge (hub_ID hub) (hub_ID neighborHub)
                 (CalculateDistance (hub_Location hub) (hub_Location neighborHub)) g)
            (take 2 (drop 1 nearestHubs)) graph
  | Err err => Err ("error finding nearest hubs for " +:+ hub_ID hub +:+ ": " +:+ err)
  | Panic => Panic
  end.

Definition connect_center (hubs : list Hub) (graph : Graph) (ec : EmergencyCenter)
    : result Graph :=
  match FindNearestHubs (ec_Location ec) hubs 5 with
  | Ok nearestHubs =>
      foldR (fun g hub =>
               AddEdge (ec_ID ec) (hub_ID hub)
                 (CalculateDistance (ec_Location ec) (hub_Location hub)) g)
            nearestHubs graph
  | Err err => Err ("error finding nearest hubs for " +:+ ec_ID ec +:+ ": " +:+ err)
  | Panic => Panic
  end.

Definition BuildNetworkGraph (telecomSites : list TelecomSite) (hubs : list Hub)
    (emergencyCenters : list EmergencyCenter) : result Graph :=
  g1 ← foldR (connect_site hubs) telecomSites NewGraph;
  g2 ← foldR (connect_hub hubs) hubs g1;
  foldR (connect_center hubs) emergencyCenters g2.

(** ** Dijkstra

    [Item.Index] is bookkeeping of the heap and is not modelled.  The
    priority queue is kept as the list of its items; [container/heap]
    is embedded by its contract ([heap_Pop] below). *)

Record Item := { Value : string; Priority : F }.

Record dstate := {
  distances : gmap string F;
  previous : gmap string string;
  priorityQueue : list Item;
  visited : gset string
}.

(** [distances[k]]: reading a missing key yields the zero value. *)
Definition dist_at (ds : gmap string F) (k : string) : F := default f_zero (ds !! k).

(** [graph.Neighbors[current]]: a missing key yields the nil map. *)
Definition neighbors_of (g : Graph) (current : string) : gmap string F :=
  default ∅ (Neighbors g !! current).

(** The body of [for neighbor, cost := range graph.Neighbors[current]]. *)
Definition relax (current : string) (st : dstate) (nc : string * F) : dstate :=
  let alt := f_add (dist_at (distances st) current) nc.2 in
  if f_ltb alt (dist_at (distances st) nc.1) then
    {| distances := <[nc.1 := alt]> (distances st);
       previous := <[nc.1 := current]> (previous st);
       priorityQueue := {| Value := nc.1; Priority := alt |} :: priorityQueue st;
       visited := visited st |}
  else st.

(** [MinPriorityQueue.Less], on the two items compared. *)
Definition Less (a b : Item) : bool := f_ltb (Priority a) (Priority b).

(** [heap.Pop] removes and returns an item of the queue that no other
    item is [Less] than; [rest] holds the items that remain. *)
Definition heap_Pop (pq : list Item) (it : Item) (rest : list Item) : Prop :=
  pq ≡ₚ it :: rest ∧ Forall (fun x => Less x it = false) pq.

(** One iteration of [for priorityQueue.Len() > 0].  The order in which
    [range] enumerates a map is not specified: [kvs] is any enumeration
    of the entries of [graph.Neighbors[current]]. *)
Inductive dijkstra_step (g : Graph) : dstate → dstate → Prop :=
| step_continue st it rest :
    heap_Pop (priorityQueue st) it rest →
    Value it ∈ visited st →
    dijkstra_step g st
      {| distances := distances st; previous := previous st;
         priorityQueue := rest; visited := visited st |}
| step_visit st it rest kvs :
    heap_Pop (priorityQueue st) it rest →
    Value it ∉ visited st →
    kvs ≡ₚ map_to_list (neighbors_of g (Value it)) →
    dijkstra_step g st
      (fold_left (relax (Value it)) kvs
         {| distances := distances st; previous := previous st;
            priorityQueue := rest; visited := {[Value it]} ∪ visited st |}).

Definition dijkstra_init (g : Graph) (start : string) : dstate :=
  {| distances := <[start := f_zero]> ((fun _ => f_inf) <$> Nodes g);
     previous := ∅;
     priorityQueue := [{| Value := start; Priority := f_zero |}];
     visited := ∅ |}.

(** [Dijkstra graph start] may return [r].  [graph] is a pointer: [None]
    is nil. *)
Inductive Dijkstra (start : string)
    : option Graph → result (gmap string F * gmap string string) → Prop :=
| Dijkstra_nil :
    Dijkstra start None (Err "graph is nil")
| Dijkstra_unknown_start g :
    Nodes g !! start = None →
    Dijkstra start (Some g)
      (Err ("start node " +:+ start +:+ " does not exist in the graph"))
| Dijkstra_done g st :
    is_Some (Nodes g !! start) →
    rtc (dijkstra_step g) (dijkstra_init g start) st →
    priorityQueue st = [] →
    Dijkstra start (Some g) (Ok (distances st, previous st)).

(** An executable schedule: [heap.Pop] returns the first minimal item,
    [range] enumerates in the order of [map_to_list]. *)
Fixpoint pop_first_min (pq : list Item) : option (Item * list Item) :=
  match pq with
  | [] => None
  | x :: pq' =>
      match pop_first_min pq' with
      | None => Some (x, [])
      | Some (m, rest) =>
          if Less m x then Some (m, x :: rest) else Some (x, pq')
      end
  end.

Definition dijkstra_iter (g : Graph) (st : dstate) : option dstate :=
  match pop_first_min (priorityQueue st) with
  | None => None
  | Some (it, rest) =>
      if decide (Value it ∈ visited st) then
        Some {| distances := distances st; previous := previous st;
                priorityQueue := rest; visited := visited st |}
      else
        Some (fold_left (relax (Value it)) (map_to_list (neighbors_of g (Value it)))
                {| distances := distances st; previous := previous st;
                   priorityQueue := rest; visited := {[Value it]} ∪ visited st |})
  end.

(** Runs the loop for at most [fuel] iterations; [None]: out of fuel. *)
Fixpoint dijkstra_loop (fuel : nat) (g : Graph) (st : dstate) : option dstate :=
  match dijkstra_iter g st with
  | None => Some st
  | Some st' =>
      match fuel with
      | O => None
      | S fuel' => dijkstra_loop fuel' g st'
      end
  end.

Definition Dijkstra_exec (fuel : nat) (graph : option Graph) (start : string)
    : option (result (gmap string F * gmap string string)) :=
  match graph with
  | None => Some (Err "graph is nil")
  | Some g =>
      match Nodes g !! start with
      | None => Some (Err ("start node " +:+ start +:+ " does not exist in the graph"))
      | Some _ =>
          st ← dijkstra_loop fuel g (dijkstra_init g start);
          Some (Ok (distances st, previous st))
      end
  end.

(** ** ReconstructPath

    The loop [for current != start] runs while it finds predecessors;
    [fuel] bounds the number of times its body is run and [None] means
    the bound was reached. *)
Fixpoint ReconstructPath_loop (fuel : nat) (previous : gmap string string)
    (start target current : string) (path : list string) : option (result (list string)) :=
  if decide (current = start) then Some (Ok (start :: path))
  else
    match fuel with
    | O => None
    | S fuel' =>
        let path := current :: path in
        match previous !! current with
        | None => Some (Err ("no path found from " +:+ start +:+ " to " +:+ target))
        | Some prev => ReconstructPath_loop fuel' previous start target prev path
        end
    end.

Definition ReconstructPath (fuel : nat) (previous : gmap string string)
    (start target : string) : option (result (list string)) :=
  ReconstructPath_loop fuel previous start target target [].

End Model.

Arguments Point F : clear implicits.
Arguments TelecomSite F : clear implicits.
Arguments Hub F : clear implicits.
Arguments EmergencyCenter F : clear implicits.
Arguments hubDistance F : clear implicits.
Arguments Graph F : clear implicits.
Arguments graph_op F : clear implicits.
Arguments Item F : clear implicits.
Arguments dstate F : clear implicits.

(** ** Laws of float64 comparison and addition

    The facts about [<], [==] and [+] that the proofs use.  Each holds
    for IEEE-754 binary64, NaN included: [x == x] fails exactly for NaN,
    and a comparison with NaN is false. *)

Section Laws.
Context {F : Type} `{Float64 F}.

(** [x] is not NaN. *)
Definition f_valid (x : F) : Prop := f_eqb x x = true.

(** [x <= y], for values that are not NaN: [y] is not smaller than [x]. *)
Definition f_le (x y : F) : Prop := f_ltb y x = false.

(** [x >= 0] and [x] is not NaN. *)
Definition f_nonneg (x : F) : Prop := f_valid x ∧ f_le f_zero x.

(** [x < +Inf]. *)
Definition f_finite (x : F) : Prop := f_ltb x f_inf = true.

Class Float64Laws : Prop := {
  f_ltb_irrefl : ∀ x, f_ltb x x = false;
  f_ltb_trans : ∀ x y z, f_ltb x y = true → f_ltb y z = true → f_ltb x z = true;
  f_ltb_cotrans : ∀ x y z,
    f_valid y → f_ltb x z = true → f_ltb x y = true ∨ f_ltb y z = true;
  f_zero_valid : f_valid f_zero;
  f_inf_valid : f_valid f_inf;
  f_inf_top : ∀ x, f_ltb f_inf x = false;
  f_add_nonneg : ∀ x c, f_nonneg x → f_nonneg c → f_nonneg (f_add x c);
  f_add_le : ∀ x c, f_nonneg c → f_le x (f_add x c)
}.

End Laws.
Arguments Float64Laws F {_}.

(** ** A carrier that satisfies the laws

    Extended integers with NaN and exact arithmetic; the square root is
    the integer square root. *)

Module Exact.

Inductive num := Fin (z : Z) | PInf | NInf | NaN.

Definition add (a b : num) : num :=
  match a, b with
  | NaN, _ | _, NaN => NaN
  | PInf, NInf | NInf, PInf => NaN
  | PInf, _ | _, PInf => PInf
  | NInf, _ | _, NInf => NInf
  | Fin x, Fin y => Fin (x + y)
  end.

Definition neg (a : num) : num :=
  match a with
  | Fin x => Fin (- x)
  | PInf => NInf
  | NInf => PInf
  | NaN => NaN
  end.

Definition sub (a b : num) : num := add a (neg b).

Definition pow2 (a : num) : num :=
  match a with
  | Fin x => Fin (x * x)
  | PInf | NInf => PInf
  | NaN => NaN
  end.

Definition sqrt (a : num) : num :=
  match a with
  | Fin x => if x <? 0 then NaN else Fin (Z.sqrt x)
  | PInf => PInf
  | NInf | NaN => NaN
  end.

Definition ltb (a b : num) : bool :=
  match a, b with
  | NaN, _ | _, NaN => false
  | Fin x, Fin y => x <? y
  | NInf, (Fin _ | PInf) => true
  | Fin _, PInf => true
  | _, _ => false
  end.

Definition eqb (a b : num) : bool :=
  match a, b with
  | Fin x, Fin y => x =? y
  | PInf, PInf | NInf, NInf => true
  | _, _ => false
  end.

#[global] Instance exact_float64 : Float64 num := {|
  f_add := add;
  f_sub := sub;
  f_pow2 := pow2;
  f_sqrt := sqrt;
  f_ltb := ltb;
  f_eqb := eqb;
  f_zero := Fin 0;
  f_inf := PInf;
  f_max := Fin (2 ^ 1024 - 2 ^ 971)
|}.

End Exact.

(** ** Distances to a site *)

Definition center_distance {F : Type} `{Float64 F}
    (site : TelecomSite F) (center : EmergencyCenter F) : F :=
  CalculateDistance (site_Location site) (ec_Location center).

(** ** The selection described by the specification

    "The N candidates with smallest distance, sorted ascending, ties
    broken by input order (stable)": the first [N] hubs of the input
    sorted by a stable insertion sort on the distance to [point]. *)

Section StableSelection.
Context {F : Type} `{Float64 F}.

Fixpoint insert_stable (point : Point F) (h : Hub F) (l : list (Hub F)) : list (Hub F) :=
  match l with
  | [] => [h]
  | y :: l' =>
      if f_ltb (CalculateDistance point (hub_Location y))
               (CalculateDistance point (hub_Location h))
      then y :: insert_stable point h l'
      else h :: l
  end.

Definition sort_stable (point : Point F) (hubs : list (Hub F)) : list (Hub F) :=
  foldr (insert_stable point) [] hubs.

Definition nearest_stable (point : Point F) (hubs : list (Hub F)) (N : Z) : list (Hub F) :=
  take (Z.to_nat N) (sort_stable point hubs).

(** The effect of one run of the inner loop on the list from position
    [i] on ([x] is [distances[i]], [suf] the elements after it): the
    element left at position [i] and the elements after it
    (lemma [sort_inner_select_min]). *)
Fixpoint select_min (x : hubDistance F) (suf : list (hubDistance F))
    : hubDistance F * list (hubDistance F) :=
  match suf with
  | [] => (x, [])
  | y :: suf' =>
      if f_ltb (distance y) (distance x)
      then let '(m, r) := select_min y suf' in (m, x :: r)
      else let '(m, r) := select_min x suf' in (m, y :: r)
  end.

(** [a] is listed before [b] only if [b] is not nearer than [a]. *)
Definition distance_le (a b : hubDistance F) : Prop := f_le (distance a) (distance b).

Definition hub_distance_le (point : Point F) (a b : Hub F) : Prop :=
  f_le (CalculateDistance point (hub_Location a)) (CalculateDistance point (hub_Location b)).

End StableSelection.

(** ** Graph invariants and reachability *)

Section GraphProperties.
Context {F : Type} `{Float64 F}.

(** [g.Neighbors[a][b]], when both entries exist. *)
Definition weight (g : Graph F) (a b : string) : option F :=
  Neighbors g !! a ≫= (.!! b).

(** (1) the adjacency mapping is symmetric. *)
Definition graph_symmetric (g : Graph F) : Prop :=
  ∀ a b w, weight g a b = Some w ↔ weight g b a = Some w.

(** (2) every neighbor key is a node, with an adjacency entry of its own. *)
Definition graph_closed (g : Graph F) : Prop :=
  ∀ a b w, weight g a b = Some w →
    is_Some (Nodes g !! b) ∧ is_Some (Neighbors g !! b).

(** [Nodes] and [Neighbors] have the same keys. *)
Definition graph_same_keys (g : Graph F) : Prop :=
  ∀ a, is_Some (Nodes g !! a) ↔ is_Some (Neighbors g !! a).

(** All edge weights are non-negative (and not NaN). *)
Definition graph_nonneg (g : Graph F) : Prop :=
  ∀ a b w, weight g a b = Some w → f_nonneg w.

(** The call adds no edge of negative or NaN weight. *)
Definition op_nonneg (op : graph_op F) : Prop :=
  match op with
  | OpAddNode _ => True
  | OpAddEdge _ _ cost => f_nonneg cost
  end.

(** [v] can be reached from [s] along edges of the graph. *)
Definition reachable (g : Graph F) (s v : string) : Prop :=
  rtc (fun a b => is_Some (weight g a b)) s v.

End GraphProperties.

(** ** The loop invariant of Dijkstra

    The invariant speaks of the state [st] of the outer loop and of
    three ghost values: the node [cur] visited last, the entries
    [pending] of [graph.Neighbors[cur]] that the inner loop has not
    relaxed yet, and the list [vs] of the visited nodes in the order in
    which they were visited. *)

Section DijkstraInvariant.
Context {F : Type} `{Float64 F}.

(** [b] is the recorded predecessor of [a]. *)
Definition pred_link (previous : gmap string string) (a b : string) : Prop :=
  previous !! a = Some b.

(** The node is the start node or has a predecessor entry. *)
Definition touched (start : string) (st : dstate F) (v : string) : Prop :=
  v = start ∨ is_Some (previous st !! v).

Record dijkstra_inv (g : Graph F) (start cur : string)
    (pending : list (string * F)) (vs : list string) (st : dstate F) : Prop := {
  inv_visited : ∀ x, x ∈ visited st ↔ x ∈ vs;
  inv_pending : ∀ w c, (w, c) ∈ pending → cur ∈ visited st ∧ weight g cur w = Some c;
  inv_dom : ∀ v, is_Some (Nodes g !! v) → is_Some (distances st !! v);
  inv_nonneg : ∀ v d, distances st !! v = Some d → f_nonneg d;
  inv_start : distances st !! start = Some f_zero;
  inv_prev_start : previous st !! start = None;
  inv_untouched : ∀ v, v ≠ start → previous st !! v = None →
    distances st !! v = (fun _ => f_inf) <$> (Nodes g !! v);
  inv_pq_touched : ∀ it, it ∈ priorityQueue st → touched start st (Value it);
  inv_visited_touched : ∀ v, v ∈ visited st → touched start st v;
  inv_frontier : ∀ v, v ∉ visited st → touched start st v →
    {| Value := v; Priority := dist_at (distances st) v |} ∈ priorityQueue st;
  inv_pq_ge : ∀ it, it ∈ priorityQueue st →
    f_nonneg (Priority it) ∧ f_le (dist_at (distances st) (Value it)) (Priority it);
  inv_settled : ∀ u it, u ∈ visited st → it ∈ priorityQueue st →
    f_le (dist_at (distances st) u) (Priority it);
  inv_mono : ∀ u, u ∈ visited st →
    f_le (dist_at (distances st) u) (dist_at (distances st) cur);
  inv_relaxed : ∀ u w c, u ∈ visited st → weight g u w = Some c →
    (u = cur ∧ (w, c) ∈ pending) ∨
    f_le (dist_at (distances st) w) (f_add (dist_at (distances st) u) c);
  inv_prev_order : ∀ w u, previous st !! w = Some u →
    ∃ i, vs !! i = Some u ∧ ∀ j, vs !! j = Some w → (i < j)%nat;
  inv_prev_finite : ∀ w u, previous st !! w = Some u →
    ∃ d, distances st !! w = Some d ∧ f_finite d;
  inv_reach : ∀ v, touched start st v → reachable g start v
}.

(** The quantity that decreases with every iteration of the outer loop:
    the length of the queue plus, for every node with an adjacency entry
    that is not visited yet, one more than the number of its neighbors. *)
Definition potential (g : Graph F) (V : gset string) : nat :=
  sum_list_with (fun km : string * gmap string F =>
                   if decide (km.1 ∈ V) then O else S (size km.2))
                (map_to_list (Neighbors g)).

Definition dijkstra_measure (g : Graph F) (st : dstate F) : nat :=
  (length (priorityQueue st) + potential g (visited st))%nat.

End DijkstraInvariant.

(** ** Walks, their cost, and a second part of the loop invariant *)

(** Rounded addition is monotone.  IEEE-754 rounding is monotone, and
    the law holds trivially when a NaN is involved. *)
Class Float64AddMono (F : Type) `{Float64 F} : Prop := {
  f_add_mono : ∀ x y c : F, f_le x y → f_le (f_add x c) (f_add y c)
}.

(** Every element of the path is the recorded predecessor of the next. *)
Fixpoint pred_chain (previous : gmap string string) (path : list string) : Prop :=
  match path with
  | a :: (b :: _) as rest => previous !! b = Some a ∧ pred_chain previous rest
  | _ => True
  end.

Section Walks.
Context {F : Type} `{Float64 F}.

(** The cost of the walk along [path], added up from [acc] edge by edge
    in the order in which Dijkstra adds edge costs; [None] when two
    consecutive nodes are not joined by an edge. *)
Fixpoint path_cost (g : Graph F) (acc : F) (path : list string) : option F :=
  match path with
  | a :: (b :: _) as rest => c ← weight g a b; path_cost g (f_add acc c) rest
  | _ => Some acc
  end.

(** A predecessor entry [u] of [v] was written while [u] was being
    visited, with the distance of [v] set to that of [u] plus the weight
    of the edge; the distance map has the keys of [Nodes]. *)
Record dijkstra_inv2 (g : Graph F) (st : dstate F) : Prop := {
  inv2_pred : ∀ v u, previous st !! v = Some u →
    u ∈ visited st ∧
    ∃ c, weight g u v = Some c ∧
         dist_at (distances st) v = f_add (dist_at (distances st) u) c;
  inv2_keys : ∀ v, is_Some (distances st !! v) ↔ is_Some (Nodes g !! v)
}.


End Walks.

(** ** MinPriorityQueue with its pointers

    The methods of [MinPriorityQueue] that [container/heap] calls, on a
    store of items: the queue is a slice of pointers, and [Swap], [Push]
    and [Pop] write the field [Index] of the items they move. *)

Section PQ.
Context {F : Type} `{Float64 F}.

(** The struct [Item] with its field [Index]. *)
Record ItemObj := { obj_item : Item F; Index : Z }.

(** [pq_store] holds the items by address, [pq_slice] the addresses in
    slice order.  An address without item stands for a nil pointer. *)
Record pq_mem := { pq_store : gmap nat ItemObj; pq_slice : list nat }.

(** [pq[i]] for an [int] index: out of range gives [None]. *)
Definition pq_at (m : pq_mem) (i : Z) : option nat :=
  if 0 <=? i then pq_slice m !! Z.to_nat i else None.

(** [p.Index = i]; [None] when [p] is nil. *)
Definition set_Index (p : nat) (i : Z) (store : gmap nat ItemObj)
    : option (gmap nat ItemObj) :=
  o ← store !! p; Some (<[p := {| obj_item := obj_item o; Index := i |}]> store).

Definition pq_Len (m : pq_mem) : Z := Z.of_nat (length (pq_slice m)).

Definition pq_Less (m : pq_mem) (i j : Z) : result bool :=
  match pq_at m i ≫= (pq_store m !!.), pq_at m j ≫= (pq_store m !!.) with
  | Some a, Some b => Ok (Less (obj_item a) (obj_item b))
  | _, _ => Panic
  end.

(** [pq[i], pq[j] = pq[j], pq[i]; pq[i].Index = i; pq[j].Index = j] *)
Definition pq_Swap (i j : Z) (m : pq_mem) : result pq_mem :=
  match pq_at m i, pq_at m j with
  | Some pi, Some pj =>
      let slice := <[Z.to_nat j := pi]> (<[Z.to_nat i := pj]> (pq_slice m)) in
      match set_Index pj i (pq_store m) ≫= set_Index pi j with
      | Some store => Ok {| pq_store := store; pq_slice := slice |}
      | None => Panic
      end
  | _, _ => Panic
  end.

Definition pq_Push (x : nat) (m : pq_mem) : result pq_mem :=
  match set_Index x (pq_Len m) (pq_store m) with
  | Some store => Ok {| pq_store := store; pq_slice := pq_slice m ++ [x] |}
  | None => Panic
  end.

(** [old[n-1] = nil] writes a slot that the returned slice [old[0 : n-1]]
    does not show. *)
Definition pq_Pop (m : pq_mem) : result (nat * pq_mem) :=
  let n := pq_Len m in
  match pq_at m (n - 1) with
  | Some item =>
      match set_Index item (-1) (pq_store m) with
      | Some store =>
          Ok (item, {| pq_store := store; pq_slice := take (Z.to_nat (n - 1)) (pq_slice m) |})
      | None => Panic
      end
  | None => Panic
  end.

(** Every item of the queue records its own position. *)
Definition pq_indexed (m : pq_mem) : Prop :=
  ∀ (i : nat) p, pq_slice m !! i = Some p →
    ∃ o, pq_store m !! p = Some o ∧ Index o = Z.of_nat i.

End PQ.

Arguments ItemObj F : clear implicits.
Arguments pq_mem F : clear implicits.

(** ** BuildNetworkGraph: the shape shared by its three loops *)

Section BuildShape.
Context {F : Type} `{Float64 F}.

(** An entry of one of the three input lists: its [ID] and [Location]. *)
Definition site_entity (site : TelecomSite F) : string * Point F :=
  (site_ID site, site_Location site).
Definition hub_entity (hub : Hub F) : string * Point F :=
  (hub_ID hub, hub_Location hub).
Definition ec_entity (ec : EmergencyCenter F) : string * Point F :=
  (ec_ID ec, ec_Location ec).

Definition entities (telecomSites : list (TelecomSite F)) (hubs : list (Hub F))
    (emergencyCenters : list (EmergencyCenter F)) : list (string * Point F) :=
  map site_entity telecomSites ++ map hub_entity hubs ++ map ec_entity emergencyCenters.

(** The body of each of the three loops of [BuildNetworkGraph]: the
    loops differ in the text [msg] of the error, in the count [N] and in
    the part [sel] of the nearest hubs that gets an edge. *)
Definition connect_entity (msg : string) (N : Z) (sel : list (Hub F) → list (Hub F))
    (hubs : list (Hub F)) (graph : Graph F) (e : string * Point F) : result (Graph F) :=
  match FindNearestHubs e.2 hubs N with
  | Ok nearestHubs =>
      foldR (fun g hub =>
               AddEdge e.1 (hub_ID hub) (CalculateDistance e.2 (hub_Location hub)) g)
            (sel nearestHubs) graph
  | Err err => Err (msg +:+ e.1 +:+ ": " +:+ err)
  | Panic => Panic
  end.

(** What holds of the graph between two calls of [AddEdge] in
    [BuildNetworkGraph]. *)
Record build_inv (ents : list (string * Point F)) (hubs : list (Hub F))
    (g : Graph F) : Prop := {
  b_keys : graph_same_keys g;
  b_sym : graph_symmetric g;
  b_closed : graph_closed g;
  b_nodes : ∀ v, is_Some (Nodes g !! v) → v ∈ ents.*1 ∨ v ∈ map hub_ID hubs;
  b_edges : ∀ x y w, weight g x y = Some w →
    ∃ p h, h ∈ hubs ∧ w = CalculateDistance p (hub_Location h) ∧
           (((x, p) ∈ ents ∧ y = hub_ID h) ∨ ((y, p) ∈ ents ∧ x = hub_ID h))
}.

(** No node and no edge of [g] is missing from [g']. *)
Definition graph_le (g g' : Graph F) : Prop :=
  (∀ v, is_Some (Nodes g !! v) → is_Some (Nodes g' !! v)) ∧
  (∀ x y, is_Some (weight g x y) → is_Some (weight g' x y)).

End BuildShape.

(** ** Concrete inputs *)

Module Run.

Definition pt (x y : float) : Point float := {| X := x; Y := y |}.
Definition TS1 : TelecomSite float := {| site_ID := "TS1"; site_Location := pt 10 20 |}.

(** Two hubs at the same coordinate and a third one. *)
Definition H1 : Hub float := {| hub_ID := "H1"; hub_Location := pt 1 1 |}.
Definition H2 : Hub float := {| hub_ID := "H2"; hub_Location := pt 1 1 |}.
Definition H3 : Hub float := {| hub_ID := "H3"; hub_Location := pt 4 5 |}.

(** Two hubs at distance 2 from the origin, then one at distance 1. *)
Definition A : Hub float := {| hub_ID := "A"; hub_Location := pt 2 0 |}.
Definition B : Hub float := {| hub_ID := "B"; hub_Location := pt 0 2 |}.
Definition C : Hub float := {| hub_ID := "C"; hub_Location := pt 1 0 |}.

(** The sample data of [InitializeSampleData]. *)
Definition telecomSites : list (TelecomSite float) :=
  [ TS1;
    {| site_ID := "TS2"; site_Location := pt 25 35 |};
    {| site_ID := "TS3"; site_Location := pt 40 50 |} ].

Definition hubs : list (Hub float) :=
  [ {| hub_ID := "H1"; hub_Location := pt 12 22 |};
    {| hub_ID := "H2"; hub_Location := pt 28 38 |};
    {| hub_ID := "H3"; hub_Location := pt 45 55 |};
    {| hub_ID := "H4"; hub_Location := pt 50 60 |};
    {| hub_ID := "H5"; hub_Location := pt 5 15 |} ].

Definition emergencyCenters : list (EmergencyCenter float) :=
  [ {| ec_ID := "EC1"; ec_Location := pt 15 25 |};
    {| ec_ID := "EC2"; ec_Location := pt 30 40 |};
    {| ec_ID := "EC3"; ec_Location := pt 35 45 |} ].

Definition InitializeSampleData :
    list (TelecomSite float) * list (Hub float) * list (EmergencyCenter float) :=
  (telecomSites, hubs, emergencyCenters).

(** A center so far away that the square of its distance overflows. *)
Definition EC_far : EmergencyCenter float :=
  {| ec_ID := "EC_far"; ec_Location := pt 0x1p+600 20 |}.

End Run.

Module RunExact.

Definition pt (x y : Z) : Point Exact.num := {| X := Exact.Fin x; Y := Exact.Fin y |}.

(** Hubs at distances 5, 5 and 0 from the point [(3, 4)]. *)
Definition P : Hub Exact.num := {| hub_ID := "P"; hub_Location := pt 0 0 |}.
Definition Q : Hub Exact.num := {| hub_ID := "Q"; hub_Location := pt 6 8 |}.
Definition R : Hub Exact.num := {| hub_ID := "R"; hub_Location := pt 3 4 |}.

(** A graph with a zero-weight edge and an isolated node. *)
Definition ops : list (graph_op Exact.num) :=
  [OpAddEdge "a" "b" (Exact.Fin 1); OpAddEdge "b" "c" (Exact.Fin 2);
   OpAddEdge "a" "c" (Exact.Fin 5); OpAddEdge "c" "d" (Exact.Fin 0);
   OpAddNode "z"].

Definition g : Graph Exact.num :=
  match run_ops ops with
  | Ok g => g
  | _ => NewGraph
  end.

(** The result of Dijkstra from "a" on [g]. *)
Definition distances : gmap string Exact.num :=
  list_to_map [("a", Exact.Fin 0); ("b", Exact.Fin 1); ("c", Exact.Fin 3);
               ("d", Exact.Fin 3); ("z", Exact.PInf)].

Definition previous : gmap string string :=
  list_to_map [("b", "a"); ("c", "b"); ("d", "c")].

End RunExact.

(** The sample network of [InitializeSampleData] on the exact carrier,
    and a few small inputs. *)
Module Sample.

Definition pt (x y : Z) : Point Exact.num := {| X := Exact.Fin x; Y := Exact.Fin y |}.

Definition TS1 : TelecomSite Exact.num := {| site_ID := "TS1"; site_Location := pt 10 20 |}.

Definition telecomSites : list (TelecomSite Exact.num) :=
  [ TS1;
    {| site_ID := "TS2"; site_Location := pt 25 35 |};
    {| site_ID := "TS3"; site_Location := pt 40 50 |} ].

Definition H1 : Hub Exact.num := {| hub_ID := "H1"; hub_Location := pt 12 22 |}.

Definition hubs : list (Hub Exact.num) :=
  [ H1;
    {| hub_ID := "H2"; hub_Location := pt 28 38 |};
    {| hub_ID := "H3"; hub_Location := pt 45 55 |};
    {| hub_ID := "H4"; hub_Location := pt 50 60 |};
    {| hub_ID := "H5"; hub_Location := pt 5 15 |} ].

Definition EC1 : EmergencyCenter Exact.num := {| ec_ID := "EC1"; ec_Location := pt 15 25 |}.

Definition emergencyCenters : list (EmergencyCenter Exact.num) :=
  [ EC1;
    {| ec_ID := "EC2"; ec_Location := pt 30 40 |};
    {| ec_ID := "EC3"; ec_Location := pt 35 45 |} ].

(** The graph that [BuildNetworkGraph] returns for the sample data. *)
Definition graph : Graph Exact.num :=
  match BuildNetworkGraph telecomSites hubs emergencyCenters with
  | Ok g => g
  | _ => NewGraph
  end.

(** A site without identifier. *)
Definition nameless : TelecomSite Exact.num := {| site_ID := ""; site_Location := pt 10 20 |}.

(** A graph value in which the node "a" has no adjacency map. *)
Definition no_adjacency : Graph Exact.num :=
  {| Nodes := {["a" := true]}; Neighbors := ∅ |}.

(** A store with three items, and the queue that holds the first two. *)
Definition store : gmap nat (ItemObj Exact.num) :=
  {[ 0%nat := {| obj_item := {| Value := "a"; Priority := Exact.Fin 0 |}; Index := 0 |};
     1%nat := {| obj_item := {| Value := "b"; Priority := Exact.Fin 1 |}; Index := 1 |};
     2%nat := {| obj_item := {| Value := "c"; Priority := Exact.Fin 3 |}; Index := -1 |} ]}.

Definition queue : pq_mem Exact.num := {| pq_store := store; pq_slice := [0%nat; 1%nat] |}.

End Sample.

(** * Properties *)

(** ** FindNearestEmergencyCenter *)

(** C1, on the empty list: for a valid site and the empty center list,
    [FindNearestEmergencyCenter] returns the zero-valued center with a
    nil error instead of failing. *)
Lemma C1_empty_list_returns_zero_center :
  site_Validate Run.TS1 = None ∧
  FindNearestEmergencyCenter Run.TS1 [] = Ok EmergencyCenter_zero.
Proof. split; vm_compute; reflexivity. Qed.

(** The empty list gives the zero-valued center for every valid site. *)
Lemma FindNearestEmergencyCenter_empty {F : Type} `{Float64 F} (site : TelecomSite F) :
  site_Validate site = None →
  FindNearestEmergencyCenter site [] = Ok EmergencyCenter_zero.
Proof. intros Hsite. unfold FindNearestEmergencyCenter. by rewrite Hsite. Qed.

(** The same zero-valued result comes back for a non-empty list when no
    distance is below [math.MaxFloat64]: here the distance is [+Inf]. *)
Example FindNearestEmergencyCenter_far_center :
  center_distance Run.TS1 Run.EC_far = infinity ∧
  FindNearestEmergencyCenter Run.TS1 [Run.EC_far] = Ok EmergencyCenter_zero.
Proof. split; vm_compute; reflexivity. Qed.

(** What the loop does compute.  From the state [(c0, d0)] the loop over
    [centers] either keeps the state, when no distance is below [d0], or
    ends on the first center of least distance. *)
Section NearestCenter.
Context {F : Type} `{Float64 F} `{!Float64Laws F}.

Lemma nearest_step_eq (site : TelecomSite F) c0 d0 x :
  nearest_step site (c0, d0) x
  = if f_ltb (center_distance site x) d0 then (x, center_distance site x) else (c0, d0).
Proof. reflexivity. Qed.

Lemma nearest_fold (site : TelecomSite F) (centers : list (EmergencyCenter F)) :
  Forall (fun c => f_valid (center_distance site c)) centers →
  ∀ c0 d0,
    (fold_left (nearest_step site) centers (c0, d0) = (c0, d0) ∧
     Forall (fun x => f_le d0 (center_distance site x)) centers) ∨
    ∃ l1 c l2,
      centers = l1 ++ c :: l2 ∧
      fold_left (nearest_step site) centers (c0, d0) = (c, center_distance site c) ∧
      f_ltb (center_distance site c) d0 = true ∧
      Forall (fun x => f_ltb (center_distance site c) (center_distance site x) = true) l1 ∧
      Forall (fun x => f_le (center_distance site c) (center_distance site x)) l2.
Proof.
  induction centers as [|x centers IH]; intros Hvalid c0 d0; cbn [fold_left].
  - left. split; [done|constructor].
  - apply Forall_cons in Hvalid as [Hx Hvalid]. rewrite nearest_step_eq.
    destruct (f_ltb (center_distance site x) d0) eqn:Hlt.
    + right. destruct (IH Hvalid x (center_distance site x))
        as [[Heq Hall]|(l1 & c & l2 & -> & Heq & Hc & Hl1 & Hl2)].
      * exists [], x, centers. rewrite Heq. repeat split; [done|constructor|done].
      * exists (x :: l1), c, l2. rewrite Heq. repeat split; [|by constructor|done].
        by eapply f_ltb_trans.
    + destruct (IH Hvalid c0 d0)
        as [[Heq Hall]|(l1 & c & l2 & -> & Heq & Hc & Hl1 & Hl2)].
      * left. split; [done|]. by constructor.
      * right. exists (x :: l1), c, l2. rewrite Heq. repeat split; [done| |done].
        constructor; [|done].
        destruct (f_ltb_cotrans _ (center_distance site x) _ Hx Hc); [done|congruence].
Qed.

(** For a valid site, distances that are not NaN and a list with a
    center nearer than [math.MaxFloat64], the function returns the first
    center of the list among those of least distance. *)
Lemma FindNearestEmergencyCenter_nearest (site : TelecomSite F)
    (centers : list (EmergencyCenter F)) :
  site_Validate site = None →
  Forall (fun c => f_valid (center_distance site c)) centers →
  Exists (fun c => f_ltb (center_distance site c) f_max = true) centers →
  ∃ l1 c l2,
    centers = l1 ++ c :: l2 ∧
    FindNearestEmergencyCenter site centers = Ok c ∧
    Forall (fun x => f_ltb (center_distance site c) (center_distance site x) = true) l1 ∧
    Forall (fun x => f_le (center_distance site c) (center_distance site x)) l2.
Proof.
  intros Hsite Hvalid Hnear. unfold FindNearestEmergencyCenter. rewrite Hsite.
  destruct (nearest_fold site centers Hvalid EmergencyCenter_zero f_max)
    as [[_ Hall]|(l1 & c & l2 & -> & Heq & _ & Hl1 & Hl2)].
  - exfalso. apply Exists_exists in Hnear as (c & Hc & Hlt).
    rewrite Forall_forall in Hall. specialize (Hall c Hc).
    unfold f_le in Hall. congruence.
  - exists l1, c, l2. by rewrite Heq.
Qed.

(** An invalid site is rejected before the search. *)
Lemma FindNearestEmergencyCenter_invalid_site (site : TelecomSite F)
    (centers : list (EmergencyCenter F)) err :
  site_Validate site = Some err →
  FindNearestEmergencyCenter site centers = Err err.
Proof. intros Hsite. unfold FindNearestEmergencyCenter. by rewrite Hsite. Qed.

End NearestCenter.

(** ** The exact carrier satisfies the laws *)

Lemma Exact_laws : Float64Laws Exact.num.
Proof.
  split; unfold f_nonneg, f_valid, f_le; cbn.
  - intros []; cbn; auto using Z.ltb_irrefl.
  - intros [] [] []; cbn; try discriminate; auto; rewrite !Z.ltb_lt; lia.
  - intros [] [] []; cbn; try discriminate; auto; rewrite !Z.ltb_lt; lia.
  - reflexivity.
  - reflexivity.
  - intros []; reflexivity.
  - intros [] []; cbn; intros [? ?] [? ?]; try discriminate; split; auto;
      rewrite ?Z.eqb_eq, ?Z.ltb_ge in *; lia.
  - intros [] []; cbn; intros [? ?]; try discriminate; auto;
      rewrite ?Z.eqb_eq, ?Z.ltb_ge in *; lia.
Qed.

(** ** FindNearestHubs: failure conditions *)

(** C4: [FindNearestHubs] fails with "N must be greater than 0" when
    [N <= 0], fails with "not enough hubs to find the nearest N hubs"
    when the list has fewer than [N] hubs, and returns a list of [N]
    hubs in every other case; a failure carries no hub list. *)
Theorem C4_FindNearestHubs_failures {F : Type} `{Float64 F}
    (point : Point F) (hubs : list (Hub F)) (N : Z) :
  (N ≤ 0 → FindNearestHubs point hubs N = Err "N must be greater than 0") ∧
  (0 < N → Z.of_nat (length hubs) < N →
     FindNearestHubs point hubs N = Err "not enough hubs to find the nearest N hubs") ∧
  (0 < N ≤ Z.of_nat (length hubs) → ∃ nearestHubs,
     FindNearestHubs point hubs N = Ok nearestHubs ∧
     length nearestHubs = Z.to_nat N).
Proof.
  unfold FindNearestHubs. repeat split.
  - intros HN. apply Z.leb_le in HN. by rewrite HN.
  - intros HN Hlen. apply Z.leb_gt in HN. apply Z.ltb_lt in Hlen.
    by rewrite HN, Hlen.
  - intros [HN Hlen]. apply Z.leb_gt in HN. apply Z.ltb_ge in Hlen as Hlen'.
    rewrite HN, Hlen'. eexists. split; [reflexivity|].
    rewrite length_map, length_take.
    unfold sort_distances, hub_distances.
    assert (Hso : ∀ k i ds, length (sort_outer i k ds) = length ds).
    { assert (Hsi : ∀ k i j ds, length (sort_inner i j k ds) = length ds).
      { induction k as [|k IH]; intros i j ds; cbn; [done|].
        rewrite IH. unfold swap_if_less.
        repeat case_match; rewrite ?length_insert; done. }
      induction k as [|k IH]; intros i ds; cbn; [done|].
      by rewrite IH, Hsi. }
    rewrite Hso, length_map. lia.
Qed.

(** The three cases of C4 on the hubs A, B, C. *)
Lemma C4_witness :
  FindNearestHubs (Run.pt 0 0) [Run.A; Run.B; Run.C] 0 = Err "N must be greater than 0" ∧
  FindNearestHubs (Run.pt 0 0) [Run.A; Run.B; Run.C] 4
    = Err "not enough hubs to find the nearest N hubs" ∧
  ∃ nearestHubs, FindNearestHubs (Run.pt 0 0) [Run.A; Run.B; Run.C] 2 = Ok nearestHubs ∧
    length nearestHubs = 2%nat.
Proof.
  split; [|split].
  - apply (C4_FindNearestHubs_failures (Run.pt 0 0) [Run.A; Run.B; Run.C] 0). lia.
  - apply (C4_FindNearestHubs_failures (Run.pt 0 0) [Run.A; Run.B; Run.C] 4);
      cbn; lia.
  - apply (C4_FindNearestHubs_failures (Run.pt 0 0) [Run.A; Run.B; Run.C] 2).
    cbn; lia.
Defined.

(** ** BuildNetworkGraph: hubs at the same coordinate *)

(** C2, on hubs at one coordinate: with H1 and H2 at the same place, the sorted
    list for H2 is [H1; H2; H3]; skipping position 0 drops H1 and
    connects H2 to itself: the built graph has the edge H2 -- H2. *)
Lemma C2_self_loop_at_duplicate_coordinate :
  FindNearestHubs (hub_Location Run.H2) [Run.H1; Run.H2; Run.H3] 3
    = Ok [Run.H1; Run.H2; Run.H3] ∧
  ∃ g, BuildNetworkGraph [] [Run.H1; Run.H2; Run.H3] [] = Ok g ∧
       weight g "H2" "H2" = Some 0%float.
Proof.
  split; [vm_compute; reflexivity|].
  eexists. split; [vm_compute; reflexivity|]. vm_compute. reflexivity.
Qed.

(** ** ReconstructPath: source equal to target *)

(** C8: [ReconstructPath previous t t] returns [[t]] for every
    predecessor map, whatever the bound on the loop. *)
Theorem C8_ReconstructPath_same_node (fuel : nat) (previous : gmap string string)
    (t : string) :
  ReconstructPath fuel previous t t = Some (Ok [t]).
Proof.
  unfold ReconstructPath. destruct fuel; cbn; by rewrite decide_True.
Qed.

(** ** Graph: AddNode and AddEdge *)

Section GraphLemmas.
Context {F : Type} `{Float64 F}.
Implicit Types g : Graph F.

Lemma weight_AddNode g node a b :
  graph_same_keys g → weight (AddNode node g) a b = weight g a b.
Proof.
  intros Hk. unfold AddNode, weight.
  destruct (Nodes g !! node) eqn:Hn; [done|]. cbn.
  destruct (decide (a = node)) as [->|Hne].
  - rewrite lookup_insert_eq. cbn. rewrite lookup_empty.
    destruct (Neighbors g !! node) eqn:Hnb; [|done].
    assert (is_Some (Nodes g !! node)) as [? ?] by (apply Hk; eauto).
    congruence.
  - by rewrite lookup_insert_ne.
Qed.

Lemma same_keys_AddNode g node : graph_same_keys g → graph_same_keys (AddNode node g).
Proof.
  intros Hk a. unfold AddNode.
  destruct (Nodes g !! node) eqn:Hn; [apply Hk|]. cbn.
  destruct (decide (a = node)) as [->|Hne].
  - rewrite !lookup_insert_eq. split; eauto.
  - rewrite !lookup_insert_ne by done. apply Hk.
Qed.

Lemma Nodes_AddNode g node a :
  is_Some (Nodes (AddNode node g) !! a) ↔ a = node ∨ is_Some (Nodes g !! a).
Proof.
  unfold AddNode. destruct (Nodes g !! node) eqn:Hn; cbn.
  - split; [auto|]. intros [->|?]; eauto.
  - destruct (decide (a = node)) as [->|Hne].
    + rewrite lookup_insert_eq. split; eauto.
    + rewrite lookup_insert_ne by done. tauto.
Qed.

Lemma set_neighbor_Ok g from to cost :
  is_Some (Neighbors g !! from) →
  ∃ g', set_neighbor from to cost g = Ok g' ∧
        Nodes g' = Nodes g ∧
        (∀ a, is_Some (Neighbors g' !! a) ↔ is_Some (Neighbors g !! a)) ∧
        ∀ a b, weight g' a b =
               if decide (a = from ∧ b = to) then Some cost else weight g a b.
Proof.
  intros [m Hm]. unfold set_neighbor. rewrite Hm. eexists.
  split; [done|]. split; [done|]. split.
  - intros a. cbn. destruct (decide (a = from)) as [->|Hne].
    + rewrite lookup_insert_eq, Hm. split; eauto.
    + by rewrite lookup_insert_ne.
  - intros a b. unfold weight. cbn.
    destruct (decide (a = from)) as [->|Hne].
    + rewrite lookup_insert_eq, Hm. cbn.
      destruct (decide (b = to)) as [->|Hne'].
      * rewrite lookup_insert_eq. by rewrite decide_True.
      * rewrite lookup_insert_ne by done. rewrite decide_False; [done|tauto].
    + rewrite lookup_insert_ne by done. rewrite decide_False; [done|tauto].
Qed.

(** On a graph whose two maps have the same keys [AddEdge] does not
    panic, and sets the weight in both directions. *)
Lemma AddEdge_Ok g from to cost :
  graph_same_keys g →
  ∃ g', AddEdge from to cost g = Ok g' ∧
        graph_same_keys g' ∧
        (∀ a, is_Some (Nodes g' !! a) ↔ a = from ∨ a = to ∨ is_Some (Nodes g !! a)) ∧
        ∀ a b, weight g' a b =
               if decide ((a = from ∧ b = to) ∨ (a = to ∧ b = from))
               then Some cost else weight g a b.
Proof.
  intros Hk. unfold AddEdge.
  pose proof (same_keys_AddNode _ from Hk) as Hk1.
  pose proof (same_keys_AddNode _ to Hk1) as Hk2.
  assert (Hfrom : is_Some (Nodes (AddNode to (AddNode from g)) !! from)).
  { rewrite !Nodes_AddNode. auto. }
  assert (Hto : is_Some (Nodes (AddNode to (AddNode from g)) !! to)).
  { rewrite !Nodes_AddNode. auto. }
  destruct (set_neighbor_Ok (AddNode to (AddNode from g)) from to cost)
    as (g3 & -> & Hn3 & Hd3 & Hw3); [by apply Hk2|].
  cbn. destruct (set_neighbor_Ok g3 to from cost) as (g4 & -> & Hn4 & Hd4 & Hw4).
  { apply Hd3. by apply Hk2. }
  eexists. split; [done|]. split; [|split].
  - intros a. rewrite Hn4, Hn3, Hd4, Hd3. apply Hk2.
  - intros a. rewrite Hn4, Hn3, !Nodes_AddNode. tauto.
  - intros a b. rewrite Hw4, Hw3, !weight_AddNode by done.
    repeat case_decide; try done; exfalso; intuition congruence.
Qed.

Lemma AddEdge_preserves g from to cost g' :
  graph_same_keys g → graph_symmetric g → graph_closed g →
  AddEdge from to cost g = Ok g' →
  graph_same_keys g' ∧ graph_symmetric g' ∧ graph_closed g'.
Proof.
  intros Hk Hs Hc Hg'.
  destruct (AddEdge_Ok g from to cost Hk) as (g'' & Heq & Hk' & Hn' & Hw').
  rewrite Hg' in Heq. injection Heq as <-.
  split; [done|]. split.
  - intros a b w. rewrite !Hw'.
    destruct (decide ((a = from ∧ b = to) ∨ (a = to ∧ b = from))) as [H1|H1],
             (decide ((b = from ∧ a = to) ∨ (b = to ∧ a = from))) as [H2|H2];
      [done|tauto|tauto|apply Hs].
  - intros a b w. rewrite Hw'. intros Hab.
    assert (is_Some (Nodes g' !! b)) as Hb.
    { apply Hn'. case_decide as Hab'; [tauto|].
      right; right. by eapply Hc. }
    split; [done|]. by apply Hk'.
Qed.

Lemma AddNode_preserves g node :
  graph_same_keys g → graph_symmetric g → graph_closed g →
  graph_same_keys (AddNode node g) ∧ graph_symmetric (AddNode node g) ∧
  graph_closed (AddNode node g).
Proof.
  intros Hk Hs Hc. pose proof (same_keys_AddNode _ node Hk) as Hk'.
  split; [done|]. split.
  - intros a b w. rewrite !weight_AddNode by done. apply Hs.
  - intros a b w. rewrite weight_AddNode by done. intros Hab.
    assert (is_Some (Nodes (AddNode node g) !! b)) as Hb.
    { apply Nodes_AddNode. right. by eapply Hc. }
    split; [done|]. by apply Hk'.
Qed.

Lemma foldR_ops_invariant (ops : list (graph_op F)) g :
  graph_same_keys g → graph_symmetric g → graph_closed g →
  ∃ g', foldR apply_op ops g = Ok g' ∧
        graph_same_keys g' ∧ graph_symmetric g' ∧ graph_closed g'.
Proof.
  revert g. induction ops as [|op ops IH]; intros g Hk Hs Hc; cbn.
  - eauto.
  - destruct op as [node|from to cost]; cbn.
    + destruct (AddNode_preserves g node) as (? & ? & ?); auto.
    + destruct (AddEdge_Ok g from to cost Hk) as (g1 & Heq & _).
      rewrite Heq. cbn.
      destruct (AddEdge_preserves g from to cost g1) as (? & ? & ?); auto.
Qed.

Lemma NewGraph_invariant :
  graph_same_keys (NewGraph (F:=F)) ∧ graph_symmetric (NewGraph (F:=F)) ∧
  graph_closed (NewGraph (F:=F)).
Proof.
  split; [|split].
  - intros a. cbn. rewrite !lookup_empty. done.
  - intros a b w. unfold weight. cbn. rewrite !lookup_empty. done.
  - intros a b w. unfold weight. cbn. rewrite lookup_empty. done.
Qed.

Lemma run_ops_invariant (ops : list (graph_op F)) g :
  run_ops ops = Ok g → graph_same_keys g ∧ graph_symmetric g ∧ graph_closed g.
Proof.
  destruct NewGraph_invariant as (Hk0 & Hs0 & Hc0).
  destruct (foldR_ops_invariant ops NewGraph Hk0 Hs0 Hc0) as (g' & Hg' & Hinv).
  unfold run_ops. rewrite Hg'. by intros [= <-].
Qed.

Lemma foldR_ops_nonneg (ops : list (graph_op F)) : ∀ g g',
  graph_same_keys g → graph_nonneg g → Forall op_nonneg ops →
  foldR apply_op ops g = Ok g' → graph_nonneg g'.
Proof.
  induction ops as [|op ops IH]; intros g g' Hk Hnn Hops; cbn.
  - by intros [= <-].
  - apply Forall_cons in Hops as [Hop Hops].
    destruct op as [node|from to cost]; cbn.
    + apply IH; [by apply same_keys_AddNode| |done].
      intros a b w. rewrite weight_AddNode by done. apply Hnn.
    + destruct (AddEdge_Ok g from to cost Hk) as (g1 & -> & Hk1 & _ & Hw1). cbn.
      apply IH; [done| |done].
      intros a b w. rewrite Hw1. case_decide; [by intros [= <-]|apply Hnn].
Qed.

Lemma run_ops_nonneg (ops : list (graph_op F)) g :
  Forall op_nonneg ops → run_ops ops = Ok g → graph_nonneg g.
Proof.
  destruct NewGraph_invariant as (Hk0 & _ & _).
  apply foldR_ops_nonneg; [done|].
  intros a b w. unfold weight. cbn. by rewrite lookup_empty.
Qed.

(** C5: every sequence of [AddNode] and [AddEdge] calls on the empty
    graph runs without panic and yields a graph whose adjacency mapping
    is symmetric and whose neighbor keys are all nodes; a further
    [AddEdge a b w] on it yields a graph with [Neighbors[a][b] = w] and
    [Neighbors[b][a] = w]. *)
Theorem C5_graph_invariants (ops : list (graph_op F)) :
  ∃ g, run_ops ops = Ok g ∧
       graph_symmetric g ∧ graph_closed g ∧
       ∀ a b w, ∃ g', AddEdge a b w g = Ok g' ∧
                      weight g' a b = Some w ∧ weight g' b a = Some w.
Proof.
  destruct NewGraph_invariant as (Hk0 & Hs0 & Hc0).
  destruct (foldR_ops_invariant ops NewGraph Hk0 Hs0 Hc0) as (g & Hg & Hk & Hs & Hc).
  exists g. split; [done|]. split; [done|]. split; [done|].
  intros a b w. destruct (AddEdge_Ok g a b w Hk) as (g' & Hg' & _ & _ & Hw).
  exists g'. split; [done|]. rewrite !Hw. split; apply decide_True; auto.
Qed.

End GraphLemmas.

(** ** FindNearestHubs: the sort *)

Section SortLemmas.
Context {F : Type} `{Float64 F} `{!Float64Laws F}.
Implicit Types ds pre mid suf : list (hubDistance F).

Lemma swap_if_less_spec pre x mid y suf :
  swap_if_less (length pre) (length pre + S (length mid)) (pre ++ x :: mid ++ y :: suf)
  = if f_ltb (distance y) (distance x)
    then pre ++ y :: mid ++ x :: suf
    else pre ++ x :: mid ++ y :: suf.
Proof.
  unfold swap_if_less.
  rewrite list_lookup_middle by done.
  replace (length pre + S (length mid))%nat
    with (length (pre ++ x :: mid) + 0)%nat by (rewrite length_app; cbn; lia).
  replace (pre ++ x :: mid ++ y :: suf) with ((pre ++ x :: mid) ++ y :: suf)
    by (by rewrite <- app_assoc).
  rewrite lookup_app_r by lia.
  replace (length (pre ++ x :: mid) + 0 - length (pre ++ x :: mid))%nat with 0%nat by lia.
  cbn. destruct (f_ltb (distance y) (distance x)); [|done].
  rewrite insert_app_r. cbn. rewrite <- app_assoc. cbn.
  replace (length pre) with (length pre + 0)%nat at 1 by lia.
  by rewrite insert_app_r.
Qed.

Lemma sort_inner_select_min suf : ∀ pre x mid,
  sort_inner (length pre) (length pre + S (length mid)) (length suf)
    (pre ++ x :: mid ++ suf)
  = let '(m, r) := select_min x suf in pre ++ m :: mid ++ r.
Proof.
  induction suf as [|y suf IH]; intros pre x mid; cbn; [done|].
  rewrite swap_if_less_spec.
  destruct (f_ltb (distance y) (distance x)).
  - specialize (IH pre y (mid ++ [x])).
    rewrite length_app in IH. cbn in IH.
    replace (S (length pre + S (length mid))) with (length pre + S (length mid + 1))%nat by lia.
    rewrite <- !app_assoc in IH. cbn in IH. rewrite IH.
    destruct (select_min y suf) as [m r]. by rewrite <- app_assoc.
  - specialize (IH pre x (mid ++ [y])).
    rewrite length_app in IH. cbn in IH.
    replace (S (length pre + S (length mid))) with (length pre + S (length mid + 1))%nat by lia.
    rewrite <- !app_assoc in IH. cbn in IH. rewrite IH.
    destruct (select_min x suf) as [m r]. by rewrite <- app_assoc.
Qed.

Lemma select_min_perm suf : ∀ x m r,
  select_min x suf = (m, r) → m :: r ≡ₚ x :: suf.
Proof.
  induction suf as [|y suf IH]; intros x m r; cbn.
  - by intros [= <- <-].
  - destruct (f_ltb (distance y) (distance x)).
    + destruct (select_min y suf) as [m' r'] eqn:E. intros [= <- <-].
      etrans; [apply Permutation_swap|]. by rewrite (IH _ _ _ E).
    + destruct (select_min x suf) as [m' r'] eqn:E. intros [= <- <-].
      etrans; [apply Permutation_swap|]. rewrite (IH _ _ _ E).
      apply Permutation_swap.
Qed.

Lemma select_min_length suf x m r : select_min x suf = (m, r) → length r = length suf.
Proof.
  intros E. apply select_min_perm, Permutation_length in E. cbn in E. lia.
Qed.

(** The element selected is [x] or strictly nearer than [x], and no
    element left behind is nearer than it. *)
Lemma select_min_least suf : ∀ x m r,
  select_min x suf = (m, r) →
  (m = x ∨ f_ltb (distance m) (distance x) = true) ∧ Forall (distance_le m) r.
Proof.
  induction suf as [|y suf IH]; intros x m r; cbn.
  - intros [= <- <-]. auto.
  - destruct (f_ltb (distance y) (distance x)) eqn:Hyx.
    + destruct (select_min y suf) as [m' r'] eqn:E. intros [= <- <-].
      destruct (IH _ _ _ E) as [Hm Hr].
      assert (Hlt : f_ltb (distance m') (distance x) = true).
      { destruct Hm as [->|Hm]; [done|]. by eapply f_ltb_trans. }
      split; [by right|]. constructor; [|done].
      unfold distance_le, f_le.
      destruct (f_ltb (distance x) (distance m')) eqn:Hxm; [|done].
      pose proof (f_ltb_trans _ _ _ Hlt Hxm) as Hmm.
      by rewrite f_ltb_irrefl in Hmm.
    + destruct (select_min x suf) as [m' r'] eqn:E. intros [= <- <-].
      destruct (IH _ _ _ E) as [Hm Hr].
      split; [done|]. constructor; [|done].
      unfold distance_le, f_le.
      destruct Hm as [->|Hm]; [done|].
      destruct (f_ltb (distance y) (distance m')) eqn:Hym; [|done].
      pose proof (f_ltb_trans _ _ _ Hym Hm) as Hyx'. congruence.
Qed.

Lemma sort_outer_spec k : ∀ pre x suf,
  length suf = k →
  ∃ l, sort_outer (length pre) k (pre ++ x :: suf) = pre ++ l ∧
       l ≡ₚ x :: suf ∧ StronglySorted distance_le l.
Proof.
  induction k as [|k IH]; intros pre x suf Hlen; cbn.
  - destruct suf; [|done]. exists [x]. repeat split; [done|].
    repeat constructor.
  - pose proof (sort_inner_select_min suf pre x []) as Hin. cbn in Hin.
    rewrite length_app. cbn.
    replace (length pre + S (length suf) - S (length pre))%nat with (length suf) by lia.
    replace (length pre + 1)%nat with (S (length pre)) in Hin by lia.
    rewrite Hin. destruct (select_min x suf) as [m r] eqn:E.
    pose proof (select_min_length _ _ _ _ E) as Hr.
    destruct (select_min_least _ _ _ _ E) as [_ Hleast].
    pose proof (select_min_perm _ _ _ _ E) as Hperm.
    destruct r as [|x' suf']; [cbn in Hr; lia|].
    destruct (IH (pre ++ [m]) x' suf') as (l & Hl & Hlp & Hls).
    { cbn in Hr. lia. }
    rewrite length_app in Hl. cbn in Hl.
    replace (length pre + 1)%nat with (S (length pre)) in Hl by lia.
    rewrite <- app_assoc in Hl. cbn in Hl.
    exists (m :: l). split; [by rewrite Hl, <- app_assoc|]. split.
    + by rewrite Hlp.
    + constructor; [done|]. by rewrite Hlp.
Qed.

(** The two nested loops leave a rearrangement of the list in which no
    element is nearer than an element before it. *)
Lemma sort_distances_spec ds :
  sort_distances ds ≡ₚ ds ∧ StronglySorted distance_le (sort_distances ds).
Proof.
  unfold sort_distances. destruct ds as [|x suf].
  - cbn. split; [done|constructor].
  - destruct (sort_outer_spec (length suf) [] x suf eq_refl) as (l & Hl & Hp & Hs).
    cbn in *. rewrite Nat.sub_0_r, Hl. done.
Qed.

End SortLemmas.

(** C3, without the tie order: for [0 < N <= len(hubs)], [FindNearestHubs] returns
    [N] hubs that are the first [N] of a rearrangement of the input in
    which no hub is nearer to [point] than a hub before it: the result
    is in non-decreasing distance order, no hub left out is nearer than
    a returned one, and each input position is used at most once.  The
    order among hubs at equal distance is left open. *)
Theorem C3_FindNearestHubs_sorted_selection {F : Type} `{Float64 F} `{!Float64Laws F}
    (point : Point F) (hubs : list (Hub F)) (N : Z) :
  0 < N ≤ Z.of_nat (length hubs) →
  ∃ nearestHubs rest,
    FindNearestHubs point hubs N = Ok nearestHubs ∧
    length nearestHubs = Z.to_nat N ∧
    nearestHubs ++ rest ≡ₚ hubs ∧
    StronglySorted (hub_distance_le point) (nearestHubs ++ rest).
Proof.
  intros [HN Hlen]. unfold FindNearestHubs.
  apply Z.leb_gt in HN as HN'. apply Z.ltb_ge in Hlen as Hlen'.
  rewrite HN', Hlen'.
  destruct (sort_distances_spec (hub_distances point hubs)) as [Hperm Hsorted].
  set (sorted := sort_distances (hub_distances point hubs)) in *.
  exists (map hub (take (Z.to_nat N) sorted)), (map hub (drop (Z.to_nat N) sorted)).
  split; [done|].
  assert (Hmap : map hub (hub_distances point hubs) = hubs).
  { unfold hub_distances. rewrite map_map. cbn. apply map_id. }
  split; [|split].
  - rewrite length_map, length_take, (Permutation_length Hperm).
    unfold hub_distances. rewrite length_map. lia.
  - rewrite <- map_app, take_drop, Hperm. by rewrite Hmap.
  - rewrite <- map_app, take_drop.
    assert (Hd : Forall (fun e => distance e = CalculateDistance point (hub_Location (hub e)))
                   sorted).
    { rewrite Hperm. unfold hub_distances. rewrite Forall_map. by apply Forall_true. }
    clear - Hsorted Hd. induction Hsorted as [|e l Hs IH Hall]; cbn; [constructor|].
    apply Forall_cons in Hd as [He Hl]. constructor; [by apply IH|].
    rewrite Forall_map. rewrite Forall_forall in Hall, Hl |- *.
    intros e' He'. unfold hub_distance_le. cbn.
    rewrite <- He, <- (Hl _ He'). by apply Hall.
Qed.

(** C3 on the exact carrier: the two hubs nearest to
    [(3, 4)] among P, Q, R. *)
Lemma C3_witness :
  ∃ nearestHubs rest,
    FindNearestHubs (RunExact.pt 3 4) [RunExact.P; RunExact.Q; RunExact.R] 2
      = Ok nearestHubs ∧
    length nearestHubs = 2%nat ∧
    nearestHubs ++ rest ≡ₚ [RunExact.P; RunExact.Q; RunExact.R] ∧
    StronglySorted (hub_distance_le (RunExact.pt 3 4)) (nearestHubs ++ rest).
Proof.
  apply (@C3_FindNearestHubs_sorted_selection Exact.num _ Exact_laws
           (RunExact.pt 3 4) [RunExact.P; RunExact.Q; RunExact.R] 2).
  cbn. lia.
Defined.

(** C3, the tie order: A and B are both at distance 2 from the
    origin and C is at distance 1.  The exchange of positions 0 and 2
    moves A behind B, so the two nearest hubs returned are [C; B],
    whereas ties broken by input order give [C; A]. *)
Lemma C3_ties_not_in_input_order :
  0 < 2 ≤ Z.of_nat (length [Run.A; Run.B; Run.C]) ∧
  CalculateDistance (Run.pt 0 0) (hub_Location Run.A) = 2%float ∧
  CalculateDistance (Run.pt 0 0) (hub_Location Run.B) = 2%float ∧
  FindNearestHubs (Run.pt 0 0) [Run.A; Run.B; Run.C] 2 = Ok [Run.C; Run.B] ∧
  nearest_stable (Run.pt 0 0) [Run.A; Run.B; Run.C] 2 = [Run.C; Run.A] ∧
  FindNearestHubs (Run.pt 0 0) [Run.A; Run.B; Run.C] 2
    ≠ Ok (nearest_stable (Run.pt 0 0) [Run.A; Run.B; Run.C] 2).
Proof.
  assert (Hrun : FindNearestHubs (Run.pt 0 0) [Run.A; Run.B; Run.C] 2 = Ok [Run.C; Run.B])
    by (vm_compute; reflexivity).
  assert (Hspec : nearest_stable (Run.pt 0 0) [Run.A; Run.B; Run.C] 2 = [Run.C; Run.A])
    by (vm_compute; reflexivity).
  split; [cbn; lia|]. split; [vm_compute; reflexivity|].
  split; [vm_compute; reflexivity|]. split; [done|]. split; [done|].
  rewrite Hrun, Hspec. intros Heq. inversion Heq.
Qed.

(** ** ReconstructPath on an arbitrary predecessor map *)

Section RP.
Implicit Types previous : gmap string string.

Lemma pred_chain_snoc previous pre a b :
  pred_chain previous (pre ++ [a]) → previous !! b = Some a →
  pred_chain previous (pre ++ [a; b]).
Proof.
  induction pre as [|x pre IH]; intros Hc Hab; [by cbn|].
  destruct pre as [|y pre].
  - cbn in *. destruct Hc as [Hxa _]. done.
  - destruct Hc as [Hxy Hc]. split; [done|]. by apply IH.
Qed.

Lemma ReconstructPath_loop_Ok fuel previous start target : ∀ current path res,
  ReconstructPath_loop fuel previous start target current path = Some (Ok res) →
  ∃ pre, res = start :: pre ++ path ∧
         last (start :: pre) = Some current ∧
         pred_chain previous (start :: pre) ∧
         start ∉ pre.
Proof.
  assert (Hstart : ∀ path res : list string, Some (Ok (start :: path)) = Some (Ok res) →
            ∃ pre, res = start :: pre ++ path ∧ last (start :: pre) = Some start ∧
                   pred_chain previous (start :: pre) ∧ start ∉ pre).
  { intros path res [= <-]. exists []. split; [done|]. split; [done|].
    split; [done|apply not_elem_of_nil]. }
  induction fuel as [|fuel IH]; intros current path res; cbn;
    (destruct (decide (current = start)) as [->|Hne]; [by apply Hstart|]); [done|].
  destruct (previous !! current) as [prev|] eqn:Hprev; [|done].
  intros (pre & -> & Hlast & Hchain & Hnin)%IH.
  exists (pre ++ [current]). split; [by rewrite <- app_assoc|].
  split; [|split].
  - by rewrite app_comm_cons, last_snoc.
  - change (pred_chain previous (start :: (pre ++ [current]))).
    apply last_Some in Hlast as [l' Hl']. rewrite app_comm_cons.
    rewrite Hl' in Hchain |- *. rewrite <- app_assoc. cbn.
    by apply pred_chain_snoc.
  - rewrite elem_of_app, list_elem_of_singleton. intros [?|?]; [done|congruence].
Qed.

(** X16: a path returned by [ReconstructPath] begins with [start], ends
    with [target], each element is the predecessor entry of the next,
    and [start] occurs in it only as the first element. *)
Theorem ReconstructPath_Ok_path fuel previous start target path :
  ReconstructPath fuel previous start target = Some (Ok path) →
  ∃ pre, path = start :: pre ∧ last path = Some target ∧
         pred_chain previous path ∧ start ∉ pre.
Proof.
  intros (pre & -> & Hlast & Hchain & Hnin)%ReconstructPath_loop_Ok.
  rewrite app_nil_r. eauto.
Qed.

Lemma ReconstructPath_loop_Err fuel previous start target : ∀ current path e,
  ReconstructPath_loop fuel previous start target current path = Some (Err e) →
  e = "no path found from " +:+ start +:+ " to " +:+ target ∧
  ∃ t, rtc (pred_link previous) current t ∧ t ≠ start ∧ previous !! t = None.
Proof.
  induction fuel as [|fuel IH]; intros current path e; cbn;
    (destruct (decide (current = start)) as [->|Hne]; [done|]); [done|].
  destruct (previous !! current) as [prev|] eqn:Hprev.
  - intros (-> & t & Hrt & Ht)%IH. split; [done|]. exists t. split; [|done].
    by eapply rtc_l.
  - intros [= <-]. split; [done|]. exists current. split; [apply rtc_refl|done].
Qed.

(** X17: the only error of [ReconstructPath] is "no path found from
    start to target", and it means that the walk from [target] along
    predecessor entries reaches a node other than [start] that has no
    entry. *)
Theorem ReconstructPath_Err_dead_end fuel previous start target e :
  ReconstructPath fuel previous start target = Some (Err e) →
  e = "no path found from " +:+ start +:+ " to " +:+ target ∧
  ∃ t, rtc (pred_link previous) target t ∧ t ≠ start ∧ previous !! t = None.
Proof. apply ReconstructPath_loop_Err. Qed.

Lemma ReconstructPath_never_Panic fuel previous start target : ∀ current path,
  ReconstructPath_loop fuel previous start target current path ≠ Some Panic.
Proof.
  induction fuel as [|fuel IH]; intros current path; cbn;
    (destruct (decide (current = start)); [done|]); [done|].
  destruct (previous !! current); [apply IH|done].
Qed.

Lemma ReconstructPath_loop_cycle fuel previous start target : ∀ current path,
  (∀ t, rtc (pred_link previous) current t → t ≠ start ∧ is_Some (previous !! t)) →
  ReconstructPath_loop fuel previous start target current path = None.
Proof.
  induction fuel as [|fuel IH]; intros current path Hall;
    destruct (Hall current (rtc_refl _ _)) as [Hne [prev Hprev]]; cbn;
    rewrite decide_False by done; [done|].
  rewrite Hprev. apply IH. intros t Ht. apply Hall. by eapply rtc_l.
Qed.

Lemma ReconstructPath_loop_end previous start target current t :
  rtc (pred_link previous) current t →
  t = start ∨ previous !! t = None →
  ∃ n, ∀ fuel path, (n ≤ fuel)%nat →
    is_Some (ReconstructPath_loop fuel previous start target current path).
Proof.
  intros Hrt Ht. induction Hrt as [t|a b t Hab _ IH].
  - exists 1%nat. intros [|fuel] path Hfuel; [lia|]. cbn.
    destruct (decide (t = start)); [eauto|].
    destruct Ht as [?|Hnone]; [done|]. rewrite Hnone. eauto.
  - destruct (IH Ht) as [n Hn]. exists (S n). intros [|fuel] path Hfuel; [lia|]. cbn.
    destruct (decide (a = start)); [eauto|].
    rewrite Hab. apply Hn. lia.
Qed.

(** X18: the loop of [ReconstructPath] never ends, whatever the bound
    on its iterations, exactly when every node on the walk from
    [target] differs from [start] and has a predecessor entry: the walk
    is caught in a cycle that avoids [start]. *)
Theorem ReconstructPath_diverges_iff previous start target :
  (∀ fuel, ReconstructPath fuel previous start target = None) ↔
  (∀ t, rtc (pred_link previous) target t → t ≠ start ∧ is_Some (previous !! t)).
Proof.
  split.
  - intros Hnone t Hrt.
    assert (Hend : ¬ (t = start ∨ previous !! t = None)).
    { intros Ht. destruct (ReconstructPath_loop_end _ start target _ _ Hrt Ht) as [n Hn].
      destruct (Hn n [] (le_n _)) as [r Hr]. unfold ReconstructPath in Hnone.
      rewrite Hnone in Hr. done. }
    split; [tauto|]. destruct (previous !! t); [eauto|tauto].
  - intros Hall fuel. by apply ReconstructPath_loop_cycle.
Qed.

End RP.

(** ** Dijkstra: the loop terminates *)

Section DijkstraTermination.
Context {F : Type} `{Float64 F}.
Variable g : Graph F.

Lemma potential_visit cur (V : gset string) :
  cur ∉ V →
  (potential g ({[cur]} ∪ V) + match Neighbors g !! cur with
                               | Some m => S (size m)
                               | None => 0
                               end = potential g V)%nat.
Proof.
  intros Hcur. unfold potential. generalize (Neighbors g).
  intros M. induction M as [|i x m Hi _ IH] using map_first_key_ind.
  - by rewrite map_to_list_empty, lookup_empty.
  - rewrite !map_to_list_insert by done. cbn.
    destruct (decide (i = cur)) as [->|Hne].
    + rewrite lookup_insert_eq. rewrite Hi in IH.
      rewrite decide_True by set_solver. rewrite decide_False by done. lia.
    + rewrite lookup_insert_ne by done.
      destruct (decide (i ∈ V)).
      * rewrite decide_True by set_solver. lia.
      * rewrite decide_False; [lia|].
        rewrite elem_of_union, elem_of_singleton. tauto.
Qed.

Lemma relax_fold_size cur kvs : ∀ st,
  visited (fold_left (relax cur) kvs st) = visited st ∧
  (length (priorityQueue (fold_left (relax cur) kvs st))
     ≤ length (priorityQueue st) + length kvs)%nat.
Proof.
  induction kvs as [|kv kvs IH]; intros st; cbn; [split; [done|lia]|].
  destruct (IH (relax cur st kv)) as [-> Hlen]. unfold relax in *.
  destruct (f_ltb _ _); cbn in *; split; [done|lia|done|lia].
Qed.

Lemma step_decreases st st' :
  dijkstra_step g st st' → (dijkstra_measure g st' < dijkstra_measure g st)%nat.
Proof.
  unfold dijkstra_measure.
  intros [st0 it rest [Hp _] Hvis|st0 it rest kvs [Hp _] Hvis Hkvs]; cbn.
  - apply Permutation_length in Hp. cbn in Hp. lia.
  - apply Permutation_length in Hp, Hkvs. cbn in Hp.
    rewrite length_map_to_list in Hkvs.
    match goal with |- context [fold_left ?f kvs ?s] =>
      destruct (relax_fold_size (Value it) kvs s) as [-> Hlen] end.
    cbn in Hlen. pose proof (potential_visit (Value it) (visited st0) Hvis) as Hpot.
    unfold neighbors_of in Hkvs.
    destruct (Neighbors g !! Value it); cbn in Hkvs |- *.
    + lia.
    + rewrite map_size_empty in Hkvs. lia.
Qed.


End DijkstraTermination.

(** ** Consequences of the laws *)

Section OrderLemmas.
Context {F : Type} `{Float64 F} `{!Float64Laws F}.

Lemma f_le_refl (x : F) : f_le x x.
Proof. apply f_ltb_irrefl. Qed.

Lemma f_le_trans (x y z : F) : f_valid y → f_le x y → f_le y z → f_le x z.
Proof.
  unfold f_le. intros Hy Hxy Hyz.
  destruct (f_ltb z x) eqn:Hzx; [|done].
  destruct (f_ltb_cotrans z y x Hy Hzx); congruence.
Qed.

Lemma f_lt_le_trans (x y z : F) : f_ltb x y = true → f_le y z → f_le x z.
Proof.
  unfold f_le. intros Hxy Hyz.
  destruct (f_ltb z x) eqn:Hzx; [|done].
  pose proof (f_ltb_trans _ _ _ Hzx Hxy). congruence.
Qed.

Lemma f_le_lt_false (x y : F) : f_le x y → f_ltb y x = true → False.
Proof. unfold f_le. congruence. Qed.

Lemma f_zero_nonneg : f_nonneg (f_zero (F:=F)).
Proof. split; [apply f_zero_valid|apply f_le_refl]. Qed.

Lemma f_inf_nonneg : f_nonneg (f_inf (F:=F)).
Proof. split; [apply f_inf_valid|apply f_inf_top]. Qed.

Lemma f_nonneg_not_lt_zero (x : F) : f_nonneg x → f_ltb x f_zero = true → False.
Proof. intros [_ Hx]. unfold f_le in Hx. congruence. Qed.

End OrderLemmas.

(** ** Dijkstra: the invariant holds in every state of every run *)

Section DijkstraProofs.
Context {F : Type} `{Float64 F} `{!Float64Laws F}.
Variables (g : Graph F) (start : string).
Hypothesis Hnn : graph_nonneg g.

Lemma dist_at_insert (ds : gmap string F) w a v :
  dist_at (<[w := a]> ds) v = if decide (w = v) then a else dist_at ds v.
Proof.
  unfold dist_at. case_decide as Hwv.
  - subst. by rewrite lookup_insert_eq.
  - by rewrite lookup_insert_ne.
Qed.

Lemma dist_at_nonneg (ds : gmap string F) v :
  (∀ v d, ds !! v = Some d → f_nonneg d) → f_nonneg (dist_at ds v).
Proof.
  intros Hds. unfold dist_at. destruct (ds !! v) eqn:E; cbn; eauto using f_zero_nonneg.
Qed.

Lemma relax_inv cur w c pending vs st :
  dijkstra_inv g start cur ((w, c) :: pending) vs st →
  dijkstra_inv g start cur pending vs (relax cur st (w, c)).
Proof.
  intros I.
  destruct (inv_pending _ _ _ _ _ _ I w c) as [Hcur Hedge]; [by left|].
  pose proof (Hnn _ _ _ Hedge) as Hc.
  pose proof (dist_at_nonneg (distances st) cur (inv_nonneg _ _ _ _ _ _ I)) as Hdcur.
  set (alt := f_add (dist_at (distances st) cur) c).
  assert (Halt : f_nonneg alt) by (by apply f_add_nonneg).
  assert (Hcur_alt : f_le (dist_at (distances st) cur) alt) by (by apply f_add_le).
  unfold relax. cbn. fold alt.
  destruct (f_ltb alt (dist_at (distances st) w)) eqn:Hlt.
  - (* the distance of [w] improves *)
    assert (Hwv : w ∉ visited st).
    { intros Hw. eapply f_le_lt_false; [|exact Hlt].
      eapply f_le_trans; [apply Hdcur|by eapply inv_mono|done]. }
    assert (Hws : w ≠ start).
    { intros ->. eapply f_nonneg_not_lt_zero; [exact Halt|].
      unfold dist_at in Hlt. by rewrite (inv_start _ _ _ _ _ _ I) in Hlt. }
    assert (Hwc : w ≠ cur) by (by intros ->).
    assert (Hkeep : ∀ v, v ∈ visited st →
              dist_at (<[w:=alt]> (distances st)) v = dist_at (distances st) v).
    { intros v Hv. rewrite dist_at_insert. case_decide; [by subst|done]. }
    split; cbn.
    + apply I.
    + intros w' c' Hin. apply (inv_pending _ _ _ _ _ _ I). by right.
    + intros v Hv. destruct (decide (w = v)) as [->|].
      * rewrite lookup_insert_eq. eauto.
      * rewrite lookup_insert_ne by done. by apply I.
    + intros v d. destruct (decide (w = v)) as [->|].
      * rewrite lookup_insert_eq. by intros [= <-].
      * rewrite lookup_insert_ne by done. apply I.
    + rewrite lookup_insert_ne by done. apply I.
    + rewrite lookup_insert_ne by done. apply I.
    + intros v Hv. destruct (decide (w = v)) as [->|].
      * by rewrite lookup_insert_eq.
      * rewrite !lookup_insert_ne by done. by apply I.
    + intros it [->|Hit]%elem_of_cons; unfold touched; cbn.
      * right. rewrite lookup_insert_eq. eauto.
      * destruct (inv_pq_touched _ _ _ _ _ _ I it Hit) as [?|?]; [by left|right].
        destruct (decide (w = Value it)) as [->|].
        -- rewrite lookup_insert_eq. eauto.
        -- by rewrite lookup_insert_ne.
    + intros v Hv. destruct (inv_visited_touched _ _ _ _ _ _ I v Hv) as [?|?]; [by left|right].
      cbn. destruct (decide (w = v)) as [->|].
      * rewrite lookup_insert_eq. eauto.
      * by rewrite lookup_insert_ne.
    + intros v Hv Ht. rewrite dist_at_insert. case_decide as Hwv'.
      * subst. by left.
      * right. apply I; [done|]. destruct Ht as [?|Ht]; [by left|right].
        cbn in Ht. by rewrite lookup_insert_ne in Ht.
    + intros it [->|Hit]%elem_of_cons; cbn.
      * split; [done|]. rewrite dist_at_insert, decide_True by done. apply f_le_refl.
      * destruct (inv_pq_ge _ _ _ _ _ _ I it Hit) as [Hp Hge]. split; [done|].
        rewrite dist_at_insert. case_decide; [|done]. subst.
        by eapply f_lt_le_trans.
    + intros u it Hu [->|Hit]%elem_of_cons; rewrite Hkeep by done; cbn.
      * eapply f_le_trans; [apply Hdcur|by eapply inv_mono|done].
      * by eapply inv_settled.
    + intros u Hu. rewrite !Hkeep by done. by eapply inv_mono.
    + intros u w' c' Hu Hedge'. rewrite (Hkeep u) by done.
      destruct (inv_relaxed _ _ _ _ _ _ I u w' c' Hu Hedge') as [[-> Hin]|Hle].
      * apply elem_of_cons in Hin as [[= -> ->]|Hin]; [|by left].
        right. rewrite dist_at_insert, decide_True by done. apply f_le_refl.
      * right. rewrite dist_at_insert. case_decide; [|done]. subst.
        by eapply f_lt_le_trans.
    + intros w' u. destruct (decide (w = w')) as [->|].
      * rewrite lookup_insert_eq. intros [= <-].
        apply (inv_visited _ _ _ _ _ _ I), list_elem_of_lookup in Hcur as [i Hi].
        exists i. split; [done|]. intros j Hj. exfalso. apply Hwv.
        apply (inv_visited _ _ _ _ _ _ I), list_elem_of_lookup. eauto.
      * rewrite lookup_insert_ne by done. apply I.
    + intros w' u. destruct (decide (w = w')) as [->|].
      * rewrite !lookup_insert_eq. intros _. exists alt. split; [done|].
        unfold f_finite. unfold dist_at in Hlt.
        destruct (distances st !! w') as [d0|] eqn:Hd0; cbn in Hlt.
        -- destruct (f_ltb_cotrans alt f_inf d0 f_inf_valid Hlt) as [?|Hinf]; [done|].
           by rewrite f_inf_top in Hinf.
        -- exfalso. by eapply f_nonneg_not_lt_zero.
      * rewrite !lookup_insert_ne by done. apply I.
    + intros v [->|Ht]; [apply rtc_refl|]. cbn in Ht.
      destruct (decide (w = v)) as [->|].
      * eapply rtc_r; [apply (inv_reach _ _ _ _ _ _ I)|].
        -- by apply (inv_visited_touched _ _ _ _ _ _ I).
        -- by rewrite Hedge.
      * rewrite lookup_insert_ne in Ht by done. apply (inv_reach _ _ _ _ _ _ I). by right.
  - (* no improvement: the state is unchanged *)
    split; try (by apply I).
    + intros w' c' Hin. apply (inv_pending _ _ _ _ _ _ I). by right.
    + intros u w' c' Hu Hedge'.
      destruct (inv_relaxed _ _ _ _ _ _ I u w' c' Hu Hedge') as [[-> Hin]|Hle];
        [|by right].
      apply elem_of_cons in Hin as [[= -> ->]|Hin]; [by right|by left].
Qed.

Lemma relax_fold_inv cur kvs : ∀ vs st,
  dijkstra_inv g start cur kvs vs st →
  dijkstra_inv g start cur [] vs (fold_left (relax cur) kvs st).
Proof.
  induction kvs as [|[w c] kvs IH]; intros vs st I; cbn; [done|].
  by apply IH, relax_inv.
Qed.

Lemma heap_Pop_elem pq it rest (x : Item F) :
  heap_Pop pq it rest → x ∈ pq ↔ x = it ∨ x ∈ rest.
Proof. intros [Hp _]. rewrite Hp. apply elem_of_cons. Qed.

Lemma heap_Pop_min pq it rest (x : Item F) :
  heap_Pop pq it rest → x ∈ pq → f_le (Priority it) (Priority x).
Proof. intros [_ Hmin] Hx. rewrite Forall_forall in Hmin. by apply Hmin. Qed.

Lemma weight_neighbors_of cur w c :
  weight g cur w = Some c ↔ neighbors_of g cur !! w = Some c.
Proof.
  unfold weight, neighbors_of. destruct (Neighbors g !! cur); cbn; [done|].
  by rewrite lookup_empty.
Qed.

(** An item of a visited node is discarded. *)
Lemma continue_inv cur vs st it rest :
  dijkstra_inv g start cur [] vs st →
  heap_Pop (priorityQueue st) it rest →
  Value it ∈ visited st →
  dijkstra_inv g start cur [] vs
    {| distances := distances st; previous := previous st;
       priorityQueue := rest; visited := visited st |}.
Proof.
  intros I Hpop Hvis.
  assert (Hsub : ∀ x, x ∈ rest → x ∈ priorityQueue st).
  { intros x Hx. apply (heap_Pop_elem _ _ _ _ Hpop). by right. }
  split; cbn; try (by apply I).
  - intros x Hx. apply (inv_pq_touched _ _ _ _ _ _ I); auto.
  - intros v Hv Ht. pose proof (inv_frontier _ _ _ _ _ _ I v Hv Ht) as Hin.
    apply (heap_Pop_elem _ _ _ _ Hpop) in Hin as [Heq|?]; [|done].
    subst it. cbn in Hvis. done.
  - intros x Hx. apply (inv_pq_ge _ _ _ _ _ _ I); auto.
  - intros u x Hu Hx. apply (inv_settled _ _ _ _ _ _ I); auto.
Qed.

(** An item of an unvisited node is popped and the node marked visited;
    its edges [kvs] are pending. *)
Lemma visit_inv cur vs st it rest kvs :
  dijkstra_inv g start cur [] vs st →
  heap_Pop (priorityQueue st) it rest →
  Value it ∉ visited st →
  kvs ≡ₚ map_to_list (neighbors_of g (Value it)) →
  dijkstra_inv g start (Value it) kvs (vs ++ [Value it])
    {| distances := distances st; previous := previous st;
       priorityQueue := rest; visited := {[Value it]} ∪ visited st |}.
Proof.
  intros I Hpop Hvis Hkvs.
  assert (Hsub : ∀ x, x ∈ rest → x ∈ priorityQueue st).
  { intros x Hx. apply (heap_Pop_elem _ _ _ _ Hpop). by right. }
  assert (Hit : it ∈ priorityQueue st).
  { apply (heap_Pop_elem _ _ _ _ Hpop). by left. }
  destruct (inv_pq_ge _ _ _ _ _ _ I it Hit) as [[Hpv Hp0] Hdp].
  pose proof (inv_pq_touched _ _ _ _ _ _ I it Hit) as Htouched.
  assert (Hpd : f_le (Priority it) (dist_at (distances st) (Value it))).
  { pose proof (inv_frontier _ _ _ _ _ _ I (Value it) Hvis Htouched) as Hin.
    apply (heap_Pop_min _ _ _ _ Hpop) in Hin. done. }
  split; cbn.
  - intros x. rewrite elem_of_union, elem_of_singleton, elem_of_app, list_elem_of_singleton.
    rewrite (inv_visited _ _ _ _ _ _ I). tauto.
  - intros w c Hin. split; [set_solver|].
    rewrite Hkvs in Hin. apply elem_of_map_to_list in Hin.
    by apply weight_neighbors_of.
  - apply I.
  - apply I.
  - apply I.
  - apply I.
  - apply I.
  - intros x Hx. apply (inv_pq_touched _ _ _ _ _ _ I). auto.
  - intros v [->%elem_of_singleton|Hv]%elem_of_union; [done|].
    by apply (inv_visited_touched _ _ _ _ _ _ I).
  - intros v Hv Ht.
    assert (v ≠ Value it ∧ v ∉ visited st) as [Hne Hv'] by set_solver.
    pose proof (inv_frontier _ _ _ _ _ _ I v Hv' Ht) as Hin.
    apply (heap_Pop_elem _ _ _ _ Hpop) in Hin as [Heq|?]; [|done].
    subst it. done.
  - intros x Hx. apply (inv_pq_ge _ _ _ _ _ _ I). auto.
  - intros u x [->%elem_of_singleton|Hu]%elem_of_union Hx.
    + eapply f_le_trans; [exact Hpv|done|].
      eapply heap_Pop_min; eauto.
    + apply (inv_settled _ _ _ _ _ _ I); auto.
  - intros u [->%elem_of_singleton|Hu]%elem_of_union; [apply f_le_refl|].
    eapply f_le_trans; [exact Hpv| |done].
    by apply (inv_settled _ _ _ _ _ _ I).
  - intros u w c [->%elem_of_singleton|Hu]%elem_of_union Hedge.
    + left. split; [done|]. rewrite Hkvs. apply elem_of_map_to_list.
      by apply weight_neighbors_of.
    + destruct (inv_relaxed _ _ _ _ _ _ I u w c Hu Hedge) as [[_ Hin]|?]; [|by right].
      by apply elem_of_nil in Hin.
  - intros w u Hwu.
    destruct (inv_prev_order _ _ _ _ _ _ I w u Hwu) as (i & Hi & Hlt).
    exists i. split; [by apply lookup_app_l_Some|].
    intros j Hj. apply lookup_app_Some in Hj as [Hj|[Hlen Hj]]; [by apply Hlt|].
    apply lookup_lt_Some in Hi. lia.
  - apply I.
  - apply I.
Qed.

Lemma step_inv cur vs st st' :
  dijkstra_inv g start cur [] vs st →
  dijkstra_step g st st' →
  ∃ cur' vs', dijkstra_inv g start cur' [] vs' st'.
Proof.
  intros I Hstep. destruct Hstep as [st it rest Hpop Hvis|st it rest kvs Hpop Hvis Hkvs].
  - exists cur, vs. by eapply continue_inv.
  - exists (Value it), (vs ++ [Value it]).
    apply relax_fold_inv. by eapply visit_inv.
Qed.

Lemma init_inv :
  dijkstra_inv g start start [] [] (dijkstra_init g start).
Proof.
  split; cbn.
  - intros x. set_solver.
  - intros w c Hin. by apply elem_of_nil in Hin.
  - intros v [b Hv]. destruct (decide (start = v)) as [->|].
    + rewrite lookup_insert_eq. eauto.
    + rewrite lookup_insert_ne, lookup_fmap, Hv by done. cbn. eauto.
  - intros v d. destruct (decide (start = v)) as [->|].
    + rewrite lookup_insert_eq. intros [= <-]. apply f_zero_nonneg.
    + rewrite lookup_insert_ne, lookup_fmap by done.
      destruct (Nodes g !! v); cbn; [|done]. intros [= <-]. apply f_inf_nonneg.
  - by rewrite lookup_insert_eq.
  - apply lookup_empty.
  - intros v Hv _. by rewrite lookup_insert_ne, lookup_fmap.
  - intros it ->%list_elem_of_singleton. by left.
  - intros v Hv. by apply not_elem_of_empty in Hv.
  - intros v _ [->|[? Ht]]; [|cbn in Ht; by rewrite lookup_empty in Ht].
    unfold dist_at. rewrite lookup_insert_eq. cbn. by left.
  - intros it ->%list_elem_of_singleton. cbn. split; [apply f_zero_nonneg|].
    unfold dist_at. rewrite lookup_insert_eq. apply f_le_refl.
  - intros u it Hu. by apply not_elem_of_empty in Hu.
  - intros u Hu. by apply not_elem_of_empty in Hu.
  - intros u w c Hu. by apply not_elem_of_empty in Hu.
  - intros w u Hwu. by rewrite lookup_empty in Hwu.
  - intros w u Hwu. by rewrite lookup_empty in Hwu.
  - intros v [->|[? Ht]]; [apply rtc_refl|cbn in Ht; by rewrite lookup_empty in Ht].
Qed.

Lemma run_inv st :
  rtc (dijkstra_step g) (dijkstra_init g start) st →
  ∃ cur vs, dijkstra_inv g start cur [] vs st.
Proof.
  revert st. apply rtc_ind_r.
  - exists start, []. apply init_inv.
  - intros st1 st2 _ Hstep (cur & vs & I). by eapply step_inv.
Qed.

(** *** The executable schedule is a run *)

Lemma pop_first_min_spec (pq : list (Item F)) :
  Forall (fun x => f_valid (Priority x)) pq →
  match pop_first_min pq with
  | None => pq = []
  | Some (it, rest) => heap_Pop pq it rest
  end.
Proof.
  unfold heap_Pop, Less.
  induction pq as [|x pq IH]; intros Hv; cbn; [done|].
  apply Forall_cons in Hv as [Hx Hv]. specialize (IH Hv).
  destruct (pop_first_min pq) as [[m rest]|].
  - destruct IH as [Hp Hmin].
    assert (Hm : f_valid (Priority m)).
    { rewrite Forall_forall in Hv. apply Hv. rewrite Hp. by left. }
    unfold Less. destruct (f_ltb (Priority m) (Priority x)) eqn:Hlt.
    + split.
      * rewrite Hp. apply Permutation_swap.
      * constructor; [|done]. eapply f_lt_le_trans; [done|apply f_le_refl].
    + split; [done|]. constructor; [apply f_ltb_irrefl|].
      eapply Forall_impl; [exact Hmin|]. intros y Hy.
      by eapply (f_le_trans _ (Priority m)).
  - subst pq. split; [done|]. constructor; [apply f_ltb_irrefl|constructor].
Qed.

Lemma inv_pq_valid cur pending vs st :
  dijkstra_inv g start cur pending vs st →
  Forall (fun x => f_valid (Priority x)) (priorityQueue st).
Proof.
  intros I. apply Forall_forall. intros x Hx.
  by destruct (inv_pq_ge _ _ _ _ _ _ I x Hx) as [[? _] _].
Qed.

Lemma dijkstra_iter_spec cur vs st :
  dijkstra_inv g start cur [] vs st →
  match dijkstra_iter g st with
  | None => priorityQueue st = []
  | Some st' => dijkstra_step g st st'
  end.
Proof.
  intros I. unfold dijkstra_iter.
  pose proof (pop_first_min_spec _ (inv_pq_valid _ _ _ _ I)) as Hpop.
  destruct (pop_first_min (priorityQueue st)) as [[it rest]|]; [|done].
  case_decide.
  - by eapply step_continue.
  - by eapply step_visit.
Qed.

Lemma dijkstra_loop_spec fuel : ∀ cur vs st,
  dijkstra_inv g start cur [] vs st →
  (dijkstra_measure g st ≤ fuel)%nat →
  ∃ st', dijkstra_loop fuel g st = Some st' ∧
         rtc (dijkstra_step g) st st' ∧ priorityQueue st' = [].
Proof.
  induction fuel as [|fuel IH]; intros cur vs st I Hm; cbn;
    pose proof (dijkstra_iter_spec _ _ _ I) as Hiter;
    destruct (dijkstra_iter g st) as [st1|]; eauto using rtc_refl.
  - apply step_decreases in Hiter. lia.
  - destruct (step_inv _ _ _ _ I Hiter) as (cur' & vs' & I').
    destruct (IH cur' vs' st1 I') as (st' & Hloop & Hrun & Hdone).
    { apply step_decreases in Hiter. lia. }
    exists st'. split; [done|]. split; [|done]. by eapply rtc_l.
Qed.

Lemma dijkstra_loop_sound fuel : ∀ cur vs st st',
  dijkstra_inv g start cur [] vs st →
  dijkstra_loop fuel g st = Some st' →
  rtc (dijkstra_step g) st st' ∧ priorityQueue st' = [].
Proof.
  induction fuel as [|fuel IH]; intros cur vs st st' I; cbn;
    pose proof (dijkstra_iter_spec _ _ _ I) as Hiter;
    destruct (dijkstra_iter g st) as [st1|]; try done.
  - intros [= <-]. split; [apply rtc_refl|done].
  - intros Hloop. destruct (step_inv _ _ _ _ I Hiter) as (cur' & vs' & I').
    destruct (IH cur' vs' st1 st' I' Hloop) as [Hrun Hdone].
    split; [|done]. by eapply rtc_l.
  - intros [= <-]. split; [apply rtc_refl|done].
Qed.

(** *** What a returned result satisfies *)

Lemma Dijkstra_Ok_inv distances0 previous0 :
  Dijkstra start (Some g) (Ok (distances0, previous0)) →
  ∃ cur vs st, dijkstra_inv g start cur [] vs st ∧ priorityQueue st = [] ∧
               distances st = distances0 ∧ previous st = previous0.
Proof.
  inversion 1 as [| |g' st Hstart Hrun Hdone]; subst.
  destruct (run_inv st Hrun) as (cur & vs & I). by exists cur, vs, st.
Qed.

(** [Dijkstra] returns a result for every start node of the graph. *)
Lemma Dijkstra_returns :
  is_Some (Nodes g !! start) →
  ∃ r, Dijkstra start (Some g) (Ok r).
Proof.
  intros Hstart.
  destruct (dijkstra_loop_spec _ _ _ _ init_inv (le_n _)) as (st & _ & Hrun & Hdone).
  exists (distances st, previous st). by constructor.
Qed.

Lemma Dijkstra_exec_sound fuel r :
  Dijkstra_exec fuel (Some g) start = Some r → Dijkstra start (Some g) r.
Proof.
  unfold Dijkstra_exec. destruct (Nodes g !! start) eqn:Hstart.
  - destruct (dijkstra_loop fuel g (dijkstra_init g start)) as [st|] eqn:Hloop; [|done].
    cbn. intros [= <-].
    destruct (dijkstra_loop_sound _ _ _ _ _ init_inv Hloop) as [Hrun Hdone].
    constructor; [by rewrite Hstart|done|done].
  - intros [= <-]. by constructor.
Qed.

Lemma Dijkstra_exec_returns fuel :
  is_Some (Nodes g !! start) →
  (dijkstra_measure g (dijkstra_init g start) ≤ fuel)%nat →
  ∃ r, Dijkstra_exec fuel (Some g) start = Some (Ok r).
Proof.
  intros [b Hstart] Hfuel. unfold Dijkstra_exec. rewrite Hstart.
  destruct (dijkstra_loop_spec _ _ _ _ init_inv Hfuel) as (st & -> & _).
  cbn. eauto.
Qed.


Lemma final_unvisited_untouched cur vs st v :
  dijkstra_inv g start cur [] vs st → priorityQueue st = [] →
  v ∉ visited st → v ≠ start ∧ previous st !! v = None.
Proof.
  intros I Hdone Hv.
  assert (Hnt : ¬ touched start st v).
  { intros Ht. pose proof (inv_frontier _ _ _ _ _ _ I v Hv Ht) as Hin.
    rewrite Hdone in Hin. by apply elem_of_nil in Hin. }
  split.
  - intros ->. apply Hnt. by left.
  - destruct (previous st !! v) eqn:E; [|done]. exfalso. apply Hnt. right. eauto.
Qed.

Lemma pred_chain_order cur pending vs st a b :
  dijkstra_inv g start cur pending vs st →
  tc (pred_link (previous st)) a b →
  ∃ i, vs !! i = Some b ∧ ∀ j, vs !! j = Some a → (i < j)%nat.
Proof.
  intros I. induction 1 as [a b Hab|a x b Hax _ (i & Hi & Hlt)].
  - by apply (inv_prev_order _ _ _ _ _ _ I).
  - destruct (inv_prev_order _ _ _ _ _ _ I a x Hax) as (i0 & Hi0 & Hlt0).
    exists i. split; [done|]. intros j Hj.
    specialize (Hlt0 j Hj). specialize (Hlt i0 Hi0). lia.
Qed.

Lemma pred_acyclic cur pending vs st v :
  dijkstra_inv g start cur pending vs st → ¬ tc (pred_link (previous st)) v v.
Proof.
  intros I Hcyc. destruct (pred_chain_order _ _ _ _ _ _ I Hcyc) as (i & Hi & Hlt).
  specialize (Hlt i Hi). lia.
Qed.

(** From a visited node at position [i] of the visit order the walk
    ends within [i + 1] iterations. *)
Lemma ReconstructPath_loop_visited cur pending vs st target i :
  dijkstra_inv g start cur pending vs st →
  ∀ u fuel path, vs !! i = Some u → (i < fuel)%nat →
    ∃ r t, ReconstructPath_loop fuel (previous st) start target u path = Some r ∧
           rtc (pred_link (previous st)) u t ∧ (t = start ∨ previous st !! t = None).
Proof.
  intros I. induction i as [i IH] using lt_wf_ind. intros u fuel path Hu Hfuel.
  destruct fuel as [|fuel]; [lia|]. cbn.
  destruct (decide (u = start)) as [->|Hne].
  { eexists _, start. split; [done|]. split; [apply rtc_refl|by left]. }
  destruct (previous st !! u) as [p|] eqn:Hp.
  - destruct (inv_prev_order _ _ _ _ _ _ I u p Hp) as (i' & Hi' & Hlt).
    specialize (Hlt i Hu).
    destruct (IH i' Hlt p fuel (u :: path) Hi') as (r & t & Hr & Hrt & Ht); [lia|].
    exists r, t. split; [done|]. split; [|done]. by eapply rtc_l.
  - eexists _, u. split; [done|]. split; [apply rtc_refl|by right].
Qed.

Lemma ReconstructPath_terminates cur pending vs st target fuel :
  dijkstra_inv g start cur pending vs st →
  (S (length vs) ≤ fuel)%nat →
  ∃ r t, ReconstructPath fuel (previous st) start target = Some r ∧
         rtc (pred_link (previous st)) target t ∧
         (t = start ∨ previous st !! t = None).
Proof.
  intros I Hfuel. unfold ReconstructPath.
  destruct fuel as [|fuel]; [lia|]. cbn.
  destruct (decide (target = start)) as [->|Hne].
  { eexists _, start. split; [done|]. split; [apply rtc_refl|by left]. }
  destruct (previous st !! target) as [p|] eqn:Hp.
  - destruct (inv_prev_order _ _ _ _ _ _ I target p Hp) as (i & Hi & _).
    pose proof (lookup_lt_Some _ _ _ Hi) as Hlen.
    destruct (ReconstructPath_loop_visited _ _ _ _ target i I p fuel [target] Hi)
      as (r & t & Hr & Hrt & Ht); [lia|].
    exists r, t. split; [done|]. split; [|done]. by eapply rtc_l.
  - eexists _, target. split; [done|]. split; [apply rtc_refl|by right].
Qed.

(** C6: for a graph with non-negative weights and a start node of the
    graph, [Dijkstra] returns, and every result it returns gives the
    start node the distance 0 and every node of the graph that cannot be
    reached from the start node the distance [+Inf]; [ReconstructPath]
    to such a node fails with "no path found". *)
Theorem C6_source_zero_unreachable_infinite :
  is_Some (Nodes g !! start) →
  (∃ r, Dijkstra start (Some g) (Ok r)) ∧
  ∀ distances previous,
    Dijkstra start (Some g) (Ok (distances, previous)) →
    distances !! start = Some f_zero ∧
    ∀ v, is_Some (Nodes g !! v) → ¬ reachable g start v →
      distances !! v = Some f_inf ∧
      ∀ fuel, ReconstructPath (S fuel) previous start v
              = Some (Err ("no path found from " +:+ start +:+ " to " +:+ v)).
Proof.
  intros Hstart. split; [by apply Dijkstra_returns|].
  intros distances0 previous0 (cur & vs & st & I & Hdone & <- & <-)%Dijkstra_Ok_inv.
  split; [apply I|]. intros v [b Hv] Hunreach.
  assert (Hne : v ≠ start) by (intros ->; apply Hunreach, rtc_refl).
  assert (Hprev : previous st !! v = None).
  { destruct (previous st !! v) eqn:E; [|done]. exfalso.
    apply Hunreach, (inv_reach _ _ _ _ _ _ I). right. eauto. }
  split.
  - by rewrite (inv_untouched _ _ _ _ _ _ I v Hne Hprev), Hv.
  - intros fuel. unfold ReconstructPath. cbn.
    by rewrite decide_False, Hprev.
Qed.

(** The triangle inequality holds along every edge whose origin is a
    node of the graph. *)
Lemma triangle_inequality cur vs st v w c :
  dijkstra_inv g start cur [] vs st → priorityQueue st = [] →
  is_Some (Nodes g !! v) → weight g v w = Some c →
  f_le (dist_at (distances st) w) (f_add (dist_at (distances st) v) c).
Proof.
  intros I Hdone [b Hv] Hedge.
  destruct (decide (v ∈ visited st)) as [Hvis|Hvis].
  - destruct (inv_relaxed _ _ _ _ _ _ I v w c Hvis Hedge) as [[_ Hin]|?]; [|done].
    by apply elem_of_nil in Hin.
  - destruct (final_unvisited_untouched _ _ _ _ I Hdone Hvis) as [Hne Hprev].
    pose proof (inv_untouched _ _ _ _ _ _ I v Hne Hprev) as Hdv.
    rewrite Hv in Hdv. cbn in Hdv. unfold dist_at at 2. rewrite Hdv. cbn.
    pose proof (Hnn _ _ _ Hedge) as Hc.
    pose proof (dist_at_nonneg (distances st) w (inv_nonneg _ _ _ _ _ _ I)) as [Hw _].
    unfold f_le. destruct (f_ltb (f_add f_inf c) (dist_at (distances st) w)) eqn:Hlt; [|done].
    destruct (f_ltb_cotrans _ f_inf _ f_inf_valid Hlt) as [Hlt'|Hlt'].
    + by rewrite (f_add_le f_inf c Hc) in Hlt'.
    + by rewrite f_inf_top in Hlt'.
Qed.

(** C7: for a graph with non-negative weights and a start node of the
    graph, [Dijkstra] returns, and every result it returns satisfies
    [dist(w) <= dist(v) + weight(v, w)] for every edge [(v, w)] between
    nodes of the graph, reachable from the start node or not. *)
Theorem C7_triangle_inequality :
  is_Some (Nodes g !! start) →
  (∃ r, Dijkstra start (Some g) (Ok r)) ∧
  ∀ distances previous,
    Dijkstra start (Some g) (Ok (distances, previous)) →
    ∀ v w c, is_Some (Nodes g !! v) → is_Some (Nodes g !! w) →
      weight g v w = Some c →
      ∃ dv dw, distances !! v = Some dv ∧ distances !! w = Some dw ∧
               f_le dw (f_add dv c).
Proof.
  intros Hstart. split; [by apply Dijkstra_returns|].
  intros distances0 previous0 (cur & vs & st & I & Hdone & <- & <-)%Dijkstra_Ok_inv.
  intros v w c Hv Hw Hedge.
  pose proof (triangle_inequality _ _ _ v w c I Hdone Hv Hedge) as Hle.
  destruct (inv_dom _ _ _ _ _ _ I v Hv) as [dv Hdv].
  destruct (inv_dom _ _ _ _ _ _ I w Hw) as [dw Hdw].
  exists dv, dw. unfold dist_at in Hle. by rewrite Hdv, Hdw in Hle.
Qed.

(** C9: for a graph with non-negative weights and a start node of the
    graph, [Dijkstra] returns, and in every result it returns the
    predecessor map has no entry for the start node and every node with
    a predecessor entry has a recorded distance below [+Inf]. *)
Theorem C9_predecessor_entries :
  is_Some (Nodes g !! start) →
  (∃ r, Dijkstra start (Some g) (Ok r)) ∧
  ∀ distances previous,
    Dijkstra start (Some g) (Ok (distances, previous)) →
    previous !! start = None ∧
    ∀ v u, previous !! v = Some u → ∃ d, distances !! v = Some d ∧ f_finite d.
Proof.
  intros Hstart. split; [by apply Dijkstra_returns|].
  intros distances0 previous0 (cur & vs & st & I & Hdone & <- & <-)%Dijkstra_Ok_inv.
  split; apply I.
Qed.

(** C10: for a graph with non-negative weights and a start node of the
    graph, [Dijkstra] returns, and in every result it returns the
    predecessor links form no cycle; from every target the links lead
    to the start node or to a node without predecessor entry, and
    [ReconstructPath] returns within a bound on the iterations that does
    not depend on the target. *)
Theorem C10_predecessors_acyclic :
  is_Some (Nodes g !! start) →
  (∃ r, Dijkstra start (Some g) (Ok r)) ∧
  ∀ distances previous,
    Dijkstra start (Some g) (Ok (distances, previous)) →
    (∀ v, ¬ tc (pred_link previous) v v) ∧
    ∃ n, ∀ target fuel, (n ≤ fuel)%nat →
      ∃ r t, ReconstructPath fuel previous start target = Some r ∧
             rtc (pred_link previous) target t ∧
             (t = start ∨ previous !! t = None).
Proof.
  intros Hstart. split; [by apply Dijkstra_returns|].
  intros distances0 previous0 (cur & vs & st & I & Hdone & <- & <-)%Dijkstra_Ok_inv.
  split.
  - intros v. by eapply pred_acyclic.
  - exists (S (length vs)). intros target fuel Hfuel.
    by eapply ReconstructPath_terminates.
Qed.

(** *** Predecessor entries are edges, and distances are walk costs *)

Lemma relax_target_unvisited cur w c pending vs st :
  dijkstra_inv g start cur ((w, c) :: pending) vs st →
  f_ltb (f_add (dist_at (distances st) cur) c) (dist_at (distances st) w) = true →
  w ∉ visited st.
Proof.
  intros I Hlt Hw.
  destruct (inv_pending _ _ _ _ _ _ I w c) as [Hcur Hedge]; [by left|].
  pose proof (Hnn _ _ _ Hedge) as Hc.
  pose proof (dist_at_nonneg (distances st) cur (inv_nonneg _ _ _ _ _ _ I)) as Hdcur.
  eapply f_le_lt_false; [|exact Hlt].
  eapply f_le_trans; [apply Hdcur|by eapply inv_mono|by apply f_add_le].
Qed.

Lemma relax_inv2 cur w c pending vs st :
  dijkstra_inv g start cur ((w, c) :: pending) vs st →
  dijkstra_inv2 g st → dijkstra_inv2 g (relax cur st (w, c)).
Proof.
  intros I I2.
  destruct (inv_pending _ _ _ _ _ _ I w c) as [Hcur Hedge]; [by left|].
  unfold relax. cbn.
  destruct (f_ltb _ _) eqn:Hlt; [|done].
  pose proof (relax_target_unvisited _ _ _ _ _ _ I Hlt) as Hw.
  assert (Hkeep : ∀ v, v ∈ visited st →
            dist_at (<[w:=f_add (dist_at (distances st) cur) c]> (distances st)) v
            = dist_at (distances st) v).
  { intros v Hv. rewrite dist_at_insert. case_decide; [by subst|done]. }
  split; cbn.
  - intros v u. destruct (decide (w = v)) as [->|Hne].
    + rewrite lookup_insert_eq. intros [= <-]. split; [done|].
      exists c. split; [done|].
      rewrite dist_at_insert, decide_True by done. by rewrite (Hkeep cur Hcur).
    + rewrite lookup_insert_ne by done. intros Hvu.
      destruct (inv2_pred _ _ I2 v u Hvu) as (Hu & c' & Hc' & Hd). split; [done|].
      exists c'. split; [done|]. rewrite (Hkeep u Hu).
      by rewrite dist_at_insert, decide_False.
  - intros v. destruct (decide (w = v)) as [->|Hne].
    + rewrite lookup_insert_eq, <- (inv2_keys _ _ I2).
      split; [intros _|eauto].
      destruct (distances st !! v) as [d0|] eqn:Hd0; [eauto|]. exfalso.
      unfold dist_at at 2 in Hlt. rewrite Hd0 in Hlt. cbn in Hlt.
      eapply f_nonneg_not_lt_zero; [|exact Hlt].
      apply f_add_nonneg; [|by eapply Hnn].
      apply dist_at_nonneg, (inv_nonneg _ _ _ _ _ _ I).
    + rewrite lookup_insert_ne by done. apply (inv2_keys _ _ I2).
Qed.

Lemma relax_fold_inv2 cur kvs : ∀ vs st,
  dijkstra_inv g start cur kvs vs st →
  dijkstra_inv2 g st → dijkstra_inv2 g (fold_left (relax cur) kvs st).
Proof.
  induction kvs as [|[w c] kvs IH]; intros vs st I I2; cbn; [done|].
  eapply IH; [by apply relax_inv|by eapply relax_inv2].
Qed.

Lemma step_inv2 cur vs st st' :
  dijkstra_inv g start cur [] vs st → dijkstra_inv2 g st →
  dijkstra_step g st st' → dijkstra_inv2 g st'.
Proof.
  intros I I2 Hstep.
  destruct Hstep as [st it rest Hpop Hvis|st it rest kvs Hpop Hvis Hkvs].
  - split; apply I2.
  - eapply relax_fold_inv2; [by eapply visit_inv|].
    split; cbn; [|apply I2].
    intros v u Hvu. destruct (inv2_pred _ _ I2 v u Hvu) as (Hu & Hc).
    split; [|done]. apply elem_of_union. by right.
Qed.

Lemma init_inv2 : is_Some (Nodes g !! start) → dijkstra_inv2 g (dijkstra_init g start).
Proof.
  intros Hstart. split; cbn.
  - intros v u Hvu. by rewrite lookup_empty in Hvu.
  - intros v. destruct (decide (start = v)) as [->|Hne].
    + rewrite lookup_insert_eq. split; eauto.
    + rewrite lookup_insert_ne, lookup_fmap by done.
      destruct (Nodes g !! v); cbn; split; intros [? ?]; eauto; done.
Qed.

Lemma run_inv2 st :
  is_Some (Nodes g !! start) →
  rtc (dijkstra_step g) (dijkstra_init g start) st →
  ∃ cur vs, dijkstra_inv g start cur [] vs st ∧ dijkstra_inv2 g st.
Proof.
  intros Hstart. revert st. apply rtc_ind_r.
  - exists start, []. split; [apply init_inv|by apply init_inv2].
  - intros st1 st2 _ Hstep (cur & vs & I & I2).
    destruct (step_inv _ _ _ _ I Hstep) as (cur' & vs' & I').
    exists cur', vs'. split; [done|]. exact (step_inv2 _ _ _ _ I I2 Hstep).
Qed.

Lemma Dijkstra_Ok_inv2 distances0 previous0 :
  Dijkstra start (Some g) (Ok (distances0, previous0)) →
  ∃ cur vs st, dijkstra_inv g start cur [] vs st ∧ dijkstra_inv2 g st ∧
               priorityQueue st = [] ∧
               distances st = distances0 ∧ previous st = previous0.
Proof.
  inversion 1 as [| |g' st Hstart Hrun Hdone]; subst.
  destruct (run_inv2 st Hstart Hrun) as (cur & vs & I & I2). by exists cur, vs, st.
Qed.

(** X19: on a graph without negative or NaN weights, in every result of
    [Dijkstra] a predecessor entry [u] of [v] is an edge of the graph
    and the distance of [v] is the distance of [u] plus the weight of
    that edge, bit for bit. *)
Theorem Dijkstra_predecessor_edge :
  ∀ distances previous,
    Dijkstra start (Some g) (Ok (distances, previous)) →
    ∀ v u, previous !! v = Some u →
      ∃ c du dv, weight g u v = Some c ∧
                 distances !! u = Some du ∧ distances !! v = Some dv ∧
                 dv = f_add du c.
Proof.
  intros distances0 previous0
    (cur & vs & st & I & I2 & Hdone & <- & <-)%Dijkstra_Ok_inv2 v u Hvu.
  destruct (inv2_pred _ _ I2 v u Hvu) as (Hu & c & Hc & Hd).
  destruct (inv_prev_finite _ _ _ _ _ _ I v u Hvu) as (dv & Hdv & _).
  assert (is_Some (distances st !! u)) as [du Hdu].
  { destruct (inv_visited_touched _ _ _ _ _ _ I u Hu) as [->|[p Hp]].
    - rewrite (inv_start _ _ _ _ _ _ I). eauto.
    - destruct (inv_prev_finite _ _ _ _ _ _ I u p Hp) as (d & Hd' & _). eauto. }
  exists c, du, dv. unfold dist_at in Hd. rewrite Hdu, Hdv in Hd. done.
Qed.

Lemma pred_chain_touched cur pending vs st a t :
  dijkstra_inv g start cur pending vs st → dijkstra_inv2 g st →
  touched start st a → rtc (pred_link (previous st)) a t → touched start st t.
Proof.
  intros I I2 Ha Hrt. induction Hrt as [|a b t Hab _ IH]; [done|].
  apply IH. destruct (inv2_pred _ _ I2 a b Hab) as [Hb _].
  by apply (inv_visited_touched _ _ _ _ _ _ I).
Qed.

Lemma pred_chain_cost st : ∀ path a,
  dijkstra_inv2 g st → pred_chain (previous st) (a :: path) →
  ∃ t, last (a :: path) = Some t ∧
       path_cost g (dist_at (distances st) a) (a :: path)
       = Some (dist_at (distances st) t).
Proof.
  induction path as [|b path IH]; intros a I2 Hchain.
  - exists a. done.
  - destruct Hchain as [Hab Hchain].
    destruct (inv2_pred _ _ I2 b a Hab) as (_ & c & Hc & Hd).
    destruct (IH b I2 Hchain) as (t & Ht & Hcost).
    exists t. split; [done|].
    change (path_cost g (dist_at (distances st) a) (a :: b :: path))
      with (weight g a b ≫= fun c => path_cost g (f_add (dist_at (distances st) a) c) (b :: path)).
    rewrite Hc. cbn [mbind option_bind]. by rewrite <- Hd.
Qed.


(** A touched target has a path: enough iterations give a path from
    [start] to the target whose cost is the distance of the target. *)
Lemma touched_path cur vs st target fuel :
  dijkstra_inv g start cur [] vs st → dijkstra_inv2 g st →
  touched start st target → (S (length vs) ≤ fuel)%nat →
  ∃ pre, ReconstructPath fuel (previous st) start target = Some (Ok (start :: pre)) ∧
         last (start :: pre) = Some target ∧
         pred_chain (previous st) (start :: pre) ∧
         path_cost g f_zero (start :: pre) = Some (dist_at (distances st) target).
Proof.
  intros I I2 Htouched Hfuel.
  destruct (ReconstructPath_terminates _ _ _ _ target fuel I Hfuel) as (r & _ & Hr & _).
  destruct r as [path|e|].
  - pose proof Hr as Hr'. unfold ReconstructPath in Hr'.
    destruct (ReconstructPath_loop_Ok _ _ _ _ _ _ _ Hr') as (pre & Hpath & Hlast & Hchain & _).
    rewrite app_nil_r in Hpath. subst path.
    exists pre. split; [done|]. split; [done|]. split; [done|].
    destruct (pred_chain_cost st pre start I2 Hchain) as (t & Ht & Hcost).
    rewrite Hlast in Ht. injection Ht as <-.
    unfold dist_at at 1 in Hcost. by rewrite (inv_start _ _ _ _ _ _ I) in Hcost.
  - exfalso. destruct (ReconstructPath_loop_Err _ _ _ _ _ _ _ Hr) as (_ & t & Hrt & Hne & Hnone).
    destruct (pred_chain_touched _ _ _ _ _ _ I I2 Htouched Hrt) as [?|[? Hsome]]; congruence.
  - exfalso. by eapply ReconstructPath_never_Panic.
Qed.

Lemma not_inf_touched cur vs st target d :
  dijkstra_inv g start cur [] vs st → dijkstra_inv2 g st →
  distances st !! target = Some d → f_eqb d f_inf = false →
  touched start st target.
Proof.
  intros I I2 Hd Hne.
  destruct (decide (target = start)) as [->|Hts]; [by left|]. right.
  destruct (previous st !! target) eqn:Hp; [eauto|]. exfalso.
  pose proof (inv_untouched _ _ _ _ _ _ I target Hts Hp) as Hu.
  assert (is_Some (Nodes g !! target)) as [b Hb] by (apply (inv2_keys _ _ I2); eauto).
  rewrite Hb, Hd in Hu. injection Hu as ->.
  pose proof (f_inf_valid (F:=F)) as Hv. unfold f_valid in Hv. congruence.
Qed.

(** X20: on a graph without negative or NaN weights, in every result of
    [Dijkstra] a target whose distance is not [+Inf] (the test [main]
    makes before it reconstructs) has a path: with enough iterations
    [ReconstructPath] returns a walk from [start] to the target along
    edges of the graph, and the edge weights of the walk add up to the
    distance of the target. *)
Theorem Dijkstra_path_to_finite_target :
  ∀ distances previous,
    Dijkstra start (Some g) (Ok (distances, previous)) →
    ∀ target d, distances !! target = Some d → f_eqb d f_inf = false →
      ∃ n, ∀ fuel, (n ≤ fuel)%nat →
        ∃ pre, ReconstructPath fuel previous start target = Some (Ok (start :: pre)) ∧
               last (start :: pre) = Some target ∧
               path_cost g f_zero (start :: pre) = Some d.
Proof.
  intros distances0 previous0
    (cur & vs & st & I & I2 & Hdone & <- & <-)%Dijkstra_Ok_inv2 target d Hd Hne.
  pose proof (not_inf_touched _ _ _ _ _ I I2 Hd Hne) as Htouched.
  exists (S (length vs)). intros fuel Hfuel.
  destruct (touched_path _ _ _ target fuel I I2 Htouched Hfuel)
    as (pre & Hr & Hlast & _ & Hcost).
  exists pre. unfold dist_at in Hcost. rewrite Hd in Hcost. done.
Qed.

(** The distance of the end of a walk through nodes of the graph is at
    most the cost of the walk. *)
Lemma walk_lower_bound `{!Float64AddMono F} cur vs st :
  dijkstra_inv g start cur [] vs st → priorityQueue st = [] →
  ∀ path a acc K v,
    Forall (fun v => is_Some (Nodes g !! v)) (a :: path) →
    f_le (dist_at (distances st) a) acc →
    path_cost g acc (a :: path) = Some K →
    last (a :: path) = Some v →
    f_le (dist_at (distances st) v) K.
Proof.
  intros I Hdone. induction path as [|b path IH]; intros a acc K v Hnodes Hle Hcost Hlast.
  - cbn in *. by simplify_eq.
  - apply Forall_cons in Hnodes as [Ha Hnodes].
    change (path_cost g acc (a :: b :: path))
      with (weight g a b ≫= fun c => path_cost g (f_add acc c) (b :: path)) in Hcost.
    destruct (weight g a b) as [c|] eqn:Hc; [|done]. cbn [mbind option_bind] in Hcost.
    eapply (IH b (f_add acc c)); [done| |done|done].
    pose proof (triangle_inequality _ _ _ a b c I Hdone Ha Hc) as Htri.
    eapply f_le_trans; [|exact Htri|by apply f_add_mono].
    apply f_add_nonneg; [|by eapply Hnn].
    apply dist_at_nonneg, (inv_nonneg _ _ _ _ _ _ I).
Qed.

(** X21: on a graph without negative or NaN weights, and when rounded
    addition is monotone, as that of IEEE-754 is: in every result of
    [Dijkstra], the distance of a node is at most the cost of every
    walk from [start] to it through nodes of the graph, the cost added
    up edge by edge from zero.  No walk is shorter than the recorded
    distance. *)
Theorem Dijkstra_distance_lower_bound `{!Float64AddMono F} :
  ∀ distances previous,
    Dijkstra start (Some g) (Ok (distances, previous)) →
    ∀ path K v,
      Forall (fun v => is_Some (Nodes g !! v)) (start :: path) →
      path_cost g f_zero (start :: path) = Some K →
      last (start :: path) = Some v →
      ∃ dv, distances !! v = Some dv ∧ f_le dv K.
Proof.
  intros distances0 previous0
    (cur & vs & st & I & Hdone & <- & <-)%Dijkstra_Ok_inv path K v Hnodes Hcost Hlast.
  assert (is_Some (Nodes g !! v)) as Hv.
  { rewrite Forall_forall in Hnodes. apply Hnodes.
    apply last_Some in Hlast as [l' ->]. apply elem_of_app. right. by left. }
  destruct (inv_dom _ _ _ _ _ _ I v Hv) as [dv Hdv]. exists dv. split; [done|].
  pose proof (walk_lower_bound _ _ _ I Hdone path start f_zero K v Hnodes) as Hle.
  unfold dist_at in Hle. rewrite (inv_start _ _ _ _ _ _ I), Hdv in Hle. cbn in Hle.
  apply Hle; [apply f_le_refl|done|done].
Qed.



(** X23: on a graph without negative or NaN weights, the distance map
    of every result of [Dijkstra] has exactly the keys of [Nodes], and
    every distance in it is a number that is not less than zero. *)
Theorem Dijkstra_distances_keys :
  ∀ distances previous,
    Dijkstra start (Some g) (Ok (distances, previous)) →
    ∀ v, (is_Some (distances !! v) ↔ is_Some (Nodes g !! v)) ∧
         (∀ d, distances !! v = Some d → f_nonneg d).
Proof.
  intros distances0 previous0
    (cur & vs & st & I & I2 & Hdone & <- & <-)%Dijkstra_Ok_inv2 v.
  split; [apply (inv2_keys _ _ I2)|].
  intros d Hd. by apply (inv_nonneg _ _ _ _ _ _ I v).
Qed.


End DijkstraProofs.

(** ** The theorems on a concrete graph *)

Lemma RunExact_run_ops : run_ops RunExact.ops = Ok RunExact.g.
Proof. vm_compute. reflexivity. Qed.

Lemma RunExact_nonneg : graph_nonneg RunExact.g.
Proof.
  apply (run_ops_nonneg RunExact.ops); [|apply RunExact_run_ops].
  repeat constructor.
Qed.

Lemma RunExact_start : is_Some (Nodes RunExact.g !! "a").
Proof. vm_compute. eauto. Qed.

Lemma RunExact_z_node : is_Some (Nodes RunExact.g !! "z").
Proof. vm_compute. eauto. Qed.

Lemma RunExact_z_isolated : Neighbors RunExact.g !! "z" = Some ∅.
Proof. vm_compute. reflexivity. Qed.

(** No edge leads to "z": by symmetry it would be an edge from "z". *)
Lemma RunExact_z_unreachable : ¬ reachable RunExact.g "a" "z".
Proof.
  intros [[=]|(y & _ & [c Hyz])]%rtc_inv_r.
  destruct (run_ops_invariant _ _ RunExact_run_ops) as (_ & Hsym & _).
  apply Hsym in Hyz. unfold weight in Hyz.
  rewrite RunExact_z_isolated in Hyz. cbn in Hyz. by rewrite lookup_empty in Hyz.
Qed.

(** The run of the executable schedule on the concrete graph: distances
    a:0 b:1 c:3 d:3 z:+Inf, predecessors b:a c:b d:c. *)
Example Dijkstra_exec_RunExact :
  Dijkstra_exec 14 (Some RunExact.g) "a"
  = Some (Ok (RunExact.distances, RunExact.previous)).
Proof. vm_compute. reflexivity. Qed.

(** That result is a result of [Dijkstra]. *)
Example Dijkstra_RunExact :
  Dijkstra "a" (Some RunExact.g) (Ok (RunExact.distances, RunExact.previous)).
Proof.
  apply (@Dijkstra_exec_sound Exact.num _ Exact_laws RunExact.g "a" RunExact_nonneg 14).
  apply Dijkstra_exec_RunExact.
Qed.

Example ReconstructPath_RunExact :
  ReconstructPath 3 RunExact.previous "a" "d" = Some (Ok ["a"; "b"; "c"; "d"]) ∧
  ReconstructPath 1 RunExact.previous "a" "z" = Some (Err "no path found from a to z") ∧
  ReconstructPath 2 RunExact.previous "a" "d" = None.
Proof. repeat split; vm_compute; reflexivity. Qed.

(** The sample network on binary64: the route from TS1 to EC1 is
    [TS1; H1; EC1], of length 0x1.c48c6001f0acp+2 (about 7.07). *)
Example sample_route_TS1_EC1 :
  ∃ g distances previous,
    BuildNetworkGraph Run.telecomSites Run.hubs Run.emergencyCenters = Ok g ∧
    Dijkstra_exec 100 (Some g) "TS1" = Some (Ok (distances, previous)) ∧
    ReconstructPath 10 previous "TS1" "EC1" = Some (Ok ["TS1"; "H1"; "EC1"]) ∧
    distances !! "EC1" = Some 0x1.c48c6001f0acp+2%float.
Proof.
  eexists _, _, _. split; [vm_compute; reflexivity|].
  split; [vm_compute; reflexivity|]. split; vm_compute; reflexivity.
Qed.

(** C6 on the concrete graph: from "a", the distance of "a" is 0, the
    isolated node "z" has distance [+Inf] and no path. *)
Lemma C6_witness :
  RunExact.distances !! "a" = Some (Exact.Fin 0) ∧
  RunExact.distances !! "z" = Some Exact.PInf ∧
  ReconstructPath 1 RunExact.previous "a" "z" = Some (Err "no path found from a to z").
Proof.
  destruct (@C6_source_zero_unreachable_infinite Exact.num _ Exact_laws RunExact.g "a"
              RunExact_nonneg RunExact_start) as [_ Hall].
  destruct (Hall _ _ Dijkstra_RunExact) as [Ha Hunreach].
  destruct (Hunreach "z" RunExact_z_node RunExact_z_unreachable) as [Hz Hpath].
  split; [exact Ha|]. split; [exact Hz|exact (Hpath 0%nat)].
Defined.

(** C7 on the concrete graph: the edge from "b" to "c" of weight 2. *)
Lemma C7_witness :
  ∃ dv dw, RunExact.distances !! "b" = Some dv ∧ RunExact.distances !! "c" = Some dw ∧
           f_le dw (f_add dv (Exact.Fin 2)).
Proof.
  destruct (@C7_triangle_inequality Exact.num _ Exact_laws RunExact.g "a"
              RunExact_nonneg RunExact_start) as [_ Hall].
  apply (Hall _ _ Dijkstra_RunExact "b" "c" (Exact.Fin 2)).
  - vm_compute. eauto.
  - vm_compute. eauto.
  - vm_compute. reflexivity.
Defined.

(** C9 on the concrete graph: "a" has no predecessor and "c", whose
    predecessor is "b", has a finite distance. *)
Lemma C9_witness :
  RunExact.previous !! "a" = None ∧
  ∃ d, RunExact.distances !! "c" = Some d ∧ f_finite d.
Proof.
  destruct (@C9_predecessor_entries Exact.num _ Exact_laws RunExact.g "a"
              RunExact_nonneg RunExact_start) as [_ Hall].
  destruct (Hall _ _ Dijkstra_RunExact) as [Ha Hfin].
  split; [exact Ha|]. apply (Hfin "c" "b"). vm_compute. reflexivity.
Defined.

(** C10 on the concrete graph: the predecessor map b:a c:b d:c. *)
Lemma C10_witness :
  (∀ v, ¬ tc (pred_link RunExact.previous) v v) ∧
  ∃ n, ∀ target fuel, (n ≤ fuel)%nat →
    ∃ r t, ReconstructPath fuel RunExact.previous "a" target = Some r ∧
           rtc (pred_link RunExact.previous) target t ∧
           (t = "a" ∨ RunExact.previous !! t = None).
Proof.
  destruct (@C10_predecessors_acyclic Exact.num _ Exact_laws RunExact.g "a"
              RunExact_nonneg RunExact_start) as [_ Hall].
  exact (Hall _ _ Dijkstra_RunExact).
Defined.

(** * Further properties *)

(** ** FindNearestEmergencyCenter: rejected sites and the result *)

Section KNN.
Context {F : Type} `{Float64 F}.

(** X1: a site with an empty identifier or with the location (0, 0) is
    rejected with "invalid TelecomSite data", whatever the centers. *)
Theorem FindNearestEmergencyCenter_rejects_invalid_site
    (site : TelecomSite F) (centers : list (EmergencyCenter F)) :
  site_ID site = "" ∨ Point_eqb (site_Location site) Point_zero = true →
  FindNearestEmergencyCenter site centers = Err "invalid TelecomSite data".
Proof.
  intros Hbad. unfold FindNearestEmergencyCenter, site_Validate.
  destruct Hbad as [Hid|Hloc]; [by rewrite Hid|]. by rewrite Hloc, orb_true_r.
Qed.

Lemma site_Validate_None (site : TelecomSite F) :
  site_Validate site = None ↔
  site_ID site ≠ "" ∧ Point_eqb (site_Location site) Point_zero = false.
Proof.
  unfold site_Validate.
  destruct (String.eqb (site_ID site) "") eqn:Hid; cbn.
  - apply String.eqb_eq in Hid. split; [done|]. by intros [? _].
  - apply String.eqb_neq in Hid.
    destruct (Point_eqb _ _); split; try done; by intros [? ?].
Qed.

Lemma nearest_fold_member (site : TelecomSite F) (centers : list (EmergencyCenter F)) :
  ∀ c0 d0,
    (fold_left (nearest_step site) centers (c0, d0) = (c0, d0) ∧
     Forall (fun x => f_ltb (center_distance site x) d0 = false) centers) ∨
    (fold_left (nearest_step site) centers (c0, d0)).1 ∈ centers.
Proof.
  induction centers as [|x centers IH]; intros c0 d0; cbn [fold_left].
  - left. split; [done|constructor].
  - rewrite nearest_step_eq.
    destruct (f_ltb (center_distance site x) d0) eqn:Hlt.
    + right. destruct (IH x (center_distance site x)) as [[-> _]|Hin].
      * by left.
      * by right.
    + destruct (IH c0 d0) as [[Heq Hall]|Hin].
      * left. split; [done|]. by constructor.
      * right. by right.
Qed.

(** X2: for a valid site the search never fails; its result is a center
    of the list, or the zero-valued center when no center of the list
    is nearer than [math.MaxFloat64].  The centers are not validated. *)
Theorem FindNearestEmergencyCenter_result
    (site : TelecomSite F) (centers : list (EmergencyCenter F)) :
  site_ID site ≠ "" → Point_eqb (site_Location site) Point_zero = false →
  ∃ c, FindNearestEmergencyCenter site centers = Ok c ∧
       (c ∈ centers ∨
        (c = EmergencyCenter_zero ∧
         Forall (fun x => f_ltb (center_distance site x) f_max = false) centers)).
Proof.
  intros Hid Hloc. unfold FindNearestEmergencyCenter.
  rewrite (proj2 (site_Validate_None site)) by done.
  eexists. split; [done|].
  destruct (nearest_fold_member site centers EmergencyCenter_zero f_max)
    as [[-> Hall]|Hin]; [right|left]; done.
Qed.

End KNN.

Section KNNLeast.
Context {F : Type} `{Float64 F} `{!Float64Laws F}.

(** X3: for a valid site, distances that are not NaN and a list with a
    center nearer than [math.MaxFloat64], the center returned is in the
    list and no center of the list is nearer to the site. *)
Theorem FindNearestEmergencyCenter_least
    (site : TelecomSite F) (centers : list (EmergencyCenter F)) :
  site_ID site ≠ "" → Point_eqb (site_Location site) Point_zero = false →
  Forall (fun c => f_valid (center_distance site c)) centers →
  Exists (fun c => f_ltb (center_distance site c) f_max = true) centers →
  ∃ c, FindNearestEmergencyCenter site centers = Ok c ∧ c ∈ centers ∧
       Forall (fun x => f_le (center_distance site c) (center_distance site x)) centers.
Proof.
  intros Hid Hloc Hvalid Hnear. unfold FindNearestEmergencyCenter.
  rewrite (proj2 (site_Validate_None site)) by done.
  destruct (nearest_fold site centers Hvalid EmergencyCenter_zero f_max)
    as [[_ Hall]|(l1 & c & l2 & -> & Heq & _ & Hl1 & Hl2)].
  - exfalso. apply Exists_exists in Hnear as (c & Hc & Hlt).
    rewrite Forall_forall in Hall. specialize (Hall c Hc).
    unfold f_le in Hall. congruence.
  - exists c. rewrite Heq. split; [done|]. split.
    { apply elem_of_app. right. by left. }
    apply Forall_app. split; [|constructor; [apply f_le_refl|done]].
    eapply Forall_impl; [exact Hl1|]. intros x Hcx. unfold f_le.
    destruct (f_ltb (center_distance site x) (center_distance site c)) eqn:Hxc; [|done].
    pose proof (f_ltb_trans _ _ _ Hcx Hxc) as Hcc. by rewrite f_ltb_irrefl in Hcc.
Qed.

End KNNLeast.


(** ** FindNearestHubs: sorted input, and the first nearest hub *)

Section SortExtras.
Context {F : Type} `{Float64 F}.
Implicit Types ds pre mid suf : list (hubDistance F).

Lemma select_min_sorted suf : ∀ x,
  Forall (distance_le x) suf → select_min x suf = (x, suf).
Proof.
  induction suf as [|y suf IH]; intros x Hall; cbn; [done|].
  apply Forall_cons in Hall as [Hy Hall].
  unfold distance_le, f_le in Hy. rewrite Hy. by rewrite IH.
Qed.

Lemma sort_outer_sorted suf : ∀ pre x,
  StronglySorted distance_le (x :: suf) →
  sort_outer (length pre) (length suf) (pre ++ x :: suf) = pre ++ x :: suf.
Proof.
  induction suf as [|y suf IH]; intros pre x Hs; cbn; [done|].
  apply StronglySorted_inv in Hs as [Hs Hall].
  pose proof (sort_inner_select_min (y :: suf) pre x []) as Hin. cbn in Hin.
  rewrite length_app. cbn.
  replace (length pre + S (S (length suf)) - S (length pre))%nat
    with (S (length suf)) by lia.
  replace (length pre + 1)%nat with (S (length pre)) in Hin by lia.
  cbn. cbn in Hin. rewrite Hin.
  pose proof (select_min_sorted (y :: suf) x Hall) as Hsel. cbn in Hsel. rewrite Hsel.
  specialize (IH (pre ++ [x]) y Hs). rewrite length_app in IH. cbn in IH.
  replace (length pre + 1)%nat with (S (length pre)) in IH by lia.
  rewrite <- !app_assoc in IH. cbn in IH. done.
Qed.

Lemma sort_distances_sorted ds :
  StronglySorted distance_le ds → sort_distances ds = ds.
Proof.
  intros Hs. unfold sort_distances. destruct ds as [|x suf]; [done|].
  cbn. rewrite Nat.sub_0_r. by apply (sort_outer_sorted suf [] x).
Qed.

Lemma hub_distances_sorted (point : Point F) (hubs : list (Hub F)) :
  StronglySorted (hub_distance_le point) hubs →
  StronglySorted distance_le (hub_distances point hubs).
Proof.
  induction 1 as [|h hubs Hs IH Hall]; cbn; constructor; [done|].
  unfold hub_distances. rewrite Forall_map. done.
Qed.

(** X4: hubs that are already in non-decreasing distance order come
    back in their input order, ties included: the first [N] of the
    input. *)
Theorem FindNearestHubs_sorted_input (point : Point F) (hubs : list (Hub F)) (N : Z) :
  0 < N ≤ Z.of_nat (length hubs) →
  StronglySorted (hub_distance_le point) hubs →
  FindNearestHubs point hubs N = Ok (take (Z.to_nat N) hubs).
Proof.
  intros [HN Hlen] Hs. unfold FindNearestHubs.
  apply Z.leb_gt in HN. apply Z.ltb_ge in Hlen. rewrite HN, Hlen.
  rewrite sort_distances_sorted by (by apply hub_distances_sorted).
  unfold hub_distances. by rewrite <- firstn_map, map_map, map_id.
Qed.

End SortExtras.

Section SortFirst.
Context {F : Type} `{Float64 F} `{!Float64Laws F}.
Implicit Types ds pre mid suf : list (hubDistance F).

Lemma select_min_first suf : ∀ x m r,
  Forall (fun y => f_valid (distance y)) suf →
  select_min x suf = (m, r) →
  ∃ l1 l2, x :: suf = l1 ++ m :: l2 ∧
    Forall (fun y => f_ltb (distance m) (distance y) = true) l1 ∧
    Forall (distance_le m) l2.
Proof.
  induction suf as [|y suf IH]; intros x m r Hv; cbn.
  - intros [= <- <-]. exists [], []. repeat split; constructor.
  - apply Forall_cons in Hv as [Hy Hv].
    destruct (f_ltb (distance y) (distance x)) eqn:Hyx.
    + destruct (select_min y suf) as [m' r'] eqn:E. intros [= <- <-].
      destruct (IH _ _ _ Hv E) as (l1 & l2 & Heq & Hl1 & Hl2).
      exists (x :: l1), l2. rewrite Heq. repeat split; [|done].
      constructor; [|done].
      destruct (select_min_least _ _ _ _ E) as [[->|Hm] _]; [done|].
      by eapply f_ltb_trans.
    + destruct (select_min x suf) as [m' r'] eqn:E. intros [= <- <-].
      destruct (IH _ _ _ Hv E) as (l1 & l2 & Heq & Hl1 & Hl2).
      destruct l1 as [|x' l1]; cbn in Heq.
      * injection Heq as <- <-. exists [], (y :: suf).
        repeat split; [constructor|]. by constructor.
      * injection Heq as <- ->.
        apply Forall_cons in Hl1 as [Hmx Hl1].
        exists (x :: y :: l1), l2. repeat split; [|done].
        constructor; [done|]. constructor; [|done].
        destruct (f_ltb_cotrans _ (distance y) _ Hy Hmx); [done|congruence].
Qed.

Lemma sort_outer_S (i k : nat) ds :
  sort_outer i (S k) ds
  = sort_outer (S i) k (sort_inner i (S i) (length ds - S i) ds).
Proof. reflexivity. Qed.

Lemma sort_distances_head x suf m r :
  select_min x suf = (m, r) →
  ∃ l, sort_distances (x :: suf) = m :: l.
Proof.
  intros E. unfold sort_distances.
  replace (length (x :: suf) - 1)%nat with (length suf) by (cbn; lia).
  destruct suf as [|y suf].
  - cbn in *. injection E as <- <-. eauto.
  - cbn [length]. rewrite sort_outer_S.
    replace (length (x :: y :: suf) - 1)%nat with (length (y :: suf)) by (cbn; lia).
    pose proof (sort_inner_select_min (y :: suf) [] x []) as Hin.
    cbn [length app Nat.add] in Hin |- *. rewrite Hin, E.
    pose proof (select_min_length _ _ _ _ E) as Hr.
    destruct r as [|x' suf']; [done|]. cbn in Hr.
    destruct (sort_outer_spec (length suf) [m] x' suf') as (l & Hl & _); [lia|].
    cbn in Hl. rewrite Hl. eauto.
Qed.

(** X5: with [N = 1] and distances that are not NaN, the hub returned
    is the first hub of the input among those of least distance: every
    hub before it is farther, no hub after it is nearer. *)
Theorem FindNearestHubs_one_first_nearest (point : Point F) (hubs : list (Hub F)) :
  hubs ≠ [] →
  Forall (fun h => f_valid (CalculateDistance point (hub_Location h))) hubs →
  ∃ l1 h l2,
    hubs = l1 ++ h :: l2 ∧
    FindNearestHubs point hubs 1 = Ok [h] ∧
    Forall (fun x => f_ltb (CalculateDistance point (hub_Location h))
                           (CalculateDistance point (hub_Location x)) = true) l1 ∧
    Forall (hub_distance_le point h) l2.
Proof.
  intros Hne Hvalid. destruct hubs as [|h0 hubs]; [done|].
  unfold FindNearestHubs.
  replace (1 <=? 0) with false by done.
  replace (Z.of_nat (length (h0 :: hubs)) <? 1) with false
    by (symmetry; apply Z.ltb_ge; cbn [length]; lia).
  set (d := fun h : Hub F => {| hub := h; distance := CalculateDistance point (hub_Location h) |}).
  change (hub_distances point (h0 :: hubs)) with (d h0 :: map d hubs).
  destruct (select_min (d h0) (map d hubs)) as [m r] eqn:E.
  destruct (sort_distances_head _ _ _ _ E) as [l Hl]. rewrite Hl.
  apply Forall_cons in Hvalid as [_ Hvalid].
  destruct (select_min_first (map d hubs) (d h0) m r) as (l1 & l2 & Heq & Hl1 & Hl2); [|done|].
  { by rewrite Forall_map. }
  change (d h0 :: map d hubs) with (map d (h0 :: hubs)) in Heq.
  apply map_eq_app in Heq as (k1 & k2 & Hk & <- & Hk2).
  apply map_eq_cons in Hk2 as (h & k3 & -> & <- & <-).
  exists k1, h, k3. split; [done|]. split; [done|].
  split.
  - by rewrite Forall_map in Hl1.
  - by rewrite Forall_map in Hl2.
Qed.

End SortFirst.

(** ** Graph: AddNode and AddEdge as operations *)

Section GraphExtras.
Context {F : Type} `{Float64 F}.
Implicit Types g : Graph F.

(** Two graphs with the same node map, the same adjacency keys and the
    same weights are equal. *)
Lemma graph_eq g g' :
  Nodes g = Nodes g' →
  (∀ a, is_Some (Neighbors g !! a) ↔ is_Some (Neighbors g' !! a)) →
  (∀ a b, weight g a b = weight g' a b) →
  g = g'.
Proof.
  destruct g as [N M], g' as [N' M']. cbn. intros -> Hk Hw. f_equal.
  apply map_eq. intros a. specialize (Hk a). specialize (Hw a).
  unfold weight in Hw. cbn in Hw.
  destruct (M !! a) as [m|] eqn:Hm, (M' !! a) as [m'|] eqn:Hm'; cbn in Hw.
  - f_equal. apply map_eq. intros b. apply Hw.
  - destruct Hk as [Hk _]. destruct Hk; [eauto|done].
  - destruct Hk as [_ Hk]. destruct Hk; [eauto|done].
  - done.
Qed.

Lemma AddNode_present g node : is_Some (Nodes g !! node) → AddNode node g = g.
Proof. intros [b Hb]. unfold AddNode. by rewrite Hb. Qed.



Lemma Nodes_AddNode_comm g a b :
  Nodes (AddNode a (AddNode b g)) = Nodes (AddNode b (AddNode a g)).
Proof.
  destruct (decide (a = b)) as [->|Hne]; [done|].
  unfold AddNode.
  destruct (Nodes g !! a) eqn:Ha, (Nodes g !! b) eqn:Hb; cbn;
    rewrite ?Ha, ?Hb; cbn; rewrite ?lookup_insert_ne by done; rewrite ?Ha, ?Hb; cbn;
    try done.
  apply insert_insert_ne. done.
Qed.

Lemma AddEdge_Nodes g from to cost g' :
  AddEdge from to cost g = Ok g' → Nodes g' = Nodes (AddNode to (AddNode from g)).
Proof.
  unfold AddEdge, set_neighbor. cbn.
  destruct (Neighbors (AddNode to (AddNode from g)) !! from); cbn; [|done].
  match goal with |- context [<[from := ?x]> ?m !! to] =>
    destruct (<[from := x]> m !! to) end; cbn; [|done].
  by intros [= <-].
Qed.

(** X8: the edge is undirected: on a graph whose two maps have the same
    keys, [AddEdge a b cost] and [AddEdge b a cost] give the same
    graph. *)
Theorem AddEdge_endpoints_commute g a b cost :
  graph_same_keys g → AddEdge a b cost g = AddEdge b a cost g.
Proof.
  intros Hk.
  destruct (AddEdge_Ok g a b cost Hk) as (g1 & H1 & Hk1 & Hn1 & Hw1).
  destruct (AddEdge_Ok g b a cost Hk) as (g2 & H2 & Hk2 & Hn2 & Hw2).
  rewrite H1, H2. f_equal. apply graph_eq.
  - rewrite (AddEdge_Nodes _ _ _ _ _ H1), (AddEdge_Nodes _ _ _ _ _ H2).
    apply Nodes_AddNode_comm.
  - intros x. rewrite <- (Hk1 x), <- (Hk2 x), Hn1, Hn2. tauto.
  - intros x y. rewrite Hw1, Hw2.
    destruct (decide ((x = a ∧ y = b) ∨ (x = b ∧ y = a))),
             (decide ((x = b ∧ y = a) ∨ (x = a ∧ y = b))); try done; tauto.
Qed.

(** X9: the last weight written for a pair wins: [AddEdge] with [w1]
    and then with [w2] for the same pair gives the graph of the second
    call alone. *)
Theorem AddEdge_overwrites g a b w1 w2 :
  graph_same_keys g →
  (AddEdge a b w1 g ≫= AddEdge a b w2) = AddEdge a b w2 g.
Proof.
  intros Hk.
  destruct (AddEdge_Ok g a b w1 Hk) as (g1 & H1 & Hk1 & Hn1 & Hw1).
  destruct (AddEdge_Ok g1 a b w2 Hk1) as (g2 & H2 & Hk2 & Hn2 & Hw2).
  destruct (AddEdge_Ok g a b w2 Hk) as (g3 & H3 & Hk3 & Hn3 & Hw3).
  rewrite H1. cbn. rewrite H2, H3. f_equal. apply graph_eq.
  - rewrite (AddEdge_Nodes _ _ _ _ _ H2), (AddEdge_Nodes _ _ _ _ _ H3).
    rewrite (AddNode_present g1 a) by (apply Hn1; auto).
    rewrite (AddNode_present g1 b) by (apply Hn1; auto).
    apply (AddEdge_Nodes _ _ _ _ _ H1).
  - intros x. rewrite <- (Hk2 x), <- (Hk3 x), Hn2, Hn3, Hn1. tauto.
  - intros x y. rewrite Hw2, Hw3, Hw1. by case_decide.
Qed.

(** X10: [AddEdge] panics (assignment to an entry of a nil map) on a
    graph value in which [from] is a node without an adjacency map;
    [AddNode] does not repair such a node. *)
Theorem AddEdge_panics_without_adjacency g from to cost :
  is_Some (Nodes g !! from) → Neighbors g !! from = None →
  AddEdge from to cost g = Panic.
Proof.
  intros Hn Hm. unfold AddEdge. rewrite (AddNode_present g from Hn).
  assert (Neighbors (AddNode to g) !! from = None) as Hm'.
  { unfold AddNode. destruct (Nodes g !! to) eqn:Hto; [done|]. cbn.
    rewrite lookup_insert_ne; [done|]. intros ->. destruct Hn. congruence. }
  unfold set_neighbor at 2. by rewrite Hm'.
Qed.

End GraphExtras.

(** ** MinPriorityQueue: Push, Pop and Swap *)

Section PQProofs.
Context {F : Type} `{Float64 F}.
Implicit Types m : pq_mem F.

Lemma pq_at_Some m i p :
  pq_at m i = Some p ↔ 0 ≤ i ∧ pq_slice m !! Z.to_nat i = Some p.
Proof.
  unfold pq_at. destruct (0 <=? i) eqn:Hi.
  - apply Z.leb_le in Hi. tauto.
  - apply Z.leb_gt in Hi. split; [done|]. lia.
Qed.

(** X11: [Push] and then [Pop] gives back the pushed item and the queue
    as it was; the [Index] of the item is -1 afterwards and no other
    item is touched. *)
Theorem pq_Push_Pop m x o :
  pq_store m !! x = Some o →
  pq_Push x m ≫= pq_Pop
  = Ok (x, {| pq_store := <[x := {| obj_item := obj_item o; Index := -1 |}]> (pq_store m);
              pq_slice := pq_slice m |}).
Proof.
  intros Hx. unfold pq_Push, set_Index. rewrite Hx. cbn.
  unfold pq_Pop, pq_Len, pq_at. cbn [pq_slice pq_store].
  rewrite length_app. cbn [length].
  replace (Z.of_nat (length (pq_slice m) + 1) - 1) with (Z.of_nat (length (pq_slice m))) by lia.
  replace (0 <=? Z.of_nat (length (pq_slice m))) with true by (symmetry; apply Z.leb_le; lia).
  rewrite Nat2Z.id, list_lookup_middle by done.
  unfold set_Index. rewrite lookup_insert_eq. cbn.
  by rewrite insert_insert_eq, take_app_length.
Qed.

(** X12: [Pop] panics exactly on the empty queue (index -1) and on a
    queue whose last entry is nil. *)
Theorem pq_Pop_panics m :
  pq_Pop m = Panic ↔
  pq_slice m = [] ∨ ∃ p, last (pq_slice m) = Some p ∧ pq_store m !! p = None.
Proof.
  unfold pq_Pop, pq_Len, pq_at.
  destruct (pq_slice m) as [|p0 l] eqn:Hs using rev_ind.
  - cbn. split; [by left|done].
  - clear IHl. rewrite length_app. cbn [length].
    replace (Z.of_nat (length l + 1) - 1) with (Z.of_nat (length l)) by lia.
    replace (0 <=? Z.of_nat (length l)) with true by (symmetry; apply Z.leb_le; lia).
    rewrite Nat2Z.id, list_lookup_middle by done. rewrite last_snoc.
    unfold set_Index. destruct (pq_store m !! p0) eqn:Hp; cbn.
    + split; [done|]. intros [Heq|(p & [= <-] & Hnone)]; [|congruence].
      by destruct l.
    + split; [|done]. intros _. right. eauto.
Qed.

Lemma pq_indexed_lookup m i p :
  pq_indexed m → pq_slice m !! i = Some p →
  ∃ o, pq_store m !! p = Some o ∧ Index o = Z.of_nat i.
Proof. intros Hm. apply Hm. Qed.

(** In an indexed queue no address occurs twice. *)
Lemma pq_indexed_inj m i j p :
  pq_indexed m → pq_slice m !! i = Some p → pq_slice m !! j = Some p → i = j.
Proof.
  intros Hm Hi Hj. destruct (Hm i p Hi) as (o & Ho & Hio), (Hm j p Hj) as (o' & Ho' & Hjo).
  rewrite Ho in Ho'. injection Ho' as <-. lia.
Qed.

(** X13: [Push] of an item that is not in the queue appends it and
    keeps every item of the queue recording its own position. *)
Theorem pq_Push_indexed m x :
  pq_indexed m → is_Some (pq_store m !! x) → x ∉ pq_slice m →
  ∃ m', pq_Push x m = Ok m' ∧ pq_indexed m' ∧ pq_slice m' = pq_slice m ++ [x].
Proof.
  intros Hm [o Hx] Hnin. unfold pq_Push, set_Index. rewrite Hx. cbn.
  eexists. split; [done|]. split; [|done].
  intros i p. cbn. intros Hi. apply lookup_app_Some in Hi as [Hi|[Hlen Hi]].
  - assert (p ≠ x) by (intros ->; apply Hnin; by eapply list_elem_of_lookup_2).
    rewrite lookup_insert_ne by done. by apply Hm.
  - apply list_lookup_singleton_Some in Hi as [Hi <-].
    rewrite lookup_insert_eq. eexists. split; [done|]. cbn. unfold pq_Len. lia.
Qed.

(** X14: on a queue whose items record their positions, [Pop] removes
    and returns the last item, sets its [Index] to -1 and leaves the
    rest recording their positions. *)
Theorem pq_Pop_indexed m :
  pq_indexed m → pq_slice m ≠ [] →
  ∃ x o m', pq_Pop m = Ok (x, m') ∧ pq_indexed m' ∧
            pq_slice m = pq_slice m' ++ [x] ∧
            pq_store m !! x = Some o ∧
            pq_store m' = <[x := {| obj_item := obj_item o; Index := -1 |}]> (pq_store m).
Proof.
  intros Hm Hne. unfold pq_Pop, pq_Len, pq_at.
  destruct (pq_slice m) as [|x l] eqn:Hs using rev_ind; [done|]. clear IHl.
  rewrite length_app. cbn [length].
  replace (Z.of_nat (length l + 1) - 1) with (Z.of_nat (length l)) by lia.
  replace (0 <=? Z.of_nat (length l)) with true by (symmetry; apply Z.leb_le; lia).
  rewrite Nat2Z.id, list_lookup_middle by done.
  destruct (Hm (length l) x) as (o & Ho & Hio).
  { rewrite Hs. by apply list_lookup_middle. }
  unfold set_Index. rewrite Ho. cbn. rewrite take_app_length.
  eexists x, o, _. split; [done|]. split; [|done].
  intros i p. cbn. intros Hi.
  assert (Hi' : pq_slice m !! i = Some p) by (rewrite Hs; by apply lookup_app_l_Some).
  assert (p ≠ x).
  { intros ->. apply lookup_lt_Some in Hi.
    assert (i = length l); [|lia].
    eapply (pq_indexed_inj m); [done..|]. rewrite Hs. by apply list_lookup_middle. }
  rewrite lookup_insert_ne by done. by apply Hm.
Qed.

Lemma pq_Swap_spec m (i j : nat) pi pj :
  pq_indexed m → pq_slice m !! i = Some pi → pq_slice m !! j = Some pj →
  ∃ m', pq_Swap (Z.of_nat i) (Z.of_nat j) m = Ok m' ∧ pq_indexed m' ∧
        pq_slice m' = <[j := pi]> (<[i := pj]> (pq_slice m)) ∧
        ∀ p, obj_item <$> (pq_store m' !! p) = obj_item <$> (pq_store m !! p).
Proof.
  intros Hm Hi Hj. unfold pq_Swap, pq_at.
  replace (0 <=? Z.of_nat i) with true by (symmetry; apply Z.leb_le; lia).
  replace (0 <=? Z.of_nat j) with true by (symmetry; apply Z.leb_le; lia).
  rewrite !Nat2Z.id, Hi, Hj.
  destruct (Hm i pi Hi) as (oi & Hoi & Hii), (Hm j pj Hj) as (oj & Hoj & Hjj).
  unfold set_Index. rewrite Hoj. cbn.
  destruct (decide (pi = pj)) as [->|Hne].
  - assert (i = j) as -> by (by eapply pq_indexed_inj).
    rewrite lookup_insert_eq. cbn. rewrite insert_insert_eq.
    eexists. split; [done|]. split; [|split; [done|]].
    + intros k p. cbn. rewrite list_insert_insert_eq, list_insert_id by done.
      intros Hk. destruct (decide (p = pj)) as [->|Hp].
      * rewrite lookup_insert_eq. eexists. split; [done|]. cbn.
        f_equal. by eapply pq_indexed_inj.
      * rewrite lookup_insert_ne by done. by apply Hm.
    + intros p. cbn. destruct (decide (p = pj)) as [->|Hp].
      * rewrite lookup_insert_eq, Hoj. done.
      * by rewrite lookup_insert_ne.
  - assert (i ≠ j) by (intros ->; congruence).
    rewrite lookup_insert_ne, Hoi by done. cbn.
    eexists. split; [done|]. split; [|split; [done|]].
    + intros k p. cbn. intros Hk.
      destruct (decide (k = j)) as [->|Hkj].
      * rewrite list_lookup_insert_eq in Hk
          by (rewrite length_insert; by eapply lookup_lt_Some).
        injection Hk as <-. rewrite lookup_insert_eq. eauto.
      * rewrite list_lookup_insert_ne in Hk by done.
        destruct (decide (k = i)) as [->|Hki].
        -- rewrite list_lookup_insert_eq in Hk by (by eapply lookup_lt_Some).
           injection Hk as <-. rewrite lookup_insert_ne, lookup_insert_eq by done. eauto.
        -- rewrite list_lookup_insert_ne in Hk by done.
           assert (p ≠ pi) by (intros ->; apply Hki; by eapply pq_indexed_inj).
           assert (p ≠ pj) by (intros ->; apply Hkj; by eapply pq_indexed_inj).
           rewrite !lookup_insert_ne by done. by apply Hm.
    + intros p. cbn. destruct (decide (p = pi)) as [->|Hpi].
      * by rewrite lookup_insert_eq, Hoi.
      * rewrite lookup_insert_ne by done. destruct (decide (p = pj)) as [->|Hpj].
        -- by rewrite lookup_insert_eq, Hoj.
        -- by rewrite lookup_insert_ne.
Qed.


Lemma pq_Less_swapped m m' (i j : nat) pi pj :
  pq_slice m !! i = Some pi → pq_slice m !! j = Some pj →
  pq_slice m' = <[j := pi]> (<[i := pj]> (pq_slice m)) →
  (∀ p, obj_item <$> (pq_store m' !! p) = obj_item <$> (pq_store m !! p)) →
  pq_Less m' (Z.of_nat i) (Z.of_nat j) = pq_Less m (Z.of_nat j) (Z.of_nat i).
Proof.
  intros Hi Hj Hslice Hitems. unfold pq_Less, pq_at.
  replace (0 <=? Z.of_nat i) with true by (symmetry; apply Z.leb_le; lia).
  replace (0 <=? Z.of_nat j) with true by (symmetry; apply Z.leb_le; lia).
  rewrite !Nat2Z.id, Hi, Hj, Hslice.
  assert (Hj' : <[j := pi]> (<[i := pj]> (pq_slice m)) !! j = Some pi).
  { apply list_lookup_insert_eq. rewrite length_insert. by eapply lookup_lt_Some. }
  assert (Hi' : <[j := pi]> (<[i := pj]> (pq_slice m)) !! i = Some pj).
  { destruct (decide (i = j)) as [->|Hne]; [rewrite Hj'; congruence|].
    rewrite list_lookup_insert_ne by done.
    apply list_lookup_insert_eq. by eapply lookup_lt_Some. }
  rewrite Hi', Hj'. cbn.
  pose proof (Hitems pi) as Hpi. pose proof (Hitems pj) as Hpj.
  destruct (pq_store m' !! pj) as [a'|], (pq_store m !! pj) as [a|]; try done;
    destruct (pq_store m' !! pi) as [b'|], (pq_store m !! pi) as [b|]; try done.
  cbn in Hpi, Hpj. congruence.
Qed.

(** X15: [Swap] of two positions of a queue whose items record their
    positions exchanges the two entries, keeps every item recording its
    position, changes no value or priority, and turns [Less i j] into
    what [Less j i] was. *)
Theorem pq_Swap_indexed m (i j : nat) pi pj :
  pq_indexed m → pq_slice m !! i = Some pi → pq_slice m !! j = Some pj →
  ∃ m', pq_Swap (Z.of_nat i) (Z.of_nat j) m = Ok m' ∧ pq_indexed m' ∧
        pq_slice m' = <[j := pi]> (<[i := pj]> (pq_slice m)) ∧
        (∀ p, obj_item <$> (pq_store m' !! p) = obj_item <$> (pq_store m !! p)) ∧
        pq_Less m' (Z.of_nat i) (Z.of_nat j) = pq_Less m (Z.of_nat j) (Z.of_nat i).
Proof.
  intros Hm Hi Hj.
  destruct (pq_Swap_spec m i j pi pj Hm Hi Hj) as (m' & Heq & Hm' & Hslice & Hitems).
  exists m'. split; [done|]. split; [done|]. split; [done|]. split; [done|].
  by eapply pq_Less_swapped.
Qed.

End PQProofs.

(** ** BuildNetworkGraph: success, errors and the graph built *)

Section Build.
Context {F : Type} `{Float64 F}.
Implicit Types g : Graph F.

Lemma graph_le_refl g : graph_le g g.
Proof. by split. Qed.

Lemma graph_le_trans g1 g2 g3 : graph_le g1 g2 → graph_le g2 g3 → graph_le g1 g3.
Proof. intros [? ?] [? ?]. split; auto. Qed.

Lemma swap_if_less_perm i j (ds : list (hubDistance F)) : swap_if_less i j ds ≡ₚ ds.
Proof.
  unfold swap_if_less.
  destruct (ds !! i) as [di|] eqn:Hi; [|done].
  destruct (ds !! j) as [dj|] eqn:Hj; [|done].
  destruct (f_ltb (distance dj) (distance di)); [|done].
  by apply Permutation_insert_swap.
Qed.

Lemma sort_inner_perm k : ∀ i j (ds : list (hubDistance F)), sort_inner i j k ds ≡ₚ ds.
Proof.
  induction k as [|k IH]; intros i j ds; cbn; [done|].
  by rewrite IH, swap_if_less_perm.
Qed.

Lemma sort_outer_perm k : ∀ i (ds : list (hubDistance F)), sort_outer i k ds ≡ₚ ds.
Proof.
  induction k as [|k IH]; intros i ds; cbn; [done|].
  by rewrite IH, sort_inner_perm.
Qed.

Lemma FindNearestHubs_Ok_inv (point : Point F) hubs N l :
  FindNearestHubs point hubs N = Ok l →
  0 < N ≤ Z.of_nat (length hubs) ∧ length l = Z.to_nat N ∧ ∀ h, h ∈ l → h ∈ hubs.
Proof.
  unfold FindNearestHubs.
  destruct (N <=? 0) eqn:HN; [done|]. apply Z.leb_gt in HN.
  destruct (Z.of_nat (length hubs) <? N) eqn:Hlen; [done|]. apply Z.ltb_ge in Hlen.
  intros [= <-].
  pose proof (sort_outer_perm (length (hub_distances point hubs) - 1) 0
                (hub_distances point hubs)) as Hperm.
  fold (sort_distances (hub_distances point hubs)) in Hperm.
  split; [lia|]. split.
  - rewrite length_map, length_take, (Permutation_length Hperm).
    unfold hub_distances. rewrite length_map. lia.
  - intros h (e & -> & He)%list_elem_of_fmap.
    apply elem_of_take in He as (i & He & _). apply list_elem_of_lookup_2 in He.
    rewrite Hperm in He. unfold hub_distances in He.
    apply list_elem_of_fmap in He as (h' & -> & Hh'). done.
Qed.

Lemma FindNearestHubs_Ok_ex (point : Point F) hubs N :
  0 < N ≤ Z.of_nat (length hubs) → ∃ l, FindNearestHubs point hubs N = Ok l.
Proof.
  intros [HN Hlen]. unfold FindNearestHubs.
  apply Z.leb_gt in HN. apply Z.ltb_ge in Hlen. rewrite HN, Hlen. eauto.
Qed.

Lemma FindNearestHubs_not_enough (point : Point F) hubs N :
  0 < N → Z.of_nat (length hubs) < N →
  FindNearestHubs point hubs N = Err "not enough hubs to find the nearest N hubs".
Proof.
  intros HN Hlen. unfold FindNearestHubs.
  apply Z.leb_gt in HN. apply Z.ltb_lt in Hlen. by rewrite HN, Hlen.
Qed.

Lemma NewGraph_build_inv ents hubs : build_inv ents hubs (NewGraph (F:=F)).
Proof.
  destruct (NewGraph_invariant (F:=F)) as (Hk & Hs & Hc).
  split; [done|done|done| |].
  - intros v [b Hb]. cbn in Hb. by rewrite lookup_empty in Hb.
  - intros x y w Hw. unfold weight in Hw. cbn in Hw. by rewrite lookup_empty in Hw.
Qed.

Lemma AddEdge_build ents hubs g a p h :
  build_inv ents hubs g → (a, p) ∈ ents → h ∈ hubs →
  ∃ g', AddEdge a (hub_ID h) (CalculateDistance p (hub_Location h)) g = Ok g' ∧
        build_inv ents hubs g' ∧ graph_le g g' ∧
        is_Some (Nodes g' !! a) ∧ is_Some (weight g' a (hub_ID h)).
Proof.
  intros I Ha Hh.
  destruct (AddEdge_Ok g a (hub_ID h) (CalculateDistance p (hub_Location h)) (b_keys _ _ _ I))
    as (g' & Heq & Hk' & Hn' & Hw').
  destruct (AddEdge_preserves _ _ _ _ _ (b_keys _ _ _ I) (b_sym _ _ _ I) (b_closed _ _ _ I) Heq)
    as (_ & Hs' & Hc').
  exists g'. split; [done|]. split; [|split; [|split]].
  - split; try done.
    + intros v [->|[->|Hv]]%Hn'.
      * left. apply list_elem_of_fmap. by exists (a, p).
      * right. apply list_elem_of_fmap. by exists h.
      * by apply (b_nodes _ _ _ I).
    + intros x y w. rewrite Hw'. case_decide as Hxy.
      * intros [= <-]. exists p, h. split; [done|]. split; [done|].
        destruct Hxy as [[-> ->]|[-> ->]]; [left|right]; done.
      * apply (b_edges _ _ _ I).
  - split.
    + intros v Hv. apply Hn'. auto.
    + intros x y. rewrite Hw'. case_decide; eauto.
  - apply Hn'. auto.
  - rewrite Hw'. rewrite decide_True; [eauto|auto].
Qed.

Lemma foldR_AddEdge_build ents hubs a p : ∀ hs g,
  build_inv ents hubs g → (a, p) ∈ ents → (∀ h, h ∈ hs → h ∈ hubs) →
  ∃ g', foldR (fun g hub =>
                 AddEdge a (hub_ID hub) (CalculateDistance p (hub_Location hub)) g) hs g
        = Ok g' ∧
        build_inv ents hubs g' ∧ graph_le g g' ∧
        (hs ≠ [] → is_Some (Nodes g' !! a)) ∧
        ∀ h, h ∈ hs → is_Some (weight g' a (hub_ID h)).
Proof.
  induction hs as [|h hs IH]; intros g I Ha Hsub.
  - exists g. cbn. split; [done|]. split; [done|]. split; [apply graph_le_refl|].
    split; [done|]. intros h Hh. by apply elem_of_nil in Hh.
  - destruct (AddEdge_build ents hubs g a p h I Ha) as (g1 & Heq & I1 & Hle1 & Hn1 & Hw1).
    { apply Hsub. by left. }
    destruct (IH g1 I1 Ha) as (g' & Heq' & I' & Hle' & _ & Hw').
    { intros h' Hh'. apply Hsub. by right. }
    exists g'. cbn. rewrite Heq. cbn. split; [done|]. split; [done|].
    split; [by eapply graph_le_trans|]. split.
    + intros _. by apply Hle'.
    + intros h' [->|Hh']%elem_of_cons; [by apply Hle'|by apply Hw'].
Qed.

(** One entity gets its edges. *)
Lemma connect_entity_Ok ents hubs msg N sel g e :
  build_inv ents hubs g → e ∈ ents → 0 < N ≤ Z.of_nat (length hubs) →
  (∀ l h, h ∈ sel l → h ∈ l) →
  ∃ nearest g', FindNearestHubs e.2 hubs N = Ok nearest ∧
        connect_entity msg N sel hubs g e = Ok g' ∧
        build_inv ents hubs g' ∧ graph_le g g' ∧
        (sel nearest ≠ [] → is_Some (Nodes g' !! e.1)) ∧
        ∀ h, h ∈ sel nearest → is_Some (weight g' e.1 (hub_ID h)).
Proof.
  intros I He HN Hsel. destruct e as [a p].
  destruct (FindNearestHubs_Ok_ex p hubs N HN) as [nearest Hnear].
  destruct (FindNearestHubs_Ok_inv _ _ _ _ Hnear) as (_ & _ & Hsub).
  destruct (foldR_AddEdge_build ents hubs a p (sel nearest) g I He)
    as (g' & Heq & I' & Hle & Hn & Hw).
  { intros h Hh. apply Hsub. by apply Hsel. }
  exists nearest, g'. unfold connect_entity. cbn [fst snd]. rewrite Hnear. done.
Qed.

Lemma connect_loop_Ok ents hubs msg N sel : ∀ xs g,
  build_inv ents hubs g → (∀ e, e ∈ xs → e ∈ ents) → 0 < N ≤ Z.of_nat (length hubs) →
  (∀ l h, h ∈ sel l → h ∈ l) →
  ∃ g', foldR (connect_entity msg N sel hubs) xs g = Ok g' ∧
        build_inv ents hubs g' ∧ graph_le g g' ∧
        ∀ e, e ∈ xs → ∃ nearest, FindNearestHubs e.2 hubs N = Ok nearest ∧
          (sel nearest ≠ [] → is_Some (Nodes g' !! e.1)) ∧
          ∀ h, h ∈ sel nearest → is_Some (weight g' e.1 (hub_ID h)).
Proof.
  induction xs as [|e xs IH]; intros g I Hsub HN Hsel.
  - exists g. cbn. split; [done|]. split; [done|]. split; [apply graph_le_refl|].
    intros e He. by apply elem_of_nil in He.
  - destruct (connect_entity_Ok ents hubs msg N sel g e I) as
      (nearest & g1 & Hnear & Heq & I1 & Hle1 & Hn1 & Hw1); [apply Hsub; by left|done|done|].
    destruct (IH g1 I1) as (g' & Heq' & I' & Hle' & Hall); [|done|done|].
    { intros e' He'. apply Hsub. by right. }
    exists g'. cbn. rewrite Heq. cbn. split; [done|]. split; [done|].
    split; [by eapply graph_le_trans|].
    intros e' [->|He']%elem_of_cons; [|by apply Hall].
    exists nearest. split; [done|]. split.
    + intros Hne. apply Hle', Hn1, Hne.
    + intros h Hh. apply Hle', Hw1, Hh.
Qed.

Lemma connect_loop_Err msg N sel hubs e xs g :
  0 < N → Z.of_nat (length hubs) < N →
  foldR (connect_entity msg N sel hubs) (e :: xs) g
  = Err (msg +:+ e.1 +:+ ": not enough hubs to find the nearest N hubs").
Proof.
  intros HN Hlen. cbn. unfold connect_entity.
  by rewrite (FindNearestHubs_not_enough _ _ _ HN Hlen).
Qed.

Lemma foldR_map {A B S} (f : A → B) (body : S → B → result S) xs : ∀ s,
  foldR body (map f xs) s = foldR (fun s x => body s (f x)) xs s.
Proof.
  induction xs as [|x xs IH]; intros s; cbn; [done|].
  destruct (body s (f x)); cbn; [apply IH|done|done].
Qed.

Lemma sites_loop hubs sites g :
  foldR (connect_site hubs) sites g
  = foldR (connect_entity "error finding nearest hub for " 1 (fun l => l) hubs)
          (map site_entity sites) g.
Proof. by rewrite foldR_map. Qed.

Lemma hubs_loop hubs hs g :
  foldR (connect_hub hubs) hs g
  = foldR (connect_entity "error finding nearest hubs for " 3
             (fun l => take 2 (drop 1 l)) hubs)
          (map hub_entity hs) g.
Proof. by rewrite foldR_map. Qed.

Lemma centers_loop hubs centers g :
  foldR (connect_center hubs) centers g
  = foldR (connect_entity "error finding nearest hubs for " 5 (fun l => l) hubs)
          (map ec_entity centers) g.
Proof. by rewrite foldR_map. Qed.

Lemma sel_hub_sub (l : list (Hub F)) h : h ∈ take 2 (drop 1 l) → h ∈ l.
Proof.
  intros (i & Hi & _)%elem_of_take. rewrite lookup_drop in Hi.
  by eapply list_elem_of_lookup_2.
Qed.

(** A whole loop: it runs through when the list is empty or there are
    [N] hubs, and then every entry of the list is a node with an edge to
    each selected hub. *)
Lemma connect_loop_spec ents hubs msg N sel xs g :
  build_inv ents hubs g → (∀ e, e ∈ xs → e ∈ ents) → 0 < N →
  (∀ l h, h ∈ sel l → h ∈ l) →
  (∀ l : list (Hub F), length l = Z.to_nat N → sel l ≠ []) →
  xs = [] ∨ N ≤ Z.of_nat (length hubs) →
  ∃ g', foldR (connect_entity msg N sel hubs) xs g = Ok g' ∧
        build_inv ents hubs g' ∧ graph_le g g' ∧
        ∀ e, e ∈ xs → is_Some (Nodes g' !! e.1) ∧
          ∃ nearest, FindNearestHubs e.2 hubs N = Ok nearest ∧
            ∀ h, h ∈ sel nearest → is_Some (weight g' e.1 (hub_ID h)).
Proof.
  intros I Hsub HN Hsel Hne [->|Hlen].
  - exists g. cbn. split; [done|]. split; [done|]. split; [apply graph_le_refl|].
    intros e He. by apply elem_of_nil in He.
  - destruct (connect_loop_Ok ents hubs msg N sel xs g I Hsub (conj HN Hlen) Hsel)
      as (g' & Heq & I' & Hle & Hall).
    exists g'. split; [done|]. split; [done|]. split; [done|].
    intros e He. destruct (Hall e He) as (nearest & Hnear & Hn & Hw).
    destruct (FindNearestHubs_Ok_inv _ _ _ _ Hnear) as (_ & Hl & _).
    split; [by apply Hn, Hne|]. by exists nearest.
Qed.

Lemma sel_all_ne (N : Z) : 0 < N → ∀ l : list (Hub F), length l = Z.to_nat N → l ≠ [].
Proof. intros HN l Hl ->. cbn in Hl. lia. Qed.

Lemma sel_hub_ne (l : list (Hub F)) : length l = Z.to_nat 3 → take 2 (drop 1 l) ≠ [].
Proof. destruct l as [|? [|? [|? ?]]]; cbn; try done; lia. Qed.

Lemma entities_site sites hubs centers (site : TelecomSite F) :
  site ∈ sites → site_entity site ∈ entities sites hubs centers.
Proof.
  intros Hs. unfold entities. rewrite !elem_of_app. left.
  apply list_elem_of_fmap. by exists site.
Qed.

Lemma entities_hub sites hubs centers (hub : Hub F) :
  hub ∈ hubs → hub_entity hub ∈ entities sites hubs centers.
Proof.
  intros Hs. unfold entities. rewrite !elem_of_app. right. left.
  apply list_elem_of_fmap. by exists hub.
Qed.

Lemma entities_ec sites hubs centers (ec : EmergencyCenter F) :
  ec ∈ centers → ec_entity ec ∈ entities sites hubs centers.
Proof.
  intros Hs. unfold entities. rewrite !elem_of_app. right. right.
  apply list_elem_of_fmap. by exists ec.
Qed.

Lemma BuildNetworkGraph_Ok_spec sites hubs centers :
  sites = [] ∨ 1 ≤ Z.of_nat (length hubs) →
  hubs = [] ∨ 3 ≤ Z.of_nat (length hubs) →
  centers = [] ∨ 5 ≤ Z.of_nat (length hubs) →
  ∃ g, BuildNetworkGraph sites hubs centers = Ok g ∧
       build_inv (entities sites hubs centers) hubs g ∧
       (∀ e, e ∈ entities sites hubs centers → is_Some (Nodes g !! e.1)) ∧
       (∀ site, site ∈ sites → ∃ nearest,
          FindNearestHubs (site_Location site) hubs 1 = Ok nearest ∧
          ∀ h, h ∈ nearest → is_Some (weight g (site_ID site) (hub_ID h))) ∧
       (∀ hub, hub ∈ hubs → ∃ nearest,
          FindNearestHubs (hub_Location hub) hubs 3 = Ok nearest ∧
          ∀ h, h ∈ take 2 (drop 1 nearest) → is_Some (weight g (hub_ID hub) (hub_ID h))) ∧
       (∀ ec, ec ∈ centers → ∃ nearest,
          FindNearestHubs (ec_Location ec) hubs 5 = Ok nearest ∧
          ∀ h, h ∈ nearest → is_Some (weight g (ec_ID ec) (hub_ID h))).
Proof.
  intros H1 H3 H5. unfold BuildNetworkGraph.
  set (ents := entities sites hubs centers).
  destruct (connect_loop_spec ents hubs "error finding nearest hub for " 1 (fun l => l)
              (map site_entity sites) NewGraph)
    as (g1 & Heq1 & I1 & Hle1 & Hall1);
    [apply NewGraph_build_inv| |lia|done|by apply sel_all_ne| |].
  { intros e (site & -> & Hs)%list_elem_of_fmap. by apply entities_site. }
  { destruct H1 as [->|?]; auto. }
  rewrite sites_loop, Heq1. cbn [mbind result_bind].
  destruct (connect_loop_spec ents hubs "error finding nearest hubs for " 3
              (fun l => take 2 (drop 1 l)) (map hub_entity hubs) g1)
    as (g2 & Heq2 & I2 & Hle2 & Hall2);
    [done| |lia|apply sel_hub_sub|apply sel_hub_ne| |].
  { intros e (hub & -> & Hs)%list_elem_of_fmap. by apply entities_hub. }
  { destruct H3 as [->|?]; auto. }
  rewrite hubs_loop, Heq2. cbn [mbind result_bind].
  destruct (connect_loop_spec ents hubs "error finding nearest hubs for " 5 (fun l => l)
              (map ec_entity centers) g2)
    as (g3 & Heq3 & I3 & Hle3 & Hall3);
    [done| |lia|done|by apply sel_all_ne| |].
  { intros e (ec & -> & Hs)%list_elem_of_fmap. by apply entities_ec. }
  { destruct H5 as [->|?]; auto. }
  rewrite centers_loop, Heq3.
  exists g3. split; [done|]. split; [done|].
  pose proof (graph_le_trans _ _ _ Hle2 Hle3) as Hle23.
  split; [|split; [|split]].
  - intros e. unfold ents, entities. rewrite !elem_of_app. intros [He|[He|He]].
    + apply (proj1 Hle23), (proj1 (Hall1 e He)).
    + apply (proj1 Hle3), (proj1 (Hall2 e He)).
    + apply (proj1 (Hall3 e He)).
  - intros site Hs.
    destruct (Hall1 (site_entity site)) as (_ & nearest & Hnear & Hw).
    { apply list_elem_of_fmap. by exists site. }
    exists nearest. split; [done|]. intros h Hh. apply (proj2 Hle23). by apply Hw.
  - intros hub Hs.
    destruct (Hall2 (hub_entity hub)) as (_ & nearest & Hnear & Hw).
    { apply list_elem_of_fmap. by exists hub. }
    exists nearest. split; [done|]. intros h Hh. apply (proj2 Hle3). by apply Hw.
  - intros ec Hs.
    destruct (Hall3 (ec_entity ec)) as (_ & nearest & Hnear & Hw).
    { apply list_elem_of_fmap. by exists ec. }
    exists nearest. split; [done|]. intros h Hh. by apply Hw.
Qed.

Lemma BuildNetworkGraph_Err_spec sites hubs centers :
  (∀ site sites', sites = site :: sites' → hubs = [] →
     BuildNetworkGraph sites hubs centers
     = Err ("error finding nearest hub for " +:+ site_ID site
            +:+ ": not enough hubs to find the nearest N hubs")) ∧
  (∀ hub hubs', hubs = hub :: hubs' → Z.of_nat (length hubs) < 3 →
     BuildNetworkGraph sites hubs centers
     = Err ("error finding nearest hubs for " +:+ hub_ID hub
            +:+ ": not enough hubs to find the nearest N hubs")) ∧
  (∀ ec centers', centers = ec :: centers' → Z.of_nat (length hubs) < 5 →
     (sites = [] ∧ hubs = []) ∨ 3 ≤ Z.of_nat (length hubs) →
     BuildNetworkGraph sites hubs centers
     = Err ("error finding nearest hubs for " +:+ ec_ID ec
            +:+ ": not enough hubs to find the nearest N hubs")).
Proof.
  set (ents := entities sites hubs centers).
  split; [|split].
  - intros site sites' -> ->. unfold BuildNetworkGraph.
    rewrite sites_loop. cbn [map].
    rewrite connect_loop_Err by (cbn; lia). done.
  - intros hub hubs' Hhubs Hlen. unfold BuildNetworkGraph.
    destruct (connect_loop_spec ents hubs "error finding nearest hub for " 1 (fun l => l)
                (map site_entity sites) NewGraph)
      as (g1 & Heq1 & _);
      [apply NewGraph_build_inv| |lia|done|by apply sel_all_ne| |].
    { intros e (site & -> & Hs)%list_elem_of_fmap. by apply entities_site. }
    { right. rewrite Hhubs. cbn. lia. }
    rewrite sites_loop, Heq1. cbn [mbind result_bind].
    rewrite hubs_loop. rewrite Hhubs at 2. cbn [map].
    rewrite connect_loop_Err by lia. done.
  - intros ec centers' -> Hlen Hpre. unfold BuildNetworkGraph.
    destruct (connect_loop_spec ents hubs "error finding nearest hub for " 1 (fun l => l)
                (map site_entity sites) NewGraph)
      as (g1 & Heq1 & I1 & _);
      [apply NewGraph_build_inv| |lia|done|by apply sel_all_ne| |].
    { intros e (site & -> & Hs)%list_elem_of_fmap. by apply entities_site. }
    { destruct Hpre as [[-> _]|?]; [by left|right; lia]. }
    rewrite sites_loop, Heq1. cbn [mbind result_bind].
    destruct (connect_loop_spec ents hubs "error finding nearest hubs for " 3
                (fun l => take 2 (drop 1 l)) (map hub_entity hubs) g1)
      as (g2 & Heq2 & _);
      [done| |lia|apply sel_hub_sub|apply sel_hub_ne| |].
    { intros e (hub & -> & Hs)%list_elem_of_fmap. by apply entities_hub. }
    { destruct Hpre as [[_ ->]|?]; [by left|by right]. }
    rewrite hubs_loop, Heq2. cbn [mbind result_bind].
    rewrite centers_loop. cbn [map].
    rewrite connect_loop_Err by lia. done.
Qed.

Lemma BuildNetworkGraph_Ok_conds sites hubs centers g :
  BuildNetworkGraph sites hubs centers = Ok g →
  (sites = [] ∨ 1 ≤ Z.of_nat (length hubs)) ∧
  (hubs = [] ∨ 3 ≤ Z.of_nat (length hubs)) ∧
  (centers = [] ∨ 5 ≤ Z.of_nat (length hubs)).
Proof.
  intros Hg.
  destruct (BuildNetworkGraph_Err_spec sites hubs centers) as (E1 & E2 & E3).
  assert (C1 : sites = [] ∨ 1 ≤ Z.of_nat (length hubs)).
  { destruct sites as [|site sites']; [by left|].
    destruct hubs as [|hub hubs']; [|right; cbn; lia].
    rewrite (E1 _ _ eq_refl eq_refl) in Hg. done. }
  assert (C3 : hubs = [] ∨ 3 ≤ Z.of_nat (length hubs)).
  { destruct hubs as [|hub hubs'] eqn:Hhubs; [by left|]. right.
    destruct (Z_lt_le_dec (Z.of_nat (length (hub :: hubs'))) 3) as [Hlt|?]; [|done].
    rewrite (E2 _ _ eq_refl Hlt) in Hg. done. }
  split; [done|]. split; [done|].
  destruct centers as [|ec centers']; [by left|]. right.
  destruct (Z_lt_le_dec (Z.of_nat (length hubs)) 5) as [Hlt|?]; [|done].
  rewrite (E3 _ _ eq_refl Hlt) in Hg; [done|].
  destruct C3 as [->|?]; [|by right]. left. split; [|done].
  destruct C1 as [?|Hlen]; [done|]. cbn in Hlen. lia.
Qed.

Lemma BuildNetworkGraph_Ok_facts sites hubs centers g :
  BuildNetworkGraph sites hubs centers = Ok g →
  build_inv (entities sites hubs centers) hubs g ∧
  (∀ e, e ∈ entities sites hubs centers → is_Some (Nodes g !! e.1)) ∧
  (∀ site, site ∈ sites → ∃ nearest,
     FindNearestHubs (site_Location site) hubs 1 = Ok nearest ∧
     ∀ h, h ∈ nearest → is_Some (weight g (site_ID site) (hub_ID h))) ∧
  (∀ hub, hub ∈ hubs → ∃ nearest,
     FindNearestHubs (hub_Location hub) hubs 3 = Ok nearest ∧
     ∀ h, h ∈ take 2 (drop 1 nearest) → is_Some (weight g (hub_ID hub) (hub_ID h))) ∧
  (∀ ec, ec ∈ centers → ∃ nearest,
     FindNearestHubs (ec_Location ec) hubs 5 = Ok nearest ∧
     ∀ h, h ∈ nearest → is_Some (weight g (ec_ID ec) (hub_ID h))).
Proof.
  intros Hg. destruct (BuildNetworkGraph_Ok_conds _ _ _ _ Hg) as (C1 & C3 & C5).
  destruct (BuildNetworkGraph_Ok_spec sites hubs centers C1 C3 C5) as (g' & Hg' & Hfacts).
  rewrite Hg in Hg'. by injection Hg' as <-.
Qed.

Lemma entities_IDs (sites : list (TelecomSite F)) (hubs : list (Hub F))
    (centers : list (EmergencyCenter F)) :
  (entities sites hubs centers).*1
  = map site_ID sites ++ map hub_ID hubs ++ map ec_ID centers.
Proof.
  unfold entities. rewrite !fmap_app.
  change (@fmap list _) with (@map) at 1 2 3.
  by rewrite !map_map.
Qed.

(** ** BuildNetworkGraph *)

(** X25: [BuildNetworkGraph] never panics, and it returns a graph
    exactly when the hub list is long enough for each loop that has
    something to do: one hub if there is a site, three hubs if there is
    a hub, five hubs if there is a center.  No entry is validated. *)
Theorem BuildNetworkGraph_succeeds_iff (telecomSites : list (TelecomSite F))
    (hubs : list (Hub F)) (emergencyCenters : list (EmergencyCenter F)) :
  BuildNetworkGraph telecomSites hubs emergencyCenters ≠ Panic ∧
  ((∃ graph, BuildNetworkGraph telecomSites hubs emergencyCenters = Ok graph) ↔
   (telecomSites = [] ∨ 1 ≤ length hubs)%nat ∧
   (hubs = [] ∨ 3 ≤ length hubs)%nat ∧
   (emergencyCenters = [] ∨ 5 ≤ length hubs)%nat).
Proof.
  assert (Hiff : (∃ graph, BuildNetworkGraph telecomSites hubs emergencyCenters = Ok graph) ↔
   (telecomSites = [] ∨ 1 ≤ length hubs)%nat ∧
   (hubs = [] ∨ 3 ≤ length hubs)%nat ∧
   (emergencyCenters = [] ∨ 5 ≤ length hubs)%nat).
  { split.
    - intros [g (C1 & C3 & C5)%BuildNetworkGraph_Ok_conds].
      split; [|split]; [destruct C1|destruct C3|destruct C5]; auto; right; lia.
    - intros (C1 & C3 & C5).
      destruct (BuildNetworkGraph_Ok_spec telecomSites hubs emergencyCenters)
        as (g & Hg & _); [destruct C1|destruct C3|destruct C5|]; eauto; right; lia. }
  split; [|done]. intros HP.
  destruct (BuildNetworkGraph_Err_spec telecomSites hubs emergencyCenters) as (E1 & E2 & E3).
  destruct telecomSites as [|site sites'] eqn:Hsites.
  - destruct hubs as [|hub hubs'] eqn:Hhubs.
    + destruct emergencyCenters as [|ec centers'].
      * by vm_compute in HP.
      * rewrite (E3 _ _ eq_refl) in HP; [done|cbn; lia|by left].
    + destruct (Z_lt_le_dec (Z.of_nat (length (hub :: hubs'))) 3) as [Hlt|Hge].
      * rewrite (E2 _ _ eq_refl Hlt) in HP. done.
      * destruct emergencyCenters as [|ec centers'] eqn:Hc.
        -- destruct (proj2 Hiff) as [g Hg]; [|congruence].
           split; [by left|]. split; [right; lia|by left].
        -- destruct (Z_lt_le_dec (Z.of_nat (length (hub :: hubs'))) 5) as [Hlt5|Hge5].
           ++ rewrite (E3 _ _ eq_refl Hlt5) in HP; [done|by right].
           ++ destruct (proj2 Hiff) as [g Hg]; [|congruence].
              split; [by left|]. split; right; lia.
  - destruct hubs as [|hub hubs'] eqn:Hhubs.
    + rewrite (E1 _ _ eq_refl eq_refl) in HP. done.
    + destruct (Z_lt_le_dec (Z.of_nat (length (hub :: hubs'))) 3) as [Hlt|Hge].
      * rewrite (E2 _ _ eq_refl Hlt) in HP. done.
      * destruct emergencyCenters as [|ec centers'] eqn:Hc.
        -- destruct (proj2 Hiff) as [g Hg]; [|congruence].
           split; [right; cbn; lia|]. split; [right; lia|by left].
        -- destruct (Z_lt_le_dec (Z.of_nat (length (hub :: hubs'))) 5) as [Hlt5|Hge5].
           ++ rewrite (E3 _ _ eq_refl Hlt5) in HP; [done|by right].
           ++ destruct (proj2 Hiff) as [g Hg]; [|congruence].
              split; [right; cbn; lia|]. split; right; lia.
Qed.

(** X26: the error of [BuildNetworkGraph] names the first entry whose
    loop finds too few hubs: the first site when there is no hub, else
    the first hub when there are fewer than three, else the first
    center when there are fewer than five; the text of
    [FindNearestHubs] follows the identifier. *)
Theorem BuildNetworkGraph_error_messages (telecomSites : list (TelecomSite F))
    (hubs : list (Hub F)) (emergencyCenters : list (EmergencyCenter F)) :
  (∀ site sites', telecomSites = site :: sites' → hubs = [] →
     BuildNetworkGraph telecomSites hubs emergencyCenters
     = Err ("error finding nearest hub for " +:+ site_ID site
            +:+ ": not enough hubs to find the nearest N hubs")) ∧
  (∀ hub hubs', hubs = hub :: hubs' → Z.of_nat (length hubs) < 3 →
     BuildNetworkGraph telecomSites hubs emergencyCenters
     = Err ("error finding nearest hubs for " +:+ hub_ID hub
            +:+ ": not enough hubs to find the nearest N hubs")) ∧
  (∀ ec centers', emergencyCenters = ec :: centers' → Z.of_nat (length hubs) < 5 →
     (telecomSites = [] ∧ hubs = []) ∨ 3 ≤ Z.of_nat (length hubs) →
     BuildNetworkGraph telecomSites hubs emergencyCenters
     = Err ("error finding nearest hubs for " +:+ ec_ID ec
            +:+ ": not enough hubs to find the nearest N hubs")).
Proof. exact (BuildNetworkGraph_Err_spec telecomSites hubs emergencyCenters). Qed.

(** X27: a graph returned by [BuildNetworkGraph] has the same keys in
    [Nodes] and [Neighbors], symmetric weights, every neighbour among
    its nodes, and its nodes are exactly the identifiers of the sites,
    hubs and centers. *)
Theorem BuildNetworkGraph_graph_shape (telecomSites : list (TelecomSite F))
    (hubs : list (Hub F)) (emergencyCenters : list (EmergencyCenter F)) graph :
  BuildNetworkGraph telecomSites hubs emergencyCenters = Ok graph →
  graph_same_keys graph ∧ graph_symmetric graph ∧ graph_closed graph ∧
  ∀ v, is_Some (Nodes graph !! v) ↔
       v ∈ map site_ID telecomSites ++ map hub_ID hubs ++ map ec_ID emergencyCenters.
Proof.
  intros (I & Hnodes & _)%BuildNetworkGraph_Ok_facts.
  split; [apply I|]. split; [apply I|]. split; [apply I|].
  intros v. rewrite <- entities_IDs. split.
  - intros [Hv|Hv]%(b_nodes _ _ _ I); [done|].
    rewrite entities_IDs, !elem_of_app. auto.
  - intros (e & -> & He)%list_elem_of_fmap. by apply Hnodes.
Qed.

(** X28: in a graph returned by [BuildNetworkGraph] every site has an
    edge to the hub [FindNearestHubs] returns for it, every hub to the
    second and third hub returned for it, and every center to the five
    hubs returned for it: a later call of [AddEdge] removes no edge. *)
Theorem BuildNetworkGraph_connections (telecomSites : list (TelecomSite F))
    (hubs : list (Hub F)) (emergencyCenters : list (EmergencyCenter F)) graph :
  BuildNetworkGraph telecomSites hubs emergencyCenters = Ok graph →
  (∀ site, site ∈ telecomSites → ∃ nearestHubs,
     FindNearestHubs (site_Location site) hubs 1 = Ok nearestHubs ∧
     ∀ h, h ∈ nearestHubs → is_Some (weight graph (site_ID site) (hub_ID h))) ∧
  (∀ hub, hub ∈ hubs → ∃ nearestHubs,
     FindNearestHubs (hub_Location hub) hubs 3 = Ok nearestHubs ∧
     ∀ h, h ∈ take 2 (drop 1 nearestHubs) →
       is_Some (weight graph (hub_ID hub) (hub_ID h))) ∧
  (∀ ec, ec ∈ emergencyCenters → ∃ nearestHubs,
     FindNearestHubs (ec_Location ec) hubs 5 = Ok nearestHubs ∧
     ∀ h, h ∈ nearestHubs → is_Some (weight graph (ec_ID ec) (hub_ID h))).
Proof. intros (_ & _ & Hfacts)%BuildNetworkGraph_Ok_facts. exact Hfacts. Qed.

(** X29: every weight in a graph returned by [BuildNetworkGraph] is the
    value of [CalculateDistance] from the location of an entry with the
    identifier of one end to the location of a hub with the identifier
    of the other end: every edge has a hub at one end. *)
Theorem BuildNetworkGraph_weights (telecomSites : list (TelecomSite F))
    (hubs : list (Hub F)) (emergencyCenters : list (EmergencyCenter F)) graph :
  BuildNetworkGraph telecomSites hubs emergencyCenters = Ok graph →
  ∀ x y w, weight graph x y = Some w →
    ∃ p h, h ∈ hubs ∧ w = CalculateDistance p (hub_Location h) ∧
           (((x, p) ∈ entities telecomSites hubs emergencyCenters ∧ y = hub_ID h) ∨
            ((y, p) ∈ entities telecomSites hubs emergencyCenters ∧ x = hub_ID h)).
Proof. intros (I & _)%BuildNetworkGraph_Ok_facts. apply I. Qed.

End Build.

Section BuildDijkstra.
Context {F : Type} `{Float64 F} `{!Float64Laws F}.

(** X30: when every distance from an entry to a hub is a number that is
    not less than zero, a graph returned by [BuildNetworkGraph] has no
    negative or NaN weight, and [Dijkstra] returns a result on it from
    every identifier of the input; from any other start it returns the
    error of the unknown start node. *)
Theorem BuildNetworkGraph_then_Dijkstra (telecomSites : list (TelecomSite F))
    (hubs : list (Hub F)) (emergencyCenters : list (EmergencyCenter F)) graph :
  BuildNetworkGraph telecomSites hubs emergencyCenters = Ok graph →
  (∀ e h, e ∈ entities telecomSites hubs emergencyCenters → h ∈ hubs →
     f_nonneg (CalculateDistance e.2 (hub_Location h))) →
  graph_nonneg graph ∧
  ∀ start,
    if decide (start ∈ (entities telecomSites hubs emergencyCenters).*1)
    then ∃ r, Dijkstra start (Some graph) (Ok r)
    else ∀ r, Dijkstra start (Some graph) r →
           r = Err ("start node " +:+ start +:+ " does not exist in the graph").
Proof.
  intros (I & Hnodes & _)%BuildNetworkGraph_Ok_facts Hdist.
  assert (Hnn : graph_nonneg graph).
  { intros x y w (p & h & Hh & -> & [[Hx _]|[Hy _]])%(b_edges _ _ _ I).
    - by apply (Hdist (x, p) h).
    - by apply (Hdist (y, p) h). }
  split; [done|]. intros start. case_decide as Hstart.
  - apply list_elem_of_fmap in Hstart as (e & -> & He).
    apply Dijkstra_returns; [done|]. by apply Hnodes.
  - intros r Hr. inversion Hr as [|g' Hnone|g' st Hsome Hrun Hdone]; subst; [done|].
    exfalso. apply Hstart.
    destruct (b_nodes _ _ _ I start Hsome) as [?|Hh]; [done|].
    rewrite entities_IDs, !elem_of_app. auto.
Qed.

End BuildDijkstra.

(** ** The exact carrier has monotone addition *)

Lemma Exact_add_mono : Float64AddMono Exact.num.
Proof.
  split. unfold f_le. cbn.
  intros [] [] []; cbn; try done; rewrite !Z.ltb_ge; lia.
Qed.

(** ** The theorems on concrete inputs *)

Lemma RunExact_same_keys : graph_same_keys RunExact.g.
Proof. exact (proj1 (run_ops_invariant _ _ RunExact_run_ops)). Qed.

Lemma Sample_build :
  BuildNetworkGraph Sample.telecomSites Sample.hubs Sample.emergencyCenters
  = Ok Sample.graph.
Proof. vm_compute. reflexivity. Qed.

Lemma Sample_distances_nonneg :
  ∀ e h, e ∈ entities Sample.telecomSites Sample.hubs Sample.emergencyCenters →
         h ∈ Sample.hubs →
         f_nonneg (CalculateDistance e.2 (hub_Location h)).
Proof.
  assert (Hall : Forall (fun e : string * Point Exact.num =>
            Forall (fun h => f_nonneg (CalculateDistance e.2 (hub_Location h))) Sample.hubs)
            (entities Sample.telecomSites Sample.hubs Sample.emergencyCenters)).
  { repeat (constructor; [repeat (constructor; [by vm_compute|]); constructor|]).
    constructor. }
  intros e h He Hh. rewrite Forall_forall in Hall. specialize (Hall e He).
  rewrite Forall_forall in Hall. by apply Hall.
Qed.

Lemma Sample_queue_indexed : pq_indexed Sample.queue.
Proof.
  intros [|[|i]] p Hp; cbn in Hp; [| |done]; injection Hp as <-;
    eexists; (split; [by vm_compute|done]).
Qed.

Lemma FindNearestEmergencyCenter_rejects_invalid_site_witness :
  FindNearestEmergencyCenter Sample.nameless Sample.emergencyCenters
  = Err "invalid TelecomSite data".
Proof.
  apply (FindNearestEmergencyCenter_rejects_invalid_site
           Sample.nameless Sample.emergencyCenters).
  left. reflexivity.
Defined.

Lemma FindNearestEmergencyCenter_result_witness :
  ∃ c, FindNearestEmergencyCenter Sample.TS1 Sample.emergencyCenters = Ok c ∧
       (c ∈ Sample.emergencyCenters ∨
        (c = EmergencyCenter_zero ∧
         Forall (fun x => f_ltb (center_distance Sample.TS1 x) f_max = false)
           Sample.emergencyCenters)).
Proof.
  apply (FindNearestEmergencyCenter_result Sample.TS1 Sample.emergencyCenters).
  - discriminate.
  - vm_compute. reflexivity.
Defined.

Lemma FindNearestEmergencyCenter_least_witness :
  ∃ c, FindNearestEmergencyCenter Sample.TS1 Sample.emergencyCenters = Ok c ∧
       c ∈ Sample.emergencyCenters ∧
       Forall (fun x => f_le (center_distance Sample.TS1 c) (center_distance Sample.TS1 x))
         Sample.emergencyCenters.
Proof.
  apply (@FindNearestEmergencyCenter_least Exact.num _ Exact_laws
           Sample.TS1 Sample.emergencyCenters).
  - discriminate.
  - vm_compute. reflexivity.
  - repeat (constructor; [vm_compute; reflexivity|]). constructor.
  - apply Exists_cons_hd. vm_compute. reflexivity.
Defined.

Lemma FindNearestHubs_sorted_input_witness :
  FindNearestHubs (RunExact.pt 3 4) [RunExact.R; RunExact.P; RunExact.Q] 2
  = Ok [RunExact.R; RunExact.P].
Proof.
  apply (FindNearestHubs_sorted_input (RunExact.pt 3 4)
           [RunExact.R; RunExact.P; RunExact.Q] 2).
  - cbn. lia.
  - repeat (constructor; [|repeat (constructor; [vm_compute; reflexivity|]); constructor]).
    constructor.
Defined.

Lemma FindNearestHubs_one_first_nearest_witness :
  ∃ l1 h l2,
    [RunExact.P; RunExact.Q; RunExact.R] = l1 ++ h :: l2 ∧
    FindNearestHubs (RunExact.pt 3 4) [RunExact.P; RunExact.Q; RunExact.R] 1 = Ok [h] ∧
    Forall (fun x => f_ltb (CalculateDistance (RunExact.pt 3 4) (hub_Location h))
                           (CalculateDistance (RunExact.pt 3 4) (hub_Location x)) = true) l1 ∧
    Forall (hub_distance_le (RunExact.pt 3 4) h) l2.
Proof.
  apply (@FindNearestHubs_one_first_nearest Exact.num _ Exact_laws (RunExact.pt 3 4)
           [RunExact.P; RunExact.Q; RunExact.R]).
  - discriminate.
  - repeat (constructor; [vm_compute; reflexivity|]). constructor.
Defined.



Lemma AddEdge_endpoints_commute_witness :
  AddEdge "a" "d" (Exact.Fin 7) RunExact.g = AddEdge "d" "a" (Exact.Fin 7) RunExact.g.
Proof.
  apply (AddEdge_endpoints_commute RunExact.g "a" "d" (Exact.Fin 7)).
  exact RunExact_same_keys.
Defined.

Lemma AddEdge_overwrites_witness :
  (AddEdge "a" "b" (Exact.Fin 7) RunExact.g ≫= AddEdge "a" "b" (Exact.Fin 9))
  = AddEdge "a" "b" (Exact.Fin 9) RunExact.g.
Proof.
  apply (AddEdge_overwrites RunExact.g "a" "b" (Exact.Fin 7) (Exact.Fin 9)).
  exact RunExact_same_keys.
Defined.

Lemma AddEdge_panics_without_adjacency_witness :
  AddEdge "a" "b" (Exact.Fin 1) Sample.no_adjacency = Panic.
Proof.
  apply (AddEdge_panics_without_adjacency Sample.no_adjacency "a" "b" (Exact.Fin 1)).
  - vm_compute. eauto.
  - vm_compute. reflexivity.
Defined.

Lemma pq_Push_Pop_witness :
  pq_Push 2%nat Sample.queue ≫= pq_Pop
  = Ok (2%nat,
        {| pq_store :=
             <[2%nat := {| obj_item := {| Value := "c"; Priority := Exact.Fin 3 |};
                           Index := -1 |}]> Sample.store;
           pq_slice := [0%nat; 1%nat] |}).
Proof.
  apply (pq_Push_Pop Sample.queue 2%nat
           {| obj_item := {| Value := "c"; Priority := Exact.Fin 3 |}; Index := -1 |}).
  vm_compute. reflexivity.
Defined.

Lemma pq_Push_indexed_witness :
  ∃ m', pq_Push 2%nat Sample.queue = Ok m' ∧ pq_indexed m' ∧
        pq_slice m' = [0%nat; 1%nat; 2%nat].
Proof.
  apply (pq_Push_indexed Sample.queue 2%nat).
  - exact Sample_queue_indexed.
  - vm_compute. eauto.
  - cbn. rewrite !not_elem_of_cons. repeat split; try discriminate. apply not_elem_of_nil.
Defined.

Lemma pq_Pop_indexed_witness :
  ∃ x o m', pq_Pop Sample.queue = Ok (x, m') ∧ pq_indexed m' ∧
            pq_slice Sample.queue = pq_slice m' ++ [x] ∧
            pq_store Sample.queue !! x = Some o ∧
            pq_store m' = <[x := {| obj_item := obj_item o; Index := -1 |}]>
                            (pq_store Sample.queue).
Proof.
  apply (pq_Pop_indexed Sample.queue).
  - exact Sample_queue_indexed.
  - discriminate.
Defined.

Lemma pq_Swap_indexed_witness :
  ∃ m', pq_Swap 0 1 Sample.queue = Ok m' ∧ pq_indexed m' ∧
        pq_slice m' = [1%nat; 0%nat] ∧
        (∀ p, obj_item <$> (pq_store m' !! p) = obj_item <$> (pq_store Sample.queue !! p)) ∧
        pq_Less m' 0 1 = pq_Less Sample.queue 1 0.
Proof.
  apply (pq_Swap_indexed Sample.queue 0 1 0%nat 1%nat).
  - exact Sample_queue_indexed.
  - reflexivity.
  - reflexivity.
Defined.

Lemma ReconstructPath_Ok_path_witness :
  ∃ pre, ["a"; "b"; "c"; "d"] = "a" :: pre ∧
         last ["a"; "b"; "c"; "d"] = Some "d" ∧
         pred_chain RunExact.previous ["a"; "b"; "c"; "d"] ∧ "a" ∉ pre.
Proof.
  apply (ReconstructPath_Ok_path 3 RunExact.previous "a" "d").
  vm_compute. reflexivity.
Defined.

Lemma ReconstructPath_Err_dead_end_witness :
  "no path found from a to z" = "no path found from " +:+ "a" +:+ " to " +:+ "z" ∧
  ∃ t, rtc (pred_link RunExact.previous) "z" t ∧ t ≠ "a" ∧ RunExact.previous !! t = None.
Proof.
  apply (ReconstructPath_Err_dead_end 1 RunExact.previous "a" "z").
  vm_compute. reflexivity.
Defined.

Lemma Dijkstra_predecessor_edge_witness :
  ∃ c du dv, weight RunExact.g "b" "c" = Some c ∧
             RunExact.distances !! "b" = Some du ∧ RunExact.distances !! "c" = Some dv ∧
             dv = f_add du c.
Proof.
  apply (@Dijkstra_predecessor_edge Exact.num _ Exact_laws RunExact.g "a" RunExact_nonneg
           _ _ Dijkstra_RunExact "c" "b").
  vm_compute. reflexivity.
Defined.

Lemma Dijkstra_path_to_finite_target_witness :
  ∃ n, ∀ fuel, (n ≤ fuel)%nat →
    ∃ pre, ReconstructPath fuel RunExact.previous "a" "d" = Some (Ok ("a" :: pre)) ∧
           last ("a" :: pre) = Some "d" ∧
           path_cost RunExact.g f_zero ("a" :: pre) = Some (Exact.Fin 3).
Proof.
  apply (@Dijkstra_path_to_finite_target Exact.num _ Exact_laws RunExact.g "a"
           RunExact_nonneg _ _ Dijkstra_RunExact "d" (Exact.Fin 3)).
  - vm_compute. reflexivity.
  - reflexivity.
Defined.

Lemma Dijkstra_distance_lower_bound_witness :
  ∃ dv, RunExact.distances !! "d" = Some dv ∧ f_le dv (Exact.Fin 5).
Proof.
  apply (@Dijkstra_distance_lower_bound Exact.num _ Exact_laws RunExact.g "a"
           RunExact_nonneg Exact_add_mono _ _ Dijkstra_RunExact ["c"; "d"]).
  - repeat (constructor; [vm_compute; eauto|]). constructor.
  - vm_compute. reflexivity.
  - reflexivity.
Defined.


Lemma Dijkstra_distances_keys_witness :
  (is_Some (RunExact.distances !! "z") ↔ is_Some (Nodes RunExact.g !! "z")) ∧
  (∀ d, RunExact.distances !! "z" = Some d → f_nonneg d).
Proof.
  exact (@Dijkstra_distances_keys Exact.num _ Exact_laws RunExact.g "a"
           RunExact_nonneg _ _ Dijkstra_RunExact "z").
Defined.


Lemma BuildNetworkGraph_error_messages_witness :
  BuildNetworkGraph Sample.telecomSites [] Sample.emergencyCenters
  = Err "error finding nearest hub for TS1: not enough hubs to find the nearest N hubs" ∧
  BuildNetworkGraph Sample.telecomSites [Sample.H1] Sample.emergencyCenters
  = Err "error finding nearest hubs for H1: not enough hubs to find the nearest N hubs" ∧
  BuildNetworkGraph [] [] Sample.emergencyCenters
  = Err "error finding nearest hubs for EC1: not enough hubs to find the nearest N hubs".
Proof.
  split; [|split].
  - apply (proj1 (BuildNetworkGraph_error_messages Sample.telecomSites []
                    Sample.emergencyCenters) Sample.TS1 _ eq_refl eq_refl).
  - apply (proj1 (proj2 (BuildNetworkGraph_error_messages Sample.telecomSites [Sample.H1]
                           Sample.emergencyCenters)) Sample.H1 [] eq_refl).
    cbn. lia.
  - apply (proj2 (proj2 (BuildNetworkGraph_error_messages [] [] Sample.emergencyCenters))
             Sample.EC1 _ eq_refl); [cbn; lia|by left].
Defined.

Lemma BuildNetworkGraph_graph_shape_witness :
  graph_same_keys Sample.graph ∧ graph_symmetric Sample.graph ∧
  graph_closed Sample.graph ∧
  ∀ v, is_Some (Nodes Sample.graph !! v) ↔
       v ∈ map site_ID Sample.telecomSites ++ map hub_ID Sample.hubs
           ++ map ec_ID Sample.emergencyCenters.
Proof.
  apply (BuildNetworkGraph_graph_shape Sample.telecomSites Sample.hubs
           Sample.emergencyCenters Sample.graph).
  vm_compute. reflexivity.
Defined.

Lemma BuildNetworkGraph_connections_witness :
  ∃ nearestHubs,
    FindNearestHubs (site_Location Sample.TS1) Sample.hubs 1 = Ok nearestHubs ∧
    ∀ h, h ∈ nearestHubs → is_Some (weight Sample.graph "TS1" (hub_ID h)).
Proof.
  destruct (BuildNetworkGraph_connections Sample.telecomSites Sample.hubs
              Sample.emergencyCenters Sample.graph) as (Hsites & _ & _).
  - vm_compute. reflexivity.
  - apply (Hsites Sample.TS1). by left.
Defined.

Lemma BuildNetworkGraph_weights_witness :
  ∃ p h, h ∈ Sample.hubs ∧ Exact.Fin 2 = CalculateDistance p (hub_Location h) ∧
    ((("TS1", p) ∈ entities Sample.telecomSites Sample.hubs Sample.emergencyCenters
      ∧ "H1" = hub_ID h) ∨
     (("H1", p) ∈ entities Sample.telecomSites Sample.hubs Sample.emergencyCenters
      ∧ "TS1" = hub_ID h)).
Proof.
  apply (BuildNetworkGraph_weights Sample.telecomSites Sample.hubs
           Sample.emergencyCenters Sample.graph).
  - vm_compute. reflexivity.
  - vm_compute. reflexivity.
Defined.

Lemma BuildNetworkGraph_then_Dijkstra_witness :
  graph_nonneg Sample.graph ∧ ∃ r, Dijkstra "TS1" (Some Sample.graph) (Ok r).
Proof.
  destruct (@BuildNetworkGraph_then_Dijkstra Exact.num _ Exact_laws
              Sample.telecomSites Sample.hubs Sample.emergencyCenters Sample.graph)
    as [Hnn Hstart].
  - vm_compute. reflexivity.
  - exact Sample_distances_nonneg.
  - split; [exact Hnn|]. exact (Hstart "TS1").
Defined.
